(** * Triplit: route optimizer and day packing, verified against the source

    A shallow embedding of [optimizer.py] (cost-matrix validation, nearest
    neighbour construction, 2-Opt refinement) and of the route selector and
    the itinerary builder of [trips_service.py], followed by the properties
    the specification states about them.

    Modelling conventions.
    - A Python [float] is an exact rational or [+inf] (type [float] below).
      Sums are taken exactly. The product that bounds the soft route and the
      quotients that turn metres and seconds into kilometres and minutes are
      rounded to the nearest double ([round_double]), as the code's are.
      [-inf] and NaN are outside the model: the only NaN the code meets is
      the one [np.array] makes of [None], and [_to_cost_matrix] turns it into
      [+inf] at once; sums of finite values and [+inf] never produce another.
    - A Python [str] is a string of characters below U+0100, one [ascii] for
      each; [strip], [lower] and [int] are those of CPython on such strings.
    - A Python [set] of ints is kept as the ascending list of its members.
      Python leaves the iteration order of a set unspecified, and in CPython
      it depends on how the set was built; so where the code iterates over a
      set the model goes through a parameter [set_iter], which is given the
      set the iterated one was made from and the iterated set, and of which
      the theorems assume only that it enumerates the members of the latter.
    - Exceptions are values of type [result]. *)

From Stdlib Require Import QArith Qround Qpower Lia Lqa Ascii.
From stdpp Require Import base list sorting gmap strings pretty.

Open Scope nat_scope.

(** ** Python values *)

Inductive exn :=
| ValueError (msg : string)
| IndexError (msg : string)
| RuntimeError (msg : string).

Inductive result (A : Type) :=
| Ok (a : A)
| Raise (e : exn).
Arguments Ok {A} a.
Arguments Raise {A} e.

Definition bind {A B} (k : A -> result B) (r : result A) : result B :=
  match r with
  | Ok a => k a
  | Raise e => Raise e
  end.

#[global] Instance result_bind : MBind result := @bind.

Inductive float :=
| Fin (q : Q)
| Inf.

(** [a + b], taken exactly. *)
Definition fadd (a b : float) : float :=
  match a, b with
  | Fin x, Fin y => Fin (x + y)
  | _, _ => Inf
  end.

Definition fle (a b : float) : Prop :=
  match a, b with
  | Fin x, Fin y => (x <= y)%Q
  | _, Inf => True
  | Inf, Fin _ => False
  end.

Definition flt (a b : float) : Prop :=
  match a, b with
  | Fin x, Fin y => (x < y)%Q
  | Fin _, Inf => True
  | Inf, _ => False
  end.

Definition feq (a b : float) : Prop :=
  match a, b with
  | Fin x, Fin y => (x == y)%Q
  | Inf, Inf => True
  | _, _ => False
  end.

Definition fltb (a b : float) : bool :=
  match a, b with
  | Fin x, Fin y => negb (Qle_bool y x)
  | Fin _, Inf => true
  | Inf, _ => false
  end.

Definition fleb (a b : float) : bool := negb (fltb b a).

Definition is_inf (a : float) : bool :=
  match a with
  | Inf => true
  | Fin _ => false
  end.

(** [range(a, b)] *)
Definition range (a b : nat) : list nat := seq a (b - a).

(** [min(iterable, key=...)]: the first element whose key no later element
    undercuts; [None] stands for the [ValueError] on an empty iterable. *)
Fixpoint min_from {A} (key : A -> float) (best : A) (l : list A) : A :=
  match l with
  | [] => best
  | x :: l' => min_from key (if fltb (key x) (key best) then x else best) l'
  end.

Definition py_min {A} (key : A -> float) (l : list A) : option A :=
  match l with
  | [] => None
  | x :: l' => Some (min_from key x l')
  end.

(** [max(0, min(int(x), n - 1))] *)
Definition clamp (n : nat) (x : Z) : nat :=
  Z.to_nat (Z.max 0 (Z.min x (Z.of_nat n - 1))).

(** ** optimizer.py *)

Module Optimizer.

(** What [np.array(matrix, dtype=float)] makes of a list of lists: the empty
    list is one-dimensional with shape (0,); rows of one common length give a
    two-dimensional array; rows of different lengths are refused. *)
Inductive ndarray :=
| Arr1 (len : nat)
| Arr2 (rows cols : nat) (cells : list (list float)).

Definition ndim (a : ndarray) : nat :=
  match a with
  | Arr1 _ => 1
  | Arr2 _ _ _ => 2
  end.

Definition shape0 (a : ndarray) : nat :=
  match a with
  | Arr1 len => len
  | Arr2 rows _ _ => rows
  end.

Definition shape1 (a : ndarray) : nat :=
  match a with
  | Arr1 _ => 0
  | Arr2 _ cols _ => cols
  end.

(** [cost[a, b]] *)
Definition at2 (cost : ndarray) (a b : nat) : float :=
  match cost with
  | Arr1 _ => Fin 0
  | Arr2 _ _ cells => nth b (nth a cells []) (Fin 0)
  end.

Record OptimizeResult := {
  order : list nat;
  total_cost : float
}.

(** A [None] cell becomes nan under [np.array] and [+inf] under [np.where].
    For rows of different lengths [np.array] raises a [ValueError], whose
    message is shortened to its first sentence in [_to_cost_matrix]. *)
Definition cell_to_float (c : option Q) : float :=
  match c with
  | Some q => Fin q
  | None => Inf
  end.

Definition _to_cost_matrix (matrix : list (list (option Q))) : result ndarray :=
  match matrix with
  | [] => Ok (Arr1 0)
  | r :: _ =>
      if forallb (fun r' => length r' =? length r) matrix
      then Ok (Arr2 (length matrix) (length r) (map (map cell_to_float) matrix))
      else Raise (ValueError "setting an array element with a sequence")
  end.

Definition any_inf (cost : ndarray) : bool :=
  match cost with
  | Arr1 _ => false
  | Arr2 _ _ cells => existsb (existsb is_inf) cells
  end.

Definition validate_full_matrix (cost : ndarray) : result unit :=
  if negb (ndim cost =? 2) || negb (shape0 cost =? shape1 cost)
  then Raise (ValueError "Cost matrix must be NxN")
  else
    let n := shape0 cost in
    if n =? 0 then Ok tt
    else if any_inf cost
    then Raise (ValueError "Cost matrix contains unreachable pairs (inf).")
    else Ok tt.

Definition path_cost (cost : ndarray) (order : list nat) : float :=
  if length order <=? 1 then Fin 0
  else fold_left (fun total ab => fadd total (at2 cost ab.1 ab.2))
                 (zip order (tail order)) (Fin 0).

(** [cost.sum(axis=1)] *)
Definition row_sums (cost : ndarray) : list float :=
  match cost with
  | Arr1 _ => []
  | Arr2 _ _ cells => map (fun row => fold_left fadd row (Fin 0)) cells
  end.

(** [np.argmin]: the first index of the minimum. *)
Definition argmin (v : list float) : nat :=
  default 0 (py_min (fun i => nth i v (Fin 0)) (range 0 (length v))).

Definition choose_central_start (cost : ndarray) : nat :=
  let n := shape0 cost in
  if n =? 0 then 0
  else argmin (row_sums cost).

(** [choices]: the unvisited nodes, without a fixed end as long as another
    node is left. *)
Definition nn_choices (end_ : option nat) (unvisited : list nat) : list nat :=
  match end_ with
  | Some e =>
      if bool_decide (e ∈ unvisited) && (1 <? length unvisited)
      then filter (fun j => j ≠ e) unvisited
      else unvisited
  | None => unvisited
  end.

Section WithSetOrder.

(** [set_iter unvisited choices]: the order in which Python iterates over
    the set [choices] of a round, which is [unvisited] itself or
    [unvisited - {end}]; both are given by their members in ascending order. *)
Variable set_iter : list nat -> list nat -> list nat.

(** The [while unvisited:] loop; every round removes one member, so
    [length unvisited] rounds are enough. *)
Fixpoint nn_loop (fuel : nat) (cost : ndarray) (end_ : option nat)
    (unvisited : list nat) (order : list nat) (current : nat) : list nat :=
  match fuel with
  | 0 => order
  | S fuel' =>
      match unvisited with
      | [] => order
      | _ :: _ =>
          let choices := nn_choices end_ unvisited in
          match py_min (fun j => at2 cost current j)
                       (set_iter unvisited choices) with
          | None => order (* [min] of no choice; the choices are never empty *)
          | Some next_node =>
              nn_loop fuel' cost end_
                      (filter (fun j => j ≠ next_node) unvisited)
                      (order ++ [next_node]) next_node
          end
      end
  end.

Definition nearest_neighbor_path (cost : ndarray) (start : Z) (end_ : option Z)
    : list nat :=
  let n := shape0 cost in
  if n =? 0 then []
  else
    let start := clamp n start in
    let end_ :=
      match end_ with
      | Some e =>
          let e := clamp n e in
          if e =? start then None else Some e
      | None => None
      end in
    let unvisited := filter (fun j => j ≠ start) (range 0 n) in
    nn_loop (length unvisited) cost end_ unvisited [start] start.

End WithSetOrder.

(** [1e-9], the double. *)
Definition eps : Q := 4835703278458517 # 4835703278458516698824704.

(** [best[:i] + list(reversed(best[i:k + 1])) + best[k + 1:]] *)
Definition reverse_segment (best : list nat) (i k : nat) : list nat :=
  take i best ++ reverse (take (k + 1 - i) (drop i best)) ++ drop (k + 1) best.

(** The inner [for k] loop: the first improving candidate, if any. The sum
    [cand_cost + 1e-9] is taken exactly, where the code rounds it to a
    double: on two doubles the code's test implies this one. *)
Fixpoint scan_k (cost : ndarray) (best : list nat) (best_cost : float)
    (i : nat) (ks : list nat) : option (list nat * float) :=
  match ks with
  | [] => None
  | k :: ks' =>
      if k - i <? 1 then scan_k cost best best_cost i ks'
      else
        let candidate := reverse_segment best i k in
        let cand_cost := path_cost cost candidate in
        if fltb (fadd cand_cost (Fin eps)) best_cost
        then Some (candidate, cand_cost)
        else scan_k cost best best_cost i ks'
  end.

(** The outer [for i] loop, left as soon as the inner loop has improved. *)
Fixpoint scan_i (cost : ndarray) (best : list nat) (best_cost : float)
    (n : nat) (idxs : list nat) : option (list nat * float) :=
  match idxs with
  | [] => None
  | i :: idxs' =>
      match scan_k cost best best_cost i (range (i + 1) (n - 1)) with
      | Some r => Some r
      | None => scan_i cost best best_cost n idxs'
      end
  end.

(** [while improved and iters < max_iter]; [fuel] is [max_iter - iters]. *)
Fixpoint two_opt_loop (fuel : nat) (cost : ndarray) (best : list nat)
    (best_cost : float) (start_i n : nat) : list nat :=
  match fuel with
  | 0 => best
  | S fuel' =>
      match scan_i cost best best_cost n (range start_i (n - 2)) with
      | Some (candidate, cand_cost) =>
          two_opt_loop fuel' cost candidate cand_cost start_i n
      | None => best
      end
  end.

Definition two_opt_improve (cost : ndarray) (order : list nat)
    (fixed_start : bool) (max_iter : nat) : list nat :=
  let n := length order in
  if n <=? 3 then order
  else
    let best := order in
    let best_cost := path_cost cost best in
    let start_i := if fixed_start then 1 else 0 in
    two_opt_loop max_iter cost best best_cost start_i n.

(** [max_iter: int = 2000] *)
Definition default_max_iter : nat := 2000.

Section Pipeline.

Variable set_iter : list nat -> list nat -> list nat.

Definition optimize_order_from_durations
    (durations_s : list (list (option Q)))
    (fixed_start_index : option Z) (fixed_end_index : option Z)
    : result OptimizeResult :=
  cost ← _to_cost_matrix durations_s;
  _ ← validate_full_matrix cost;
  let n := shape0 cost in
  if n <=? 1 then Ok {| order := range 0 n; total_cost := Fin 0 |}
  else
    let end_ := option_map (clamp n) fixed_end_index in
    start_fixed ←
      match fixed_start_index with
      | None =>
          if n =? 0 then Ok (0, false)
          else
            match end_ with
            | None => Ok (choose_central_start cost, false)
            | Some e =>
                let sums := row_sums cost in
                let candidates := filter (fun i => i ≠ e) (range 0 n) in
                match py_min (fun i => nth i sums (Fin 0)) candidates with
                | Some s => Ok (s, false)
                | None => Raise (ValueError "min() arg is an empty sequence")
                end
            end
      | Some s => Ok (clamp n s, true)
      end;
    let start := start_fixed.1 in
    let fixed_start := start_fixed.2 in
    let end_ :=
      match end_ with
      | Some e => if e =? start then None else Some e
      | None => None
      end in
    let nn := nearest_neighbor_path set_iter cost (Z.of_nat start)
                                    (option_map Z.of_nat end_) in
    let improved := two_opt_improve cost nn fixed_start default_max_iter in
    Ok {| order := improved; total_cost := path_cost cost improved |}.

End Pipeline.

End Optimizer.

(** ** Strings and numbers of Python *)

(** A string of the model is a Python string of characters below U+0100,
    one [ascii] for each character. *)

(** [c.isspace()]: the blanks of ASCII, the separators U+001C to U+001F, the
    next-line character U+0085 and the no-break space U+00A0. *)
Definition is_space (c : ascii) : bool :=
  let n := Ascii.nat_of_ascii c in
  ((9 <=? n) && (n <=? 13)) || ((28 <=? n) && (n <=? 32))
  || (n =? 133) || (n =? 160).

Fixpoint lstrip (blank : ascii -> bool) (s : string) : string :=
  match s with
  | String c s' => if blank c then lstrip blank s' else s
  | EmptyString => EmptyString
  end.

Fixpoint rstrip (blank : ascii -> bool) (s : string) : string :=
  match s with
  | String c s' =>
      match rstrip blank s' with
      | EmptyString => if blank c then EmptyString else String c EmptyString
      | t => String c t
      end
  | EmptyString => EmptyString
  end.

(** [s.strip()] *)
Definition py_strip (s : string) : string :=
  rstrip is_space (lstrip is_space s).

(** [c.lower()]: the capitals of ASCII and those of U+00C0 to U+00DE, the
    multiplication sign U+00D7 apart. *)
Definition lower_char (c : ascii) : ascii :=
  let n := Ascii.nat_of_ascii c in
  if ((65 <=? n) && (n <=? 90))
     || ((192 <=? n) && (n <=? 222) && negb (n =? 215))
  then Ascii.ascii_of_nat (n + 32) else c.

(** [s.lower()] *)
Fixpoint py_lower (s : string) : string :=
  match s with
  | String c s' => String (lower_char c) (py_lower s')
  | EmptyString => EmptyString
  end.

(** [needle in hay] *)
Fixpoint contains (needle hay : string) : bool :=
  String.prefix needle hay ||
  match hay with
  | String _ hay' => contains needle hay'
  | EmptyString => false
  end.

Definition digit_of (c : ascii) : option Z :=
  let n := Ascii.nat_of_ascii c in
  if (48 <=? n) && (n <=? 57) then Some (Z.of_nat (n - 48)) else None.

(** Digits with single underscores between them, read in base ten.
    [after_digit] tells whether an underscore may come next. *)
Fixpoint parse_digits (s : string) (acc : Z) (after_digit : bool) : option Z :=
  match s with
  | EmptyString => if after_digit then Some acc else None
  | String c s' =>
      match digit_of c with
      | Some d => parse_digits s' (10 * acc + d) true
      | None =>
          if Ascii.eqb c "_"%char && after_digit then parse_digits s' acc false
          else None
      end
  end.

(** The blanks that [int] skips at both ends of a string: those of C's
    [isspace], and the two blanks above U+007F, which CPython turns into
    spaces before it reads the number. The separators U+001C to U+001F, which
    [strip] removes, are not among them. *)
Definition is_int_space (c : ascii) : bool :=
  let n := Ascii.nat_of_ascii c in
  ((9 <=? n) && (n <=? 13)) || (n =? 32) || (n =? 133) || (n =? 160).

Fixpoint count_digits (s : string) : nat :=
  match s with
  | String c s' =>
      match digit_of c with
      | Some _ => S (count_digits s')
      | None => count_digits s'
      end
  | EmptyString => 0
  end.

(** [sys.get_int_max_str_digits()], as CPython sets it. *)
Definition MAX_STR_DIGITS : nat := 4300.

(** The digits after the sign: [int] refuses more than [MAX_STR_DIGITS] of
    them. *)
Definition parse_magnitude (t : string) : option Z :=
  if MAX_STR_DIGITS <? count_digits t then None else parse_digits t 0 false.

(** [int(s)] for a string; [None] stands for the [ValueError]. *)
Definition py_int_of_string (s : string) : option Z :=
  match rstrip is_int_space (lstrip is_int_space s) with
  | String "-"%char t => option_map Z.opp (parse_magnitude t)
  | String "+"%char t => parse_magnitude t
  | t => parse_magnitude t
  end.

(** [round(q)]: to the nearest integer, halves to the even one. *)
Definition py_round (q : Q) : Z :=
  let f := Qfloor q in
  let d := (q - inject_Z f)%Q in
  match (d ?= 1 # 2)%Q with
  | Lt => f
  | Gt => (f + 1)%Z
  | Eq => if Z.even f then f else (f + 1)%Z
  end.

(** [round(q, ndigits)]: the decimal of [ndigits] digits nearest to [q],
    halves to the even one. The code's result is the double nearest to this
    decimal, the one that prints as it. *)
Definition py_round_to (q : Q) (ndigits : nat) : Q :=
  let scale := inject_Z (10 ^ Z.of_nat ndigits) in
  (inject_Z (py_round (q * scale)) / scale)%Q.

(** [int(q)]: towards zero. *)
Definition py_trunc (q : Q) : Z :=
  if Qle_bool 0 q then Qfloor q else Qceiling q.

(** [x > y] and [x < y] on finite floats *)
Definition Qgtb (x y : Q) : bool := negb (Qle_bool x y).
Definition Qltb (x y : Q) : bool := negb (Qle_bool y x).

(** *** Doubles

    Where the code multiplies or divides, the result is the double nearest
    to the exact one. *)

(** The exponent of a positive rational: [2^e <= q < 2^(e+1)]. *)
Definition Qlog2 (q : Q) : Z :=
  let e0 := (Z.log2 (Qnum q) - Z.log2 (Z.pos (Qden q)))%Z in
  if Qle_bool (2 ^ e0) q then e0 else (e0 - 1)%Z.

(** The spacing of the doubles about a positive rational: 53 bits of
    significand, fewer below [2^-1022]. *)
Definition quantum (q : Q) : Q := 2 ^ Z.max (Qlog2 q - 52) (-1074).

(** Rounding to the nearest double, ties to the even significand, with the
    exponent unbounded above: the result is a double when it is below
    [2^1024], and the operation overflows when it is not. *)
Definition round_double (q : Q) : Q :=
  match (q ?= 0)%Q with
  | Eq => 0%Q
  | Gt => (inject_Z (py_round (q / quantum q)) * quantum q)%Q
  | Lt => (- (inject_Z (py_round (- q / quantum (- q))) * quantum (- q)))%Q
  end.

(** [x / c] on doubles, for a finite [x] and a divisor of 1 or more, where
    the quotient cannot overflow. *)
Definition fdiv_double (x c : Q) : Q := round_double (x / c).

(** [x * c] on doubles, for a product that is not negative. *)
Definition fmul_double (a : float) (c : Q) : float :=
  match a with
  | Fin x =>
      let r := round_double (x * c) in
      if Qle_bool (2 ^ 1024) r then Inf else Fin r
  | Inf => Inf
  end.

(** ** trips_service.py: route optimization *)

Module TripsService.

Import Optimizer.

Record row := {
  location_id : Z;
  locality : option string;
  region : option string;
  latitude : option Q;
  longitude : option Q
}.

Record trip := {
  start_region : option string;
  end_region : option string
}.

Record OsrmTableResult := {
  distances_m : list (list (option Q));
  durations_s : list (list (option Q))
}.

(** A caller-supplied anchor: [int | str | None]. *)
Inductive anchor_id :=
| IdNone
| IdInt (z : Z)
| IdStr (s : string).

Record route_response := {
  optimized_order : list Z;
  total_distance_km : Q;
  total_duration_min : Q;
  total_locations : nat
}.

(** [{int(r['location_id']): i for i, r in enumerate(rows)}] *)
Definition id_to_index (rows : list row) : gmap Z nat :=
  foldl (fun m ir => <[location_id ir.2 := ir.1]> m) ∅
        (imap (fun i r => (i, r)) rows).

(** The [try] block that resolves one explicit selector: a missing or blank
    id, one that [int] refuses and one that names no row all give [None]. *)
Definition resolve_anchor (index : gmap Z nat) (x : anchor_id) : option nat :=
  match x with
  | IdNone => None
  | IdInt z => index !! z
  | IdStr s =>
      if String.eqb (py_strip s) EmptyString then None
      else
        match py_int_of_string s with
        | Some z => index !! z
        | None => None
        end
  end.

(** [SOFT_MAX_DEGRADATION]: the double nearest to 0.12. *)
Definition SOFT_MAX_DEGRADATION : Q := 1080863910568919 # 9007199254740992.

(** [base.total_cost * (1.0 + SOFT_MAX_DEGRADATION)], a sum and a product of
    doubles. *)
Definition soft_ceiling (base_cost : float) : float :=
  fmul_double base_cost (round_double (1 + SOFT_MAX_DEGRADATION)).

(** The last [if]: the soft route when it stays within the ceiling and the
    baseline costs something, the baseline otherwise. *)
Definition accept_soft (base : OptimizeResult)
    (best_soft : option OptimizeResult) : OptimizeResult :=
  match best_soft with
  | Some soft =>
      if fltb (Fin 0) (total_cost base)
      then
        if fleb (total_cost soft) (soft_ceiling (total_cost base))
        then soft
        else base
      else base
  | None => base
  end.

(** [fs] and [fe]: a hard anchor overrides the soft option. *)
Definition or_else (hard soft : option nat) : option nat :=
  match hard with
  | Some h => Some h
  | None => soft
  end.

Definition same_index (a b : option nat) : bool :=
  match a, b with
  | Some x, Some y => x =? y
  | _, _ => false
  end.

Section WithCollaborators.

Variable set_iter : list nat -> list nat -> list nat.

(** [SequenceMatcher(None, ut, vv).ratio() > 0.8] *)
Variable similar : string -> string -> bool.

(** The Matrix Provider, [fetch_table_matrix(coordinates=...)]. *)
Variable fetch_table_matrix : list (Q * Q) -> result OsrmTableResult.

Definition _region_match (user_text value : string) : bool :=
  let ut := py_lower (py_strip user_text) in
  let vv := py_lower (py_strip value) in
  if String.eqb ut EmptyString || String.eqb vv EmptyString then false
  else if contains ut vv || contains vv ut then true
  else similar ut vv.

(** The indices of the rows whose locality or region matches [pref]. *)
Definition matching_rows (pref : string) (rows : list row) : list nat :=
  omap (fun ir : nat * row =>
          if _region_match pref (default EmptyString (locality ir.2))
             || _region_match pref (default EmptyString (region ir.2))
          then Some ir.1 else None)
       (imap (fun i r => (i, r)) rows).

(** One round of the two [for] loops over the soft options. *)
Definition soft_step (durations : list (list (option Q)))
    (hard_start_idx hard_end_idx : option nat)
    (acc : result (option OptimizeResult)) (se : option nat * option nat)
    : result (option OptimizeResult) :=
  best_soft ← acc;
  let s := se.1 in
  let e := se.2 in
  if bool_decide (s = None) && bool_decide (e = None) then Ok best_soft
  else if same_index s e then Ok best_soft
  else
    let fs := or_else hard_start_idx s in
    let fe := or_else hard_end_idx e in
    if same_index fs fe then Ok best_soft
    else
      cand ← optimize_order_from_durations set_iter durations
                (option_map Z.of_nat fs) (option_map Z.of_nat fe);
      match best_soft with
      | None => Ok (Some cand)
      | Some soft =>
          if fltb (total_cost cand) (total_cost soft) then Ok (Some cand)
          else Ok (Some soft)
      end.

(** [for s in start_options: for e in end_options: ...] *)
Definition best_soft_route (durations : list (list (option Q)))
    (hard_start_idx hard_end_idx : option nat)
    (start_candidates end_candidates : list nat)
    : result (option OptimizeResult) :=
  let start_options := None :: map Some start_candidates in
  let end_options := None :: map Some end_candidates in
  foldl (soft_step durations hard_start_idx hard_end_idx) (Ok None)
        (s ← start_options; e ← end_options; [(s, e)]).

(** The baseline under the hard anchors alone. *)
Definition base_route (durations : list (list (option Q)))
    (hard_start_idx hard_end_idx : option nat) : result OptimizeResult :=
  optimize_order_from_durations set_iter durations
    (option_map Z.of_nat hard_start_idx) (option_map Z.of_nat hard_end_idx).

(** The Constrained Route Selector: baseline, soft candidates, acceptance. *)
Definition select_route (durations : list (list (option Q)))
    (hard_start_idx hard_end_idx : option nat)
    (start_candidates end_candidates : list nat) : result OptimizeResult :=
  base ← base_route durations hard_start_idx hard_end_idx;
  best_soft ← best_soft_route durations hard_start_idx hard_end_idx
                start_candidates end_candidates;
  Ok (accept_soft base best_soft).

(** [table[a][b]] on a list of lists *)
Definition cell (m : list (list (option Q))) (a b : nat)
    : result (option Q) :=
  match m !! a with
  | Some r =>
      match r !! b with
      | Some c => Ok c
      | None => Raise (IndexError "list index out of range")
      end
  | None => Raise (IndexError "list index out of range")
  end.

(** The totals along the ordered path. *)
Fixpoint path_totals (table : OsrmTableResult) (edges : list (nat * nat))
    (total_distance_m total_duration_s : Q) : result (Q * Q) :=
  match edges with
  | [] => Ok (total_distance_m, total_duration_s)
  | (a, b) :: edges' =>
      d_m ← cell (distances_m table) a b;
      t_s ← cell (durations_s table) a b;
      match d_m, t_s with
      | Some d, Some t =>
          path_totals table edges' (total_distance_m + d)%Q
                      (total_duration_s + t)%Q
      | _, _ => Raise (ValueError "OSRM matrix contains unreachable pairs")
      end
  end.

(** [coordinates.append((float(lon), float(lat)))], or the [ValueError] of
    the first row that lacks one. *)
Fixpoint coordinates_of (rows : list row) : result (list (Q * Q)) :=
  match rows with
  | [] => Ok []
  | r :: rows' =>
      match latitude r, longitude r with
      | Some lat, Some lon =>
          rest ← coordinates_of rows';
          Ok ((lon, lat) :: rest)
      | _, _ =>
          Raise (ValueError (String.append "Missing coordinates for location_id="
                                           (pretty (location_id r))))
      end
  end.

(** [[rows[i] for i in result.order]], then the ids of those rows. *)
Fixpoint ordered_location_ids_of (rows : list row) (order_ : list nat)
    : result (list Z) :=
  match order_ with
  | [] => Ok []
  | i :: order' =>
      match rows !! i with
      | Some r =>
          rest ← ordered_location_ids_of rows order';
          Ok (location_id r :: rest)
      | None => Raise (IndexError "list index out of range")
      end
  end.

(** [optimize_trip_route], from the selected rows of a trip that was found
    and is not finalized; the writes to the database are left out. *)
Definition optimize_trip_route (trip_ : trip) (rows : list row)
    (start_location_id end_location_id : anchor_id) : result route_response :=
  if length rows <=? 1
  then Ok {| optimized_order := map location_id rows;
             total_distance_km := 0;
             total_duration_min := 0;
             total_locations := length rows |}
  else
    coordinates ← coordinates_of rows;
    table ← fetch_table_matrix coordinates;
    let index := id_to_index rows in
    let hard_start_idx := resolve_anchor index start_location_id in
    let hard_end_idx := resolve_anchor index end_location_id in
    let hard_end_idx :=
      if same_index hard_start_idx hard_end_idx then None else hard_end_idx in
    let start_pref := py_strip (default EmptyString (start_region trip_)) in
    let end_pref := py_strip (default EmptyString (end_region trip_)) in
    let start_candidates :=
      if negb (String.eqb start_pref EmptyString) && bool_decide (hard_start_idx = None)
      then matching_rows start_pref rows else [] in
    let end_candidates :=
      if negb (String.eqb end_pref EmptyString) && bool_decide (hard_end_idx = None)
      then matching_rows end_pref rows else [] in
    result_ ← select_route (durations_s table) hard_start_idx hard_end_idx
                start_candidates end_candidates;
    ordered_location_ids ← ordered_location_ids_of rows (order result_);
    totals ← path_totals table (zip (order result_) (tail (order result_)))
                0 0;
    Ok {| optimized_order := ordered_location_ids;
          total_distance_km := py_round_to (fdiv_double totals.1 1000) 3;
          total_duration_min := py_round_to (fdiv_double totals.2 60) 1;
          total_locations := length rows |}.

End WithCollaborators.

(** *** build_trip_itinerary *)

Record loc := {
  loc_id : Z;
  loc_name : string;
  loc_region : option string;
  loc_category : option string
}.

Record segment := {
  from_location_id : Z;
  to_location_id : Z;
  duration_min : option Q
}.

(** One entry of [current_day_locs]. *)
Record item := {
  item_loc : loc;
  item_travel : Q;
  item_visit : Q
}.

(** One entry of a day's ['locations']. *)
Record planned_loc := {
  planned : loc;
  estimated_visit_min : Z;
  estimated_travel_from_prev_min : Q
}.

Record day := {
  day_number : nat;
  locations : list planned_loc;
  travel_min : Q;
  visit_min : Q;
  active_min : Q;
  overhead_min : Z;
  total_min : Q
}.

Record itinerary := {
  regions : list (string * list day);
  pace : string;
  target_active_min : option Z;
  daily_overhead_min : option Z;
  total_locations_ : nat;
  total_days : option nat
}.

(** [(pace or 'balanced').strip().lower()] *)
Definition pace_key_of (pace : option string) : string :=
  py_lower (py_strip (match pace with
                      | Some p => if String.eqb p EmptyString then "balanced" else p
                      | None => "balanced"
                      end)).

(** [day_budget_min_map.get(pace_key, 480)] *)
Definition day_budget_min (pace_key : string) : Z :=
  if String.eqb pace_key "relaxed" then 360
  else if String.eqb pace_key "balanced" then 480
  else if String.eqb pace_key "packed" then 600
  else 480.

(** [daily_overhead_min] *)
Definition overhead : Z := 120.

Definition tolerance_min : Z := 45.

Definition base_by_category : list (string * Z) :=
  [("heritage", 90); ("museum", 90); ("religious", 75); ("nature", 120);
   ("beach", 120); ("adventure", 180); ("food", 60); ("shopping", 75);
   ("viewpoint", 45); ("entertainment", 90); ("wellness", 120);
   ("local-experience", 90)]%string%Z.

Fixpoint dict_get (d : list (string * Z)) (k : string) (dflt : Z) : Z :=
  match d with
  | [] => dflt
  | (k', v) :: d' => if String.eqb k' k then v else dict_get d' k dflt
  end.

(** The doubles nearest to 1.15 and to 0.85. *)
Definition mult_relaxed : Q := 2589569785738035 # 2251799813685248.
Definition mult_packed : Q := 7656119366529843 # 9007199254740992.

Definition _estimate_visit_min (pace_key : string) (category : option string)
    : Z :=
  let c := py_lower (py_strip (default EmptyString category)) in
  let minutes := dict_get base_by_category c 75 in
  let mult :=
    if String.eqb pace_key "relaxed" then mult_relaxed
    else if String.eqb pace_key "packed" then mult_packed
    else 1%Q in
  let minutes := py_round (inject_Z minutes * mult) in
  Z.max 30 minutes.

(** [seg_map], filled from the stored segments; a later row for the same pair
    of stops replaces an earlier one. *)
Definition build_seg_map (segments : list segment) : gmap (Z * Z) Q :=
  foldl (fun m s =>
           <[(from_location_id s, to_location_id s) :=
               default 0%Q (duration_min s)]> m)
        ∅ segments.

(** The state of the inner loop. *)
Record packing := {
  temp_locs_queue : list loc;
  current_day_locs : list item;
  current_day_active : Q;
  current_day_travel : Q;
  current_day_visit : Q;
  prev_loc_id : option Z
}.

(** The inner [while temp_locs_queue:] loop, which packs one day. *)
Fixpoint pack_day (pace_key : string) (seg_map : gmap (Z * Z) Q)
    (target : Z) (queue : list loc) (locs : list item)
    (active travel visit : Q) (prev : option Z) : packing :=
  match queue with
  | [] =>
      {| temp_locs_queue := []; current_day_locs := locs;
         current_day_active := active; current_day_travel := travel;
         current_day_visit := visit; prev_loc_id := prev |}
  | l :: rest =>
      let travel_min :=
        match prev with
        | Some p => default 0%Q (seg_map !! (p, loc_id l))
        | None => 0%Q
        end in
      let visit_min := inject_Z (_estimate_visit_min pace_key (loc_category l)) in
      let step_active := (travel_min + visit_min)%Q in
      if negb (bool_decide (locs = []))
         && Qgtb (active + step_active) (inject_Z (target + tolerance_min))
      then
        {| temp_locs_queue := queue; current_day_locs := locs;
           current_day_active := active; current_day_travel := travel;
           current_day_visit := visit; prev_loc_id := prev |}
      else
        pack_day pace_key seg_map target rest
          (locs ++ [{| item_loc := l; item_travel := travel_min;
                       item_visit := visit_min |}])
          (active + step_active)%Q (travel + travel_min)%Q
          (visit + visit_min)%Q (Some (loc_id l))
  end.

(** [min(1.5, x)] *)
Definition cap_stretch (x : Q) : Q := if Qltb x (3 # 2) then x else 3 # 2.

Definition sumQ (l : list Q) : Q := fold_left Qplus l 0%Q.

(** Stretching, and the day as it goes into [days_global]. *)
Definition finalize_day (target : Z) (number : nat) (st : packing) : day :=
  let slack := (inject_Z target - current_day_active st)%Q in
  let stretched :=
    if Qgtb slack 15 && Qgtb (current_day_visit st) 0
    then
      let stretch_factor :=
        cap_stretch ((current_day_visit st + slack) / current_day_visit st) in
      let locs :=
        map (fun it =>
               {| item_loc := item_loc it; item_travel := item_travel it;
                  item_visit := py_round_to (item_visit it * stretch_factor) 1 |})
            (current_day_locs st) in
      let new_visit_total := sumQ (map item_visit locs) in
      (locs, new_visit_total, (current_day_travel st + new_visit_total)%Q)
    else (current_day_locs st, current_day_visit st, current_day_active st) in
  let locs := stretched.1.1 in
  let visit := stretched.1.2 in
  let active := stretched.2 in
  {| day_number := number;
     locations :=
       map (fun it =>
              {| planned := item_loc it;
                 estimated_visit_min := py_trunc (item_visit it);
                 estimated_travel_from_prev_min :=
                   py_round_to (item_travel it) 1 |})
           locs;
     travel_min := py_round_to (current_day_travel st) 1;
     visit_min := py_round_to visit 1;
     active_min := py_round_to active 1;
     overhead_min := overhead;
     total_min := py_round_to (active + inject_Z overhead) 1 |}.

(** The outer [while temp_locs_queue:] loop; a day takes at least one stop
    off the queue, so [length queue] rounds are enough. *)
Fixpoint days_loop (fuel : nat) (pace_key : string)
    (seg_map : gmap (Z * Z) Q) (target : Z) (queue : list loc)
    (prev : option Z) (days_global : list day) : list day :=
  match fuel with
  | 0 => days_global
  | S fuel' =>
      match queue with
      | [] => days_global
      | _ :: _ =>
          let st := pack_day pace_key seg_map target queue [] 0 0 0 prev in
          let days_global :=
            if bool_decide (current_day_locs st = []) then days_global
            else days_global
                 ++ [finalize_day target (length days_global + 1) st] in
          days_loop fuel' pace_key seg_map target (temp_locs_queue st)
                    (prev_loc_id st) days_global
      end
  end.

(** The aggregates of a day recomputed from its locations. *)
Definition recalculate (d : day) (locs : list planned_loc) : day :=
  let travel :=
    py_round_to (sumQ (map estimated_travel_from_prev_min locs)) 1 in
  let visit :=
    py_round_to (inject_Z (foldr Z.add 0%Z (map estimated_visit_min locs))) 1 in
  let active := py_round_to (travel + visit) 1 in
  {| day_number := day_number d;
     locations := locs;
     travel_min := travel;
     visit_min := visit;
     active_min := active;
     overhead_min := overhead_min d;
     total_min := py_round_to (active + inject_Z (overhead_min d)) 1 |}.

(** The final equalization: a lone, light last stop is joined by the last
    stop of the day before when that day has more than two. *)
Definition equalize (target : Z) (days_global : list day) : list day :=
  match reverse days_global with
  | last_ :: prev :: earlier =>
      if (length (locations last_) =? 1)
         && (2 <? length (locations prev))
         && Qltb (active_min last_) (inject_Z target * (1 # 2))
      then
        match reverse (locations prev) with
        | shifted :: kept =>
            reverse earlier
            ++ [recalculate prev (reverse kept);
                recalculate last_ (shifted :: locations last_)]
        | [] => days_global
        end
      else days_global
  | _ => days_global
  end.

(** [region_groups.setdefault(region_name, []).append(day)] *)
Fixpoint group_append (groups : list (string * list day)) (name : string)
    (d : day) : list (string * list day) :=
  match groups with
  | [] => [(name, [d])]
  | (name', days) :: groups' =>
      if String.eqb name' name then (name', days ++ [d]) :: groups'
      else (name', days) :: group_append groups' name d
  end.

(** [first_loc.get('region') or 'Other'] *)
Definition region_name_of (d : day) : string :=
  match locations d with
  | first_loc :: _ =>
      match loc_region (planned first_loc) with
      | Some r => if String.eqb r EmptyString then "Other" else r
      | None => "Other"
      end
  | [] => "Other"
  end.

Definition group_by_region (days_global : list day)
    : list (string * list day) :=
  foldl (fun groups d => group_append groups (region_name_of d) d) []
        days_global.

(** [build_trip_itinerary], from the ordered stops of the trip and the
    stored route segments. *)
Definition build_trip_itinerary (all_locs : list loc)
    (segments : list segment) (pace_ : option string) : itinerary :=
  let pace_key := pace_key_of pace_ in
  let target := day_budget_min pace_key in
  match all_locs with
  | [] =>
      {| regions := []; pace := pace_key; target_active_min := None;
         daily_overhead_min := None; total_locations_ := 0;
         total_days := None |}
  | _ :: _ =>
      let seg_map := build_seg_map segments in
      let days_global :=
        days_loop (length all_locs) pace_key seg_map target all_locs None [] in
      let days_global := equalize target days_global in
      {| regions := group_by_region days_global;
         pace := pace_key;
         target_active_min := Some target;
         daily_overhead_min := Some overhead;
         total_locations_ := length all_locs;
         total_days := Some (length days_global) |}
  end.

End TripsService.

(** ** Auxiliary notions of the statements *)

(** The end anchor that reaches nearest neighbour: the clamped index, unless
    it coincides with the start. *)
Definition effective_end (n start : nat) (fixed_end_index : option Z)
    : option nat :=
  match option_map (clamp n) fixed_end_index with
  | Some e => if e =? start then None else Some e
  | None => None
  end.

(** An array holds as many rows and columns as its shape says. *)
Definition wf_ndarray (a : Optimizer.ndarray) : Prop :=
  match a with
  | Optimizer.Arr1 len => len = 0
  | Optimizer.Arr2 rows cols cells =>
      length cells = rows /\ Forall (fun r => length r = cols) cells
  end.

(** ** Inputs of the worked examples *)

(** The four-stop matrix of the specification's scenario. *)
Definition matrix4 : list (list (option Q)) :=
  map (map (fun z => Some (inject_Z z)))
      [[0; 10; 15; 20]; [10; 0; 35; 25]; [15; 35; 0; 30]; [20; 25; 30; 0]]%Z.

(** Four selected stops with ids 10, 20, 30, 40 and a provider that answers
    with [matrix4] for distances and durations alike. *)
Definition rows4 : list TripsService.row :=
  map (fun id_region : Z * string =>
         {| TripsService.location_id := id_region.1;
            TripsService.locality := None;
            TripsService.region := Some id_region.2;
            TripsService.latitude := Some 1%Q;
            TripsService.longitude := Some 1%Q |})
      [(10%Z, "Goa"%string); (20%Z, "Goa"%string);
       (30%Z, "Pune"%string); (40%Z, "Agra"%string)].

Definition fetch4 (coordinates : list (Q * Q))
    : result TripsService.OsrmTableResult :=
  Ok {| TripsService.distances_m := matrix4;
        TripsService.durations_s := matrix4 |}.

Definition no_preference : TripsService.trip :=
  {| TripsService.start_region := None; TripsService.end_region := None |}.

(** An anchor id that [int] refuses or that names no selected row. *)
Inductive bad_anchor (rows : list TripsService.row)
    : TripsService.anchor_id -> Prop :=
| bad_malformed s :
    py_int_of_string s = None -> bad_anchor rows (TripsService.IdStr s)
| bad_unknown_str s z :
    py_int_of_string s = Some z ->
    z ∉ map TripsService.location_id rows ->
    bad_anchor rows (TripsService.IdStr s)
| bad_unknown_int z :
    z ∉ map TripsService.location_id rows ->
    bad_anchor rows (TripsService.IdInt z).

(** The Cost Matrix Validator as the optimizer runs it: conversion, then
    validation. *)
Definition validated_cost (matrix : list (list (option Q)))
    : result Optimizer.ndarray :=
  cost ← Optimizer._to_cost_matrix matrix;
  _ ← Optimizer.validate_full_matrix cost;
  Ok cost.

(** A raw matrix with as many cells in every row as it has rows. *)
Definition square (matrix : list (list (option Q))) : Prop :=
  Forall (fun r => length r = length matrix) matrix.

(** A raw matrix with a missing cell. *)
Definition has_missing (matrix : list (list (option Q))) : Prop :=
  Exists (fun r => None ∈ r) matrix.

(** Nine stops, every leg of sixty seconds. *)
Definition uniform9 : list (list (option Q)) :=
  map (fun i => map (fun j => Some (if i =? j then 0%Q else 60%Q)) (seq 0 9))
      (seq 0 9).

(** *** The sets of CPython

    How CPython iterates over the sets of nearest neighbour, slot by slot of
    their hash tables. [unvisited], made of [range(n)] by removals, sits in a
    table of more than [n] slots, node [i] in slot [i], and comes in
    ascending order. The set [unvisited - {end}] is built anew in a table of
    its own size, where a node may wrap around or collide:
    [list({1, 5, 6, 7, 8} - {1})] is [[8, 5, 6, 7]]. A table is kept as the
    list of its filled slots, each with its key; the hash of a node is the
    node. *)
Definition LINEAR_PROBES : nat := 9.
Definition PERTURB_SHIFT : nat := 5.
Definition PySet_MINSIZE : nat := 8.

Definition slot_is_free (table : list (nat * nat)) (i : nat) : bool :=
  forallb (fun e => negb (e.1 =? i)) table.

(** The first free slot among [i], [i + 1], ..., [i + probes]. *)
Fixpoint linear_probe (table : list (nat * nat)) (i probes : nat)
    : option nat :=
  if slot_is_free table i then Some i
  else
    match probes with
    | 0 => None
    | S probes' => linear_probe table (i + 1) probes'
    end.

(** The probe sequence of [set_insert_clean] and [set_add_entry]: slot [i]
    and, away from the end of the table, the nine slots after it, then a
    jump; [fuel] bounds the jumps. *)
Fixpoint find_slot (fuel : nat) (table : list (nat * nat))
    (mask i perturb : nat) : nat :=
  match fuel with
  | 0 => i
  | S fuel' =>
      match linear_probe table i
              (if i + LINEAR_PROBES <=? mask then LINEAR_PROBES else 0) with
      | Some j => j
      | None =>
          let perturb := Nat.shiftr perturb PERTURB_SHIFT in
          find_slot fuel' table mask (Nat.land (i * 5 + 1 + perturb) mask)
                    perturb
      end
  end.

Definition set_insert_clean (mask : nat) (table : list (nat * nat))
    (key : nat) : list (nat * nat) :=
  (find_slot (2 * mask + 64) table mask (Nat.land key mask) key, key)
  :: table.

Fixpoint insert_by_slot (e : nat * nat) (l : list (nat * nat))
    : list (nat * nat) :=
  match l with
  | [] => [e]
  | y :: l' => if e.1 <? y.1 then e :: l else y :: insert_by_slot e l'
  end.

(** The entries of a table in the order of its slots, which is the order of
    iteration. *)
Definition by_slot (table : list (nat * nat)) : list (nat * nat) :=
  foldr insert_by_slot [] table.

Fixpoint grow (fuel size minused : nat) : nat :=
  match fuel with
  | 0 => size
  | S fuel' => if size <=? minused then grow fuel' (2 * size) minused else size
  end.

(** The size [set_table_resize] gives a table: the first power of two above
    [minused], eight at least. *)
Definition table_size (minused : nat) : nat :=
  grow (S minused) PySet_MINSIZE minused.

Definition set_table_resize (table : list (nat * nat)) (minused : nat)
    : nat * list (nat * nat) :=
  let mask := table_size minused - 1 in
  (mask, foldl (set_insert_clean mask) [] (map snd (by_slot table))).

(** [set_add_entry] of a key that the set, given by its mask and its table,
    does not hold. *)
Definition set_add_entry (so : nat * list (nat * nat)) (key : nat)
    : nat * list (nat * nat) :=
  let mask := so.1 in
  let table := set_insert_clean mask so.2 key in
  let fill := length table in
  if fill * 5 <? mask * 3 then (mask, table)
  else set_table_resize table
         (if 50 * 1000 <? fill then fill * 2 else fill * 4).

(** [set_copy] of a set that holds dummies, as [unvisited] does once the
    start is removed: [set_merge] sizes the new table for the keys and
    inserts them in the order of the old slots. *)
Definition set_copy (keys : list nat) : nat * list (nat * nat) :=
  let used := length keys in
  let mask :=
    if used * 5 <? (PySet_MINSIZE - 1) * 3 then PySet_MINSIZE - 1
    else table_size (used * 2) - 1 in
  (mask, foldl (set_insert_clean mask) [] keys).

Definition slot_of (table : list (nat * nat)) (key : nat) : nat :=
  match find (fun e => e.2 =? key) table with
  | Some e => e.1
  | None => 0
  end.

(** [set_difference] with a set of one member: a copy from which the member
    is discarded when [len(so) >> 2] exceeds one, and otherwise a new set to
    which the other members are added one by one. *)
Definition cpython_iter (unvisited choices : list nat) : list nat :=
  if bool_decide (choices = unvisited) then choices
  else
    let so :=
      if 1 <? Nat.shiftr (length unvisited) 2 then set_copy unvisited
      else foldl set_add_entry (PySet_MINSIZE - 1, []) choices in
    map snd (by_slot (map (fun j => (slot_of so.2 j, j)) choices)).

(** The steps the nearest-neighbour loop has taken: each appended node is
    what [min] returns on the choices of its round. *)
Fixpoint nn_steps (set_iter : list nat -> list nat -> list nat) (cost : Optimizer.ndarray)
    (end_ : option nat) (unvisited : list nat) (current : nat)
    (tl : list nat) : Prop :=
  match tl with
  | [] => unvisited = []
  | x :: tl' =>
      py_min (fun j => Optimizer.at2 cost current j)
             (set_iter unvisited (Optimizer.nn_choices end_ unvisited))
      = Some x
      /\ nn_steps set_iter cost end_ (filter (fun j => j ≠ x) unvisited) x tl'
  end.

(** The unvisited nodes and the choices of the round that extends a path of
    [p + 1] nodes. *)
Definition unvisited_at (cost : Optimizer.ndarray) (path : list nat)
    (p : nat) : list nat :=
  filter (fun j => j ∉ take (S p) path) (range 0 (Optimizer.shape0 cost)).

Definition choices_at (cost : Optimizer.ndarray) (start : Z) (end_ : option Z)
    (path : list nat) (p : nat) : list nat :=
  let n := Optimizer.shape0 cost in
  Optimizer.nn_choices (effective_end n (clamp n start) end_)
                       (unvisited_at cost path p).

(** Index-order tie-breaking, as the specification words it: of the choices
    that cost exactly as much as the chosen node, none has a lower index. *)
Definition lowest_index_tie_break (set_iter : list nat -> list nat -> list nat)
    (cost : Optimizer.ndarray) (start : Z) (end_ : option Z) : Prop :=
  let path := Optimizer.nearest_neighbor_path set_iter cost start end_ in
  forall p cur nxt j,
    path !! p = Some cur -> path !! S p = Some nxt ->
    j ∈ choices_at cost start end_ path p ->
    feq (Optimizer.at2 cost cur j) (Optimizer.at2 cost cur nxt) ->
    nxt <= j.

(** No two legs out of one stop cost exactly the same. *)
Definition no_ties (cost : Optimizer.ndarray) : Prop :=
  forall cur j k,
    cur < Optimizer.shape0 cost ->
    j < Optimizer.shape0 cost -> k < Optimizer.shape0 cost -> j ≠ k ->
    ~ feq (Optimizer.at2 cost cur j) (Optimizer.at2 cost cur k).

(** The days as the packing loop closes them, before stretching: the states
    in which the inner loop of [build_trip_itinerary] ends, one per day. *)
Fixpoint packed_days (fuel : nat) (pace_key : string)
    (seg_map : gmap (Z * Z) Q) (target : Z) (queue : list TripsService.loc)
    (prev : option Z) : list TripsService.packing :=
  match fuel with
  | 0 => []
  | S fuel' =>
      match queue with
      | [] => []
      | _ :: _ =>
          let st :=
            TripsService.pack_day pace_key seg_map target queue [] 0 0 0 prev in
          (if bool_decide (TripsService.current_day_locs st = []) then []
           else [st])
          ++ packed_days fuel' pace_key seg_map target
               (TripsService.temp_locs_queue st) (TripsService.prev_loc_id st)
      end
  end.

(** Travel plus visit minutes of the stops of a day at packing time. *)
Definition unstretched_active (items : list TripsService.item) : Q :=
  TripsService.sumQ
    (map (fun it => (TripsService.item_travel it
                     + TripsService.item_visit it)%Q) items).

(** The number of stops of a list of days. *)
Definition stop_count (days : list TripsService.day) : nat :=
  sum_list (map (fun d => length (TripsService.locations d)) days).

(** All days of an itinerary, region by region. *)
Definition all_days (it : TripsService.itinerary) : list TripsService.day :=
  concat (map snd (TripsService.regions it)).

(** Two stops, three unknown categories apart: ten hours of driving lie
    between stop 1 and stop 2. *)
Definition far_apart : list TripsService.loc :=
  [ {| TripsService.loc_id := 1; TripsService.loc_name := "A";
       TripsService.loc_region := Some "Goa"%string;
       TripsService.loc_category := None |};
    {| TripsService.loc_id := 2; TripsService.loc_name := "B";
       TripsService.loc_region := Some "Goa"%string;
       TripsService.loc_category := None |} ].

Definition far_apart_segments : list TripsService.segment :=
  [ {| TripsService.from_location_id := 1;
       TripsService.to_location_id := 2;
       TripsService.duration_min := Some 600%Q |} ].

(** The packed days of a call of [build_trip_itinerary], and the days they
    become in [days_global] before the equalization. *)
Definition packing_of (all_locs : list TripsService.loc)
    (segments : list TripsService.segment) (pace_ : option string)
    : list TripsService.packing :=
  let pace_key := TripsService.pace_key_of pace_ in
  packed_days (length all_locs) pace_key
    (TripsService.build_seg_map segments)
    (TripsService.day_budget_min pace_key) all_locs None.

Definition built_days (all_locs : list TripsService.loc)
    (segments : list TripsService.segment) (pace_ : option string)
    : list TripsService.day :=
  imap (fun i st =>
          TripsService.finalize_day
            (TripsService.day_budget_min (TripsService.pace_key_of pace_))
            (i + 1) st)
       (packing_of all_locs segments pace_).

(** Target plus tolerance of a pace. *)
Definition ceiling (pace_ : option string) : Q :=
  inject_Z (TripsService.day_budget_min (TripsService.pace_key_of pace_)
            + TripsService.tolerance_min).

(** A raw matrix without negative cell. *)
Definition non_negative (matrix : list (list (option Q))) : Prop :=
  Forall (Forall (fun c : option Q =>
                    match c with
                    | Some q => (0 <= q)%Q
                    | None => True
                    end)) matrix.

(** A pair of soft options for which the selector runs the optimizer: not
    the pair without any option, not twice the same stop, and no clash of
    the resulting start and end. *)
Definition tried (hard_start_idx hard_end_idx s e : option nat) : bool :=
  negb (bool_decide (s = None) && bool_decide (e = None))
  && negb (TripsService.same_index s e)
  && negb (TripsService.same_index (TripsService.or_else hard_start_idx s)
                                   (TripsService.or_else hard_end_idx e)).

(** A row with both coordinates. *)
Definition has_coordinates (r : TripsService.row) : Prop :=
  is_Some (TripsService.latitude r) /\ is_Some (TripsService.longitude r).

(** [days_global] as [build_trip_itinerary] groups it by region: the days
    of the packing loop after the equalization. *)
Definition days_global_of (all_locs : list TripsService.loc)
    (segments : list TripsService.segment) (pace_ : option string)
    : list TripsService.day :=
  let pace_key := TripsService.pace_key_of pace_ in
  let target := TripsService.day_budget_min pace_key in
  TripsService.equalize target
    (TripsService.days_loop (length all_locs) pace_key
       (TripsService.build_seg_map segments) target all_locs None []).

(** The stored leg into each stop from the stop before it in visiting
    order, [0.0] where no segment is stored and into a stop that follows
    [prev = None]. *)
Fixpoint legs_of (seg_map : gmap (Z * Z) Q) (prev : option Z)
    (ids : list Z) : list Q :=
  match ids with
  | [] => []
  | i :: rest =>
      match prev with
      | Some p => default 0%Q (seg_map !! (p, i))
      | None => 0%Q
      end :: legs_of seg_map (Some i) rest
  end.

(** ** osrm.py *)

Module Osrm.

Import TripsService.

(** The body of an answer of the table service once [res.json()] has read
    it: a JSON object whose ['code'] and ['message'] are strings and whose
    ['distances'] and ['durations'] are matrices, each of them present or
    not. *)
Record payload := {
  code : option string;
  message : option string;
  distances : option (list (list (option Q)));
  durations : option (list (list (option Q)))
}.

(** What [requests.get] comes to: a [requests.RequestException] with its
    text, or a response with [res.ok], [res.status_code] and the outcome of
    [res.json()], [None] where that raises the [ValueError]. *)
Inductive response :=
| RequestException (e : string)
| Response (ok : bool) (status_code : nat) (json : option payload).

(** [DEFAULT_OSRM_BASE_URL] *)
Definition DEFAULT_OSRM_BASE_URL : string := "https://router.project-osrm.org".

(** [s.rstrip(c)] for one character *)
Fixpoint rstrip_char (c : ascii) (s : string) : string :=
  match s with
  | String a s' =>
      match rstrip_char c s' with
      | EmptyString => if Ascii.eqb a c then EmptyString else String a EmptyString
      | t => String a t
      end
  | EmptyString => EmptyString
  end.

(** [x or y] on strings that may be [None] *)
Definition str_or (x : option string) (y : string) : string :=
  match x with
  | Some s => if String.eqb s EmptyString then y else s
  | None => y
  end.

(** [s.zfill(width)] on a string of digits *)
Definition zfill (width : nat) (s : string) : string :=
  String.append
    (String.string_of_list_ascii (repeat "0"%char (width - String.length s))) s.

(** [f'{q:.6f}'] *)
Definition format_6f (q : Q) : string :=
  let n := py_round ((if Qltb q 0 then - q else q) * 1000000) in
  String.append (if Qltb q 0 then "-" else EmptyString)
    (String.append (pretty (n / 1000000)%Z)
       (String.append "." (zfill 6 (pretty (n mod 1000000)%Z)))).

Definition _format_coords (coords : list (Q * Q)) : string :=
  String.concat ";"
    (map (fun lon_lat : Q * Q =>
            String.append (format_6f lon_lat.1)
              (String.append "," (format_6f lon_lat.2)))
         coords).

Section WithNetwork.

(** [os.getenv('OSRM_BASE_URL')] *)
Variable OSRM_BASE_URL : option string.

(** [requests.get(url, params={'annotations': annotations}, timeout=...)] *)
Variable requests_get : string -> string -> response.

Definition _osrm_base_url : string :=
  rstrip_char "/" (str_or OSRM_BASE_URL DEFAULT_OSRM_BASE_URL).

Definition fetch_table_matrix (coordinates : list (Q * Q))
    (profile annotations : string) : result OsrmTableResult :=
  match coordinates with
  | [] => Ok {| distances_m := []; durations_s := [] |}
  | [_] => Ok {| distances_m := [[Some 0%Q]]; durations_s := [[Some 0%Q]] |}
  | _ =>
      if 100 <? length coordinates
      then Raise (ValueError "Too many coordinates for OSRM table (max 100).")
      else
        let coords_str := _format_coords coordinates in
        let url :=
          String.append _osrm_base_url
            (String.append "/table/v1/"
               (String.append profile (String.append "/" coords_str))) in
        match requests_get url annotations with
        | RequestException e =>
            Raise (RuntimeError (String.append "OSRM request failed: " e))
        | Response ok status_code json =>
            if negb ok
            then Raise (RuntimeError (String.append "OSRM error: HTTP "
                                                    (pretty status_code)))
            else
              match json with
              | None => Raise (RuntimeError "OSRM returned non-JSON response")
              | Some payload_ =>
                  if negb (bool_decide (code payload_ = Some "Ok"%string))
                  then
                    let msg :=
                      str_or (message payload_)
                             (str_or (code payload_) "Unknown error") in
                    Raise (RuntimeError (String.append "OSRM error: " msg))
                  else
                    match distances payload_, durations payload_ with
                    | Some distances_, Some durations_ =>
                        Ok {| distances_m := distances_;
                              durations_s := durations_ |}
                    | _, _ =>
                        Raise (RuntimeError
                                 "OSRM table response missing distances/durations")
                    end
              end
        end
  end.

End WithNetwork.

End Osrm.

(** ** trips_service.py: the region constraint *)

Module RegionConstraint.

(** The row of [locations] that [enforce_region_constraint] reads. *)
Record loc_info_row := {
  info_locality : option string;
  info_region : option string
}.

(** [str(x)] for a string that may be [None] *)
Definition str_of (x : option string) : string :=
  match x with
  | Some s => s
  | None => "None"
  end.

Section WithSimilarity.

(** [SequenceMatcher(None, a, b).ratio() > 0.8] *)
Variable similar : string -> string -> bool.

(** The body of the loop over the allowed regions: the four tests that set
    [match_found]. *)
Definition region_test (loc_region loc_locality ar : string) : bool :=
  (negb (String.eqb loc_region EmptyString)
   && (contains ar loc_region || contains loc_region ar))
  || (negb (String.eqb loc_region EmptyString) && similar ar loc_region)
  || (negb (String.eqb loc_locality EmptyString)
      && (contains ar loc_locality || contains loc_locality ar))
  || (negb (String.eqb loc_locality EmptyString) && similar ar loc_locality).

(** [enforce_region_constraint]: [trip_regions] are the region names of the
    trip as the query returns them, [loc_info] is the row of the location if
    there is one. *)
Definition enforce_region_constraint (trip_regions : list string)
    (loc_info : option loc_info_row) : bool * option string :=
  let allowed_regions := map py_lower trip_regions in
  match loc_info with
  | None => (true, None)
  | Some info =>
      let loc_region := py_lower (default EmptyString (info_region info)) in
      let loc_locality :=
        py_lower (default EmptyString (info_locality info)) in
      match allowed_regions with
      | [] => (true, None)
      | _ :: _ =>
          if existsb (region_test loc_region loc_locality) allowed_regions
          then (true, None)
          else
            let r_str := String.concat ", " trip_regions in
            (false,
             Some (String.append "Location is in "
                     (String (Ascii.ascii_of_nat 34)
                        (String.append (str_of (info_region info))
                           (String (Ascii.ascii_of_nat 34)
                              (String.append ", but trip is limited to: "
                                             r_str))))))
      end
  end.

End WithSimilarity.

End RegionConstraint.

(** ** trips_service.py: the writes to the database *)

Module TripsServiceDb.

Import Optimizer TripsService.

(** The exceptions of the service: the two that [optimize_trip_route] raises
    for the trip itself, and those of [exn]. *)
Inductive error :=
| LookupError (msg : string)
| PermissionError (msg : string)
| Exn (e : exn).

(** The statements handed to [execute_db], which commits each one as it
    runs, with their arguments. *)
Inductive statement :=
| UpdateVisitOrder (visit_order : nat) (trip_id location_id : Z)
| UpdateRoutePlan (optimized_order_json : list Z)
    (total_distance_km total_duration_min : option Q) (plan_id : Z)
| InsertRoutePlan (trip_id : Z) (region : string)
    (optimized_order_json : list Z)
    (total_distance_km total_duration_min : option Q)
| DeleteRouteSegments (trip_id : Z) (region : string)
| InsertRouteSegment (trip_id : Z) (region : string)
    (from_location_id to_location_id : Z) (distance_km duration_min : Q)
| FinalizeTrip (trip_id user_id : Z)
| ConfirmSelected (trip_id : Z)
| DeleteSuggested (trip_id : Z).

Inductive outcome (A : Type) :=
| Returned (a : A)
| Raised (e : error).

Arguments Returned {A} a.
Arguments Raised {A} e.

(** A run of code that writes to the database: the statements executed, in
    order, and how the run ended. The statements of a run that raises stay
    executed. *)
Record db (A : Type) := Run {
  executed : list statement;
  outcome_of : outcome A
}.

Arguments Run {A} executed outcome_of.
Arguments executed {A} d.
Arguments outcome_of {A} d.

Definition db_bind {A B : Type} (k : A -> db B) (m : db A) : db B :=
  match outcome_of m with
  | Returned a =>
      Run (executed m ++ executed (k a)) (outcome_of (k a))
  | Raised e => Run (executed m) (Raised e)
  end.

#[global] Instance db_mbind : MBind db := @db_bind.

Definition unit_ {A : Type} (a : A) : db A := Run [] (Returned a).

Definition raise {A : Type} (e : error) : db A := Run [] (Raised e).

(** [execute_db]: the statement is executed and committed; the database is
    taken to accept it. What the queries of [query_db] find is an argument
    of the function that asks. *)
Definition execute_db (s : statement) : db unit := Run [s] (Returned tt).

(** Code that does not write. *)
Definition lift {A : Type} (r : result A) : db A :=
  match r with
  | Ok a => unit_ a
  | Raise e => raise (Exn e)
  end.

(** [try: ... except Exception: pass] *)
Definition swallow {A : Type} (m : db A) : db unit :=
  Run (executed m) (Returned tt).

(** The row of [trips] that [optimize_trip_route] reads. *)
Record trip_row := {
  trip_status : option string;
  preferences : trip
}.

(** [(trip.get('trip_status') or 'draft') == 'finalized'] *)
Definition is_finalized (t : trip_row) : bool :=
  match trip_status t with
  | Some s => String.eqb s "finalized"
  | None => false
  end.

(** The totals loop of [_store_route_snapshot]: a leg with a missing cell
    counts for nothing. *)
Fixpoint snapshot_totals (distances_m durations_s : list (list (option Q)))
    (edges : list (nat * nat)) (dist_m dur_s : Q) : result (Q * Q) :=
  match edges with
  | [] => Ok (dist_m, dur_s)
  | (a, b) :: edges' =>
      d ← cell distances_m a b;
      t ← cell durations_s a b;
      let dt :=
        match d, t with
        | Some d, Some t => (d, t)
        | _, _ => (0%Q, 0%Q)
        end in
      snapshot_totals distances_m durations_s edges'
                      (dist_m + dt.1)%Q (dur_s + dt.2)%Q
  end.

(** The loop that inserts the segments, over
    [zip(ordered_location_ids, ordered_location_ids[1:], order_indices,
    order_indices[1:])]. *)
Fixpoint insert_segments (trip_id : Z) (region : string)
    (distances_m durations_s : list (list (option Q)))
    (legs : list ((Z * Z) * (nat * nat))) : db unit :=
  match legs with
  | [] => unit_ tt
  | ((from_loc, to_loc), (a, b)) :: legs' =>
      d ← lift (cell distances_m a b);
      t ← lift (cell durations_s a b);
      _ ← match d, t with
          | Some d, Some t =>
              execute_db (InsertRouteSegment trip_id region from_loc to_loc
                            (fdiv_double d 1000) (fdiv_double t 60))
          | _, _ => unit_ tt
          end;
      insert_segments trip_id region distances_m durations_s legs'
  end.

(** [_store_route_snapshot]; [existing] is the row of [trip_route_plan]
    that its query finds, by its [plan_id]. *)
Definition _store_route_snapshot (existing : option Z) (trip_id : Z)
    (region : string) (ordered_location_ids : list Z)
    (distances_m durations_s : list (list (option Q)))
    (order_indices : option (list nat)) : db unit :=
  totals ← lift
    match order_indices with
    | Some idx =>
        if 1 <? length idx
        then
          dt ← snapshot_totals distances_m durations_s
                 (zip idx (tail idx)) 0 0;
          Ok (Some (fdiv_double dt.1 1000)%Q, Some (fdiv_double dt.2 60)%Q)
        else Ok (None, None)
    | None => Ok (None, None)
    end;
  _ ← execute_db
        match existing with
        | Some plan_id =>
            UpdateRoutePlan ordered_location_ids totals.1 totals.2 plan_id
        | None =>
            InsertRoutePlan trip_id region ordered_location_ids
                            totals.1 totals.2
        end;
  _ ← execute_db (DeleteRouteSegments trip_id region);
  match order_indices with
  | Some idx =>
      if length idx <=? 1 then unit_ tt
      else
        insert_segments trip_id region distances_m durations_s
          (zip (zip ordered_location_ids (tail ordered_location_ids))
               (zip idx (tail idx)))
  | None => unit_ tt
  end.

(** The loop that persists [visit_order], counting from [idx]. *)
Fixpoint update_visit_orders (trip_id : Z) (idx : nat)
    (ordered_location_ids : list Z) : db unit :=
  match ordered_location_ids with
  | [] => unit_ tt
  | loc_id :: rest =>
      _ ← execute_db (UpdateVisitOrder idx trip_id loc_id);
      update_visit_orders trip_id (S idx) rest
  end.

Section WithCollaborators.

Variable set_iter : list nat -> list nat -> list nat.
Variable similar : string -> string -> bool.
Variable fetch_table_matrix : list (Q * Q) -> result OsrmTableResult.

(** [optimize_trip_route] with its reads and writes: [trip_] is the row of
    the trip for this user if there is one, [rows] are the selected and
    confirmed stops in visit order, [existing] is the stored plan of the
    trip. *)
Definition optimize_trip_route (trip_ : option trip_row) (rows : list row)
    (existing : option Z) (trip_id : Z)
    (start_location_id end_location_id : anchor_id) : db route_response :=
  match trip_ with
  | None => raise (LookupError "Trip not found")
  | Some trip_ =>
      if is_finalized trip_ then raise (PermissionError "Trip is finalized")
      else if length rows <=? 1
      then
        let location_ids := map location_id rows in
        _ ← _store_route_snapshot existing trip_id "ALL" location_ids
              [] [] None;
        unit_ {| optimized_order := location_ids;
                 total_distance_km := 0;
                 total_duration_min := 0;
                 total_locations := length rows |}
      else
        coordinates ← lift (coordinates_of rows);
        table ← lift (fetch_table_matrix coordinates);
        let index := id_to_index rows in
        let hard_start_idx := resolve_anchor index start_location_id in
        let hard_end_idx := resolve_anchor index end_location_id in
        let hard_end_idx :=
          if same_index hard_start_idx hard_end_idx then None
          else hard_end_idx in
        let start_pref :=
          py_strip (default EmptyString (start_region (preferences trip_))) in
        let end_pref :=
          py_strip (default EmptyString (end_region (preferences trip_))) in
        let start_candidates :=
          if negb (String.eqb start_pref EmptyString)
             && bool_decide (hard_start_idx = None)
          then matching_rows similar start_pref rows else [] in
        let end_candidates :=
          if negb (String.eqb end_pref EmptyString)
             && bool_decide (hard_end_idx = None)
          then matching_rows similar end_pref rows else [] in
        result_ ← lift (select_route set_iter (durations_s table)
                          hard_start_idx hard_end_idx
                          start_candidates end_candidates);
        ordered_location_ids ←
          lift (ordered_location_ids_of rows (order result_));
        _ ← update_visit_orders trip_id 1 ordered_location_ids;
        totals ← lift (path_totals table
                         (zip (order result_) (tail (order result_))) 0 0);
        _ ← _store_route_snapshot existing trip_id "ALL"
              ordered_location_ids (distances_m table) (durations_s table)
              (Some (order result_));
        unit_ {| optimized_order := ordered_location_ids;
                 total_distance_km := py_round_to (fdiv_double totals.1 1000) 3;
                 total_duration_min := py_round_to (fdiv_double totals.2 60) 1;
                 total_locations := length rows |}
  end.

(** [finalize_trip] *)
Definition finalize_trip (trip_id user_id : Z) : db unit :=
  _ ← execute_db (FinalizeTrip trip_id user_id);
  _ ← execute_db (ConfirmSelected trip_id);
  execute_db (DeleteSuggested trip_id).

End WithCollaborators.

End TripsServiceDb.

(** ** api.py: the handlers of the optimize and finalize operations *)

Module Api.

Import TripsService TripsServiceDb.

(** The JSON body of an answer: [{'success': True, **result}], or
    [{'success': ..., 'message': ...}]. *)
Inductive body :=
| Result (result_ : route_response)
| Message (success : bool) (message : string).

(** The [except] clauses of [optimize_trip], in their order; an [IndexError]
    is a [LookupError]. *)
Definition on_error (e : error) : body * nat :=
  match e with
  | LookupError _ => (Message false "Trip not found", 404)
  | Exn (IndexError _) => (Message false "Trip not found", 404)
  | PermissionError msg => (Message false msg, 409)
  | Exn (ValueError msg) => (Message false msg, 400)
  | Exn (RuntimeError msg) => (Message false msg, 502)
  end.

Section WithCollaborators.

Variable set_iter : list nat -> list nat -> list nat.
Variable similar : string -> string -> bool.
Variable fetch_table_matrix : list (Q * Q) -> result OsrmTableResult.

(** [optimize_trip]: the handler reads the trip of the user, and the
    service reads it again. *)
Definition optimize_trip (trip_ : option trip_row) (rows : list row)
    (existing : option Z) (trip_id : Z)
    (start_location_id end_location_id : anchor_id) : db (body * nat) :=
  match trip_ with
  | None => unit_ (Message false "Trip not found", 404)
  | Some t =>
      if is_finalized t
      then unit_ (Message false "Trip is finalized and cannot be optimized",
                  409)
      else
        let run :=
          TripsServiceDb.optimize_trip_route set_iter similar
            fetch_table_matrix trip_ rows existing trip_id
            start_location_id end_location_id in
        Run (executed run)
            (Returned
               match outcome_of run with
               | Returned result_ => (Result result_, 200)
               | Raised e => on_error e
               end)
  end.

(** [finalize_trip]: [trip_id] is the id in the request, [None] when it is
    missing; the plan that [get_trip_route_plan] looks for is the row
    [existing] that [_store_route_snapshot] looks for. *)
Definition finalize_trip (trip_id : option Z) (user_id : Z)
    (trip_ : option trip_row) (rows : list row) (existing : option Z)
    : db (body * nat) :=
  match trip_id with
  | None => unit_ (Message false "trip_id is required", 400)
  | Some trip_id =>
      if Z.eqb trip_id 0 then unit_ (Message false "trip_id is required", 400)
      else
        match trip_ with
        | None => unit_ (Message false "Trip not found", 404)
        | Some _ =>
            _ ← swallow
                  match existing with
                  | None =>
                      _ ← TripsServiceDb.optimize_trip_route set_iter similar
                            fetch_table_matrix trip_ rows existing trip_id
                            IdNone IdNone;
                      unit_ tt
                  | Some _ => unit_ tt
                  end;
            _ ← TripsServiceDb.finalize_trip trip_id user_id;
            unit_ (Message true "Trip finalized successfully", 200)
        end
  end.

End WithCollaborators.

End Api.

(** ** Auxiliary notions for the writes *)

(** The statements that persist the visit order [1, 2, ...] of [ids]. *)
Definition visit_order_updates (trip_id : Z) (ids : list Z)
    : list TripsServiceDb.statement :=
  imap (fun i id => TripsServiceDb.UpdateVisitOrder (S i) trip_id id) ids.

(** The statement that stores the plan of a trip: an update of the row
    [existing] or, without one, an insertion. *)
Definition plan_statement (existing : option Z) (trip_id : Z)
    (ids : list Z) (total_distance_km total_duration_min : option Q)
    : TripsServiceDb.statement :=
  match existing with
  | Some plan_id =>
      TripsServiceDb.UpdateRoutePlan ids total_distance_km total_duration_min
                                     plan_id
  | None =>
      TripsServiceDb.InsertRoutePlan trip_id "ALL" ids total_distance_km
                                     total_duration_min
  end.

(** The legs of a route: the ids and the matrix indices of each stop and
    the next. *)
Definition route_legs (ids : list Z) (idx : list nat)
    : list ((Z * Z) * (nat * nat)) :=
  zip (zip ids (tail ids)) (zip idx (tail idx)).

(** The segment stored for a leg whose distance and duration the table
    holds: kilometres and minutes. *)
Definition segment_of (trip_id : Z) (table : TripsService.OsrmTableResult)
    (leg : (Z * Z) * (nat * nat)) : option TripsServiceDb.statement :=
  match TripsService.cell (TripsService.distances_m table) leg.2.1 leg.2.2,
        TripsService.cell (TripsService.durations_s table) leg.2.1 leg.2.2
  with
  | Ok (Some d), Ok (Some t) =>
      Some (TripsServiceDb.InsertRouteSegment trip_id "ALL" leg.1.1 leg.1.2
              (fdiv_double d 1000) (fdiv_double t 60))
  | _, _ => None
  end.

(** [fetch_table_matrix(coordinates=coordinates)], as the service calls the
    table client. *)
Definition provider (OSRM_BASE_URL : option string)
    (requests_get : string -> string -> Osrm.response)
    (coordinates : list (Q * Q)) : result TripsService.OsrmTableResult :=
  Osrm.fetch_table_matrix OSRM_BASE_URL requests_get coordinates
    "driving" "distance,duration".

(** A draft trip without region preferences, and a provider that knows the
    durations of [matrix4] but no distance. *)
Definition draft4 : TripsServiceDb.trip_row :=
  {| TripsServiceDb.trip_status := Some "draft"%string;
     TripsServiceDb.preferences := no_preference |}.

Definition fetch4_no_distance (coordinates : list (Q * Q))
    : result TripsService.OsrmTableResult :=
  Ok {| TripsService.distances_m := map (map (fun _ => None)) matrix4;
        TripsService.durations_s := matrix4 |}.

(** The address that [fetch_table_matrix] asks for the table of
    [coordinates] with the driving profile. *)
Definition table_url (OSRM_BASE_URL : option string)
    (coordinates : list (Q * Q)) : string :=
  String.append (Osrm._osrm_base_url OSRM_BASE_URL)
    (String.append "/table/v1/"
       (String.append "driving"
          (String.append "/" (Osrm._format_coords coordinates)))).

(** An answer of the table service that [fetch_table_matrix] accepts: the
    response is ok, its body is JSON, its code is ['Ok'] and both matrices
    are there. *)
Definition good_answer (res : Osrm.response) : bool :=
  match res with
  | Osrm.Response true _ (Some p) =>
      bool_decide (Osrm.code p = Some "Ok"%string)
      && bool_decide (is_Some (Osrm.distances p))
      && bool_decide (is_Some (Osrm.durations p))
  | _ => false
  end.

(** A hundred and one stops at one place, and a network that is down. *)
Definition rows101 : list TripsService.row :=
  map (fun i => {| TripsService.location_id := Z.of_nat i;
                   TripsService.locality := None;
                   TripsService.region := None;
                   TripsService.latitude := Some 1%Q;
                   TripsService.longitude := Some 1%Q |})
      (seq 0 101).

Definition network_down (url annotations : string) : Osrm.response :=
  Osrm.RequestException "connection refused".

(** Two stops: 100 seconds from the first to the second, and the double
    112.00000000000001 back. *)
Definition just_above_ceiling : list (list (option Q)) :=
  [[Some 0%Q; Some 100%Q];
   [Some (7881299347898369 # 70368744177664)%Q; Some 0%Q]].

(** * Properties *)

Import Optimizer.

(** ** Order on the float model *)

Lemma fltb_flt a b : fltb a b = true <-> flt a b.
Proof.
  destruct a as [x|], b as [y|]; simpl.
  - rewrite negb_true_iff. split.
    + intros H. apply Qnot_le_lt. intros Hle.
      apply Qle_bool_iff in Hle. congruence.
    + intros H. destruct (Qle_bool y x) eqn:E; [|done].
      apply Qle_bool_iff in E. exfalso. eapply Qlt_not_le; eauto.
  - done.
  - split; [discriminate|done].
  - split; [discriminate|done].
Qed.

Lemma fltb_false_fle a b : fltb a b = false -> fle b a.
Proof.
  destruct a as [x|], b as [y|]; simpl; try done.
  rewrite negb_false_iff. apply Qle_bool_iff.
Qed.

Lemma fle_refl a : fle a a.
Proof. destruct a; simpl; [apply Qle_refl|done]. Qed.

Lemma fle_trans a b c : fle a b -> fle b c -> fle a c.
Proof.
  destruct a, b, c; simpl; try done. apply Qle_trans.
Qed.

Lemma flt_fle a b : flt a b -> fle a b.
Proof. destruct a, b; simpl; try done. apply Qlt_le_weak. Qed.

Lemma flt_fle_trans a b c : flt a b -> fle b c -> flt a c.
Proof. destruct a, b, c; simpl; try done. apply Qlt_le_trans. Qed.

Lemma flt_irrefl a : ~ flt a a.
Proof. destruct a; simpl; [apply Qlt_irrefl|tauto]. Qed.

Lemma flt_add_eps a b : flt (fadd a (Fin eps)) b -> flt a b.
Proof.
  destruct a as [x|], b as [y|]; simpl; try done.
  unfold eps. intros H. lra.
Qed.

(** ** The builtins *)

Lemma range_elem a b i : i ∈ range a b <-> a <= i < b.
Proof. unfold range. rewrite elem_of_seq. lia. Qed.

Lemma range_0 n : range 0 n = seq 0 n.
Proof. unfold range. by rewrite Nat.sub_0_r. Qed.

Lemma min_from_elem {A} (key : A -> float) l best :
  min_from key best l ∈ best :: l.
Proof.
  revert best. induction l as [|x l IH]; intros best; simpl.
  - left.
  - specialize (IH (if fltb (key x) (key best) then x else best)).
    apply elem_of_cons in IH as [->|IH].
    + destruct (fltb (key x) (key best)); [right; left | left].
    + do 2 right. done.
Qed.

Lemma py_min_elem {A} (key : A -> float) l x :
  py_min key l = Some x -> x ∈ l.
Proof.
  destruct l as [|y l]; simpl; [done|].
  intros [= <-]. apply min_from_elem.
Qed.

Lemma py_min_is_Some {A} (key : A -> float) l :
  l ≠ [] -> is_Some (py_min key l).
Proof. destruct l; [done|]. intros _. by eexists. Qed.

Lemma min_from_le {A} (key : A -> float) l best :
  Forall (fun y => fle (key (min_from key best l)) (key y)) (best :: l).
Proof.
  revert best. induction l as [|x l IH]; intros best; simpl.
  - constructor; [apply fle_refl|constructor].
  - specialize (IH (if fltb (key x) (key best) then x else best)).
    apply Forall_cons in IH as [Hb Hl].
    destruct (fltb (key x) (key best)) eqn:E.
    + constructor; [|by constructor].
      eapply fle_trans; [exact Hb|]. apply flt_fle. by apply fltb_flt.
    + constructor; [done|]. constructor; [|done].
      eapply fle_trans; [exact Hb|]. by apply fltb_false_fle.
Qed.

Lemma py_min_le {A} (key : A -> float) l x :
  py_min key l = Some x -> Forall (fun y => fle (key x) (key y)) l.
Proof.
  destruct l as [|y l]; simpl; [done|].
  intros [= <-]. apply min_from_le.
Qed.

(** ** Nearest neighbour *)

Lemma filter_ne_notin (x : nat) (l : list nat) :
  x ∉ l -> filter (fun j => j ≠ x) l = l.
Proof.
  induction l as [|y l IH]; intros Hx; [done|].
  apply not_elem_of_cons in Hx as [Hne Hx].
  rewrite filter_cons_True by congruence. by rewrite IH.
Qed.

Lemma filter_all (P : nat -> Prop) `{!forall x, Decision (P x)}
    (l : list nat) :
  (forall x, P x) -> filter P l = l.
Proof.
  intros HP. induction l as [|y l IH]; [done|].
  rewrite filter_cons_True by done. by rewrite IH.
Qed.

Lemma filter_ne_perm (x : nat) (l : list nat) :
  NoDup l -> x ∈ l -> l ≡ₚ x :: filter (fun j => j ≠ x) l.
Proof.
  induction 1 as [|y l Hy Hnd IH]; intros Hx.
  - by apply elem_of_nil in Hx.
  - destruct (decide (y = x)) as [->|Hne].
    + rewrite filter_cons_False by (intros ?; done).
      by rewrite filter_ne_notin.
    + rewrite filter_cons_True by done.
      apply elem_of_cons in Hx as [->|Hx]; [done|].
      rewrite (IH Hx) at 1. apply Permutation_swap.
Qed.

Lemma filter_ne_length (x : nat) (l : list nat) :
  NoDup l -> x ∈ l -> length l = S (length (filter (fun j => j ≠ x) l)).
Proof. intros Hnd Hx. by rewrite (filter_ne_perm x l Hnd Hx) at 1. Qed.

Lemma nn_choices_subset end_ unvisited j :
  j ∈ nn_choices end_ unvisited -> j ∈ unvisited.
Proof.
  unfold nn_choices. destruct end_ as [e|]; [|done].
  case_match; [|done]. rewrite list_elem_of_filter. tauto.
Qed.

Lemma nn_choices_nonempty end_ unvisited :
  NoDup unvisited -> unvisited ≠ [] -> nn_choices end_ unvisited ≠ [].
Proof.
  intros Hnd Hne. unfold nn_choices. destruct end_ as [e|]; [|done].
  case_match eqn:E; [|done].
  apply andb_true_iff in E as [He Hlen].
  apply bool_decide_eq_true in He. apply Nat.ltb_lt in Hlen.
  rewrite (filter_ne_length e unvisited Hnd He) in Hlen.
  intros Hnil. rewrite Hnil in Hlen. simpl in Hlen. lia.
Qed.

(** While another node is left, the fixed end is no choice. *)
Lemma nn_choices_withhold e unvisited :
  e ∈ unvisited -> 1 < length unvisited ->
  e ∉ nn_choices (Some e) unvisited.
Proof.
  intros He Hlen. unfold nn_choices.
  rewrite bool_decide_eq_true_2 by done.
  apply Nat.ltb_lt in Hlen. rewrite Hlen. simpl.
  rewrite list_elem_of_filter. tauto.
Qed.

Section SetOrder.

Variable set_iter : list nat -> list nat -> list nat.
Hypothesis set_iter_perm : forall u c, set_iter u c ≡ₚ c.

Lemma set_iter_elem u l j : j ∈ set_iter u l <-> j ∈ l.
Proof. by rewrite set_iter_perm. Qed.

Lemma set_iter_nonempty u l : l ≠ [] -> set_iter u l ≠ [].
Proof.
  intros Hne Hnil. apply Hne. apply Permutation_nil_r.
  rewrite <- Hnil. symmetry. apply set_iter_perm.
Qed.

(** The loop appends the unvisited nodes, each once, the fixed end last. *)
Lemma nn_loop_spec fuel cost end_ unvisited order current :
  NoDup unvisited -> length unvisited <= fuel ->
  exists tl,
    nn_loop set_iter fuel cost end_ unvisited order current = order ++ tl
    /\ tl ≡ₚ unvisited
    /\ (forall e, end_ = Some e -> e ∈ unvisited -> last tl = Some e).
Proof.
  revert unvisited order current.
  induction fuel as [|fuel IH]; intros unvisited order current Hnd Hlen.
  - destruct unvisited; [|simpl in Hlen; lia].
    exists []. simpl. rewrite app_nil_r. split_and!; [done..|].
    intros e _ He. by apply elem_of_nil in He.
  - simpl. destruct unvisited as [|u us] eqn:Eu.
    { exists []. rewrite app_nil_r. split_and!; [done..|].
      intros e _ He. by apply elem_of_nil in He. }
    rewrite <- Eu in *.
    assert (Hne : unvisited ≠ []) by (rewrite Eu; done).
    pose proof (nn_choices_nonempty end_ unvisited Hnd Hne) as Hch.
    apply (set_iter_nonempty unvisited) in Hch.
    destruct (py_min_is_Some (fun j => at2 cost current j) _ Hch)
      as [next_node Hmin].
    rewrite Hmin.
    pose proof (py_min_elem _ _ _ Hmin) as Hin.
    apply (proj1 (set_iter_elem _ _ _)) in Hin.
    pose proof (nn_choices_subset _ _ _ Hin) as Hin'.
    pose proof (filter_ne_perm next_node unvisited Hnd Hin') as Hperm.
    pose proof (filter_ne_length next_node unvisited Hnd Hin') as Hl.
    destruct (IH (filter (fun j => j ≠ next_node) unvisited)
                 (order ++ [next_node]) next_node)
      as (tl & Heq & Htl & Hend).
    { by apply NoDup_filter. }
    { lia. }
    exists (next_node :: tl). rewrite Heq, <- app_assoc. simpl.
    split_and!; [done| by rewrite Hperm, Htl |].
    intros e -> He.
    destruct (decide (1 < length unvisited)) as [Hgt|Hle].
    + pose proof (nn_choices_withhold e unvisited He Hgt) as Hno.
      assert (next_node ≠ e) by (intros ->; done).
      rewrite last_cons. rewrite (Hend e eq_refl); [done|].
      apply list_elem_of_filter. split; [congruence|done].
    + assert (length (filter (fun j => j ≠ next_node) unvisited) = 0) as Hz
        by lia.
      apply nil_length_inv in Hz. rewrite Hz in Htl.
      apply Permutation_nil_r in Htl. subst tl.
      rewrite Hz in Hperm. simpl.
      rewrite Hperm in He. apply list_elem_of_singleton in He. by subst.
Qed.

Lemma clamp_lt n x : 0 < n -> clamp n x < n.
Proof. unfold clamp. lia. Qed.

Lemma clamp_of_nat n i : i < n -> clamp n (Z.of_nat i) = i.
Proof. unfold clamp. lia. Qed.

(** The path starts at the clamped start, visits every index once and ends
    at the clamped end when that differs from the start. *)
Lemma nearest_neighbor_path_spec cost start end_ :
  0 < shape0 cost ->
  exists tl,
    nearest_neighbor_path set_iter cost start end_
      = clamp (shape0 cost) start :: tl
    /\ clamp (shape0 cost) start :: tl ≡ₚ seq 0 (shape0 cost)
    /\ (forall e, end_ = Some e ->
          clamp (shape0 cost) e ≠ clamp (shape0 cost) start ->
          last tl = Some (clamp (shape0 cost) e)).
Proof.
  intros Hn. unfold nearest_neighbor_path.
  destruct (Nat.eqb_spec (shape0 cost) 0) as [|_]; [lia|].
  set (n := shape0 cost) in *. set (s := clamp n start).
  assert (Hs : s ∈ range 0 n).
  { apply range_elem. split; [lia|]. by apply clamp_lt. }
  assert (Hnd : NoDup (range 0 n)) by apply NoDup_seq.
  match goal with |- context [nn_loop _ _ _ ?e ?u _ _] =>
    destruct (nn_loop_spec (length u) cost e u [s] s) as (tl & Heq & Htl & Hend)
  end.
  { by apply NoDup_filter. }
  { done. }
  exists tl. simpl in Heq. split_and!; [done| |].
  - rewrite Htl, <- filter_ne_perm by done. by rewrite range_0.
  - intros e -> Hne. apply (Hend (clamp n e)).
    + destruct (Nat.eqb_spec (clamp n e) s); [done|done].
    + apply list_elem_of_filter. split; [done|].
      apply range_elem. split; [lia|]. by apply clamp_lt.
Qed.

End SetOrder.

(** ** 2-Opt *)

Lemma reverse_segment_split (best : list nat) i k :
  i <= k + 1 ->
  best = take i best ++ take (k + 1 - i) (drop i best) ++ drop (k + 1) best.
Proof.
  intros Hik.
  replace (drop (k + 1) best) with (drop (k + 1 - i) (drop i best)).
  - by rewrite take_drop, take_drop.
  - rewrite drop_drop. f_equal. lia.
Qed.

Lemma reverse_segment_perm best i k :
  i <= k + 1 -> reverse_segment best i k ≡ₚ best.
Proof.
  intros Hik. rewrite (reverse_segment_split best i k Hik) at 2.
  unfold reverse_segment. by rewrite reverse_Permutation.
Qed.

Lemma reverse_segment_length best i k :
  i <= k + 1 -> length (reverse_segment best i k) = length best.
Proof. intros Hik. by rewrite reverse_segment_perm. Qed.

(** Position 0 lies outside a segment that begins at [i >= 1]. *)
Lemma reverse_segment_head best i k :
  1 <= i -> head (reverse_segment best i k) = head best.
Proof.
  intros Hi. unfold reverse_segment.
  destruct i as [|i]; [lia|]. destruct best as [|x best]; [|done].
  by rewrite take_nil, !drop_nil, take_nil.
Qed.

(** The last position lies outside a segment that stops at [k < n - 1]. *)
Lemma reverse_segment_last best i k :
  k + 1 < length best -> last (reverse_segment best i k) = last best.
Proof.
  intros Hk. unfold reverse_segment.
  assert (exists x, last (drop (k + 1) best) = Some x) as [x Hx].
  { destruct (drop (k + 1) best) as [|y l] eqn:E.
    - apply (f_equal length) in E. rewrite length_drop in E. simpl in E. lia.
    - destruct (last (y :: l)) as [x|] eqn:El; [by eexists|].
      by apply last_None in El. }
  rewrite !last_app, Hx.
  rewrite <- (take_drop (k + 1) best) at 1. by rewrite last_app, Hx.
Qed.

Lemma scan_k_spec cost best best_cost i ks candidate cand_cost :
  scan_k cost best best_cost i ks = Some (candidate, cand_cost) ->
  exists k, k ∈ ks /\ i < k
    /\ candidate = reverse_segment best i k
    /\ cand_cost = path_cost cost candidate
    /\ flt (fadd cand_cost (Fin eps)) best_cost.
Proof.
  induction ks as [|k ks IH]; simpl; [done|].
  destruct (Nat.ltb_spec (k - i) 1) as [Hlt|Hge].
  - intros H. destruct (IH H) as (k' & ? & ?). exists k'. split; [by right|done].
  - destruct (fltb _ best_cost) eqn:E.
    + intros [= <- <-]. exists k. split_and!; [by left|lia|done|done|].
      by apply fltb_flt.
    + intros H. destruct (IH H) as (k' & ? & ?).
      exists k'. split; [by right|done].
Qed.

Lemma scan_i_spec cost best best_cost n idxs candidate cand_cost :
  scan_i cost best best_cost n idxs = Some (candidate, cand_cost) ->
  exists i k, i ∈ idxs /\ i < k < n - 1
    /\ candidate = reverse_segment best i k
    /\ cand_cost = path_cost cost candidate
    /\ flt (fadd cand_cost (Fin eps)) best_cost.
Proof.
  induction idxs as [|i idxs IH]; simpl; [done|].
  destruct (scan_k cost best best_cost i (range (i + 1) (n - 1)))
    as [[c cc]|] eqn:E.
  - intros [= <- <-]. apply scan_k_spec in E as (k & Hk & Hik & Hrest).
    apply range_elem in Hk. exists i, k.
    split; [by left|]. split; [lia|done].
  - intros H. destruct (IH H) as (i' & k & ? & ?).
    exists i', k. split; [by right|done].
Qed.

(** Whatever holds of the seed and survives every accepted move holds of
    the refined path. *)
Lemma two_opt_loop_ind (P : list nat -> float -> Prop) cost start_i n :
  (forall best best_cost i k,
      P best best_cost -> start_i <= i -> i < k < n - 1 ->
      flt (fadd (path_cost cost (reverse_segment best i k)) (Fin eps))
          best_cost ->
      P (reverse_segment best i k)
        (path_cost cost (reverse_segment best i k))) ->
  forall fuel best best_cost,
    P best best_cost ->
    exists c, P (two_opt_loop fuel cost best best_cost start_i n) c.
Proof.
  intros Hstep. induction fuel as [|fuel IH]; intros best best_cost HP; simpl.
  - by exists best_cost.
  - destruct (scan_i cost best best_cost n (range start_i (n - 2)))
      as [[candidate cand_cost]|] eqn:E; [|by exists best_cost].
    apply scan_i_spec in E as (i & k & Hi & Hik & -> & -> & Hlt).
    apply range_elem in Hi. apply IH.
    apply (Hstep best best_cost); [done|lia|done|done].
Qed.

Lemma two_opt_improve_ind (P : list nat -> float -> Prop) cost order
    (fixed_start : bool) max_iter :
  P order (path_cost cost order) ->
  (forall best best_cost i k,
      P best best_cost -> length best = length order ->
      (if fixed_start then 1 else 0) <= i -> i < k < length order - 1 ->
      flt (fadd (path_cost cost (reverse_segment best i k)) (Fin eps))
          best_cost ->
      P (reverse_segment best i k)
        (path_cost cost (reverse_segment best i k))) ->
  exists c, P (two_opt_improve cost order fixed_start max_iter) c.
Proof.
  intros Hinit Hstep. unfold two_opt_improve.
  destruct (length order <=? 3); [by eexists|].
  destruct (two_opt_loop_ind
              (fun b c => P b c /\ length b = length order) cost
              (if fixed_start then 1 else 0) (length order)) with
    (fuel := max_iter) (best := order) (best_cost := path_cost cost order)
    as (c & HP & _).
  - intros best best_cost i k [HP Hlen] Hi Hik Hlt. split.
    + by apply (Hstep best best_cost).
    + rewrite reverse_segment_length; [done|lia].
  - done.
  - by exists c.
Qed.

Lemma two_opt_improve_perm cost order fixed_start max_iter :
  two_opt_improve cost order fixed_start max_iter ≡ₚ order.
Proof.
  destruct (two_opt_improve_ind (fun b _ => b ≡ₚ order) cost order
              fixed_start max_iter) as [_ H]; [done| |done].
  intros best _ i k HP _ _ Hik _.
  rewrite reverse_segment_perm; [done|lia].
Qed.

Lemma two_opt_improve_head cost order max_iter :
  head (two_opt_improve cost order true max_iter) = head order.
Proof.
  destruct (two_opt_improve_ind (fun b _ => head b = head order) cost order
              true max_iter) as [_ H]; [done| |done].
  intros best _ i k HP _ Hi _ _. by rewrite reverse_segment_head.
Qed.

Lemma two_opt_improve_last cost order fixed_start max_iter :
  last (two_opt_improve cost order fixed_start max_iter) = last order.
Proof.
  destruct (two_opt_improve_ind (fun b _ => last b = last order) cost order
              fixed_start max_iter) as [_ H]; [done| |done].
  intros best _ i k HP Hlen _ Hik _.
  rewrite reverse_segment_last; [done|lia].
Qed.

Lemma two_opt_improve_cost cost order fixed_start max_iter :
  fle (path_cost cost (two_opt_improve cost order fixed_start max_iter))
      (path_cost cost order).
Proof.
  destruct (two_opt_improve_ind
              (fun b c => c = path_cost cost b /\ fle c (path_cost cost order))
              cost order fixed_start max_iter) as (c & -> & H); [|  |done].
  - split; [done|apply fle_refl].
  - intros best best_cost i k [-> HP] _ _ _ Hlt. split; [done|].
    eapply fle_trans; [|exact HP]. apply flt_fle. by apply flt_add_eps.
Qed.

(** ** The optimizer *)

Lemma bind_Ok {A B} (k : A -> result B) (r : result A) b :
  r ≫= k = Ok b -> exists a, r = Ok a /\ k a = Ok b.
Proof. destruct r as [a|e]; [|done]. intros H. by exists a. Qed.

Lemma bind_Ok_l {A B} (k : A -> result B) a : Ok a ≫= k = k a.
Proof. done. Qed.

Lemma map_rows_length (rows : list (list (option Q))) cols :
  forallb (fun r' => length r' =? cols) rows = true ->
  Forall (fun r => length r = cols) (map (map cell_to_float) rows).
Proof.
  induction rows as [|r rows IH]; simpl; [by constructor|].
  intros H. apply andb_true_iff in H as [Hr H].
  constructor; [|by apply IH].
  rewrite length_map. by apply Nat.eqb_eq.
Qed.

Lemma _to_cost_matrix_wf matrix cost :
  _to_cost_matrix matrix = Ok cost -> wf_ndarray cost.
Proof.
  unfold _to_cost_matrix. destruct matrix as [|r rs]; [by intros [= <-]|].
  destruct (forallb _ _) eqn:E; [|done]. intros H. injection H as <-.
  split; [apply (length_map _ (r :: rs))|]. by apply (map_rows_length (r :: rs)).
Qed.

Lemma _to_cost_matrix_shape0 matrix cost :
  _to_cost_matrix matrix = Ok cost -> shape0 cost = length matrix.
Proof.
  unfold _to_cost_matrix. destruct matrix as [|r rs]; [by intros [= <-]|].
  destruct (forallb _ _); [|done]. by intros [= <-].
Qed.

Section OptimizerFacts.

Variable set_iter : list nat -> list nat -> list nat.
Hypothesis set_iter_perm : forall u c, set_iter u c ≡ₚ c.

Lemma py_min_candidates_ne sums n e s :
  py_min (fun i => nth i sums (Fin 0)) (filter (fun i => i ≠ e) (range 0 n))
    = Some s ->
  s < n /\ s ≠ e.
Proof.
  intros H. apply py_min_elem in H.
  apply list_elem_of_filter in H as [Hne H]. apply range_elem in H. lia.
Qed.

Lemma choose_central_start_lt cost :
  wf_ndarray cost -> 0 < shape0 cost ->
  choose_central_start cost < shape0 cost.
Proof.
  intros Hwf Hn. unfold choose_central_start.
  destruct (Nat.eqb_spec (shape0 cost) 0); [lia|].
  destruct cost as [len|rows cols cells]; simpl in *; [lia|].
  destruct Hwf as [Hrows _]. unfold argmin.
  destruct (py_min _ _) as [i|] eqn:E; simpl; [|lia].
  apply py_min_elem, range_elem in E.
  rewrite length_map in E. lia.
Qed.

(** What a successful call has computed. *)
Lemma optimize_order_inv durations_s fixed_start_index fixed_end_index r :
  optimize_order_from_durations set_iter durations_s
    fixed_start_index fixed_end_index = Ok r ->
  exists cost,
    _to_cost_matrix durations_s = Ok cost
    /\ validate_full_matrix cost = Ok tt
    /\ ((shape0 cost <= 1
         /\ r = {| order := range 0 (shape0 cost); total_cost := Fin 0 |})
        \/ (2 <= shape0 cost /\ exists start (fixed_start : bool),
              start < shape0 cost
              /\ match fixed_start_index with
                 | Some s => start = clamp (shape0 cost) s /\ fixed_start = true
                 | None =>
                     fixed_start = false
                     /\ forall e, fixed_end_index = Some e ->
                                  start ≠ clamp (shape0 cost) e
                 end
              /\ order r =
                   two_opt_improve cost
                     (nearest_neighbor_path set_iter cost (Z.of_nat start)
                        (option_map Z.of_nat
                           (effective_end (shape0 cost) start fixed_end_index)))
                     fixed_start default_max_iter
              /\ total_cost r = path_cost cost (order r))).
Proof.
  unfold optimize_order_from_durations. intros H.
  apply bind_Ok in H as (cost & Hc & H). exists cost. split; [done|].
  apply bind_Ok in H as ([] & Hv & H). split; [done|].
  pose proof (_to_cost_matrix_wf _ _ Hc) as Hwf.
  destruct (Nat.leb_spec (shape0 cost) 1) as [Hle|Hgt].
  { left. by injection H as <-. }
  right. split; [lia|].
  apply bind_Ok in H as ([start fixed_start] & Hs & H). simpl in H.
  injection H as <-. exists start, fixed_start. simpl.
  assert (start < shape0 cost
          /\ match fixed_start_index with
             | Some s => start = clamp (shape0 cost) s /\ fixed_start = true
             | None =>
                 fixed_start = false
                 /\ forall e, fixed_end_index = Some e ->
                              start ≠ clamp (shape0 cost) e
             end) as [Hlt Hfs]; [|done].
  destruct fixed_start_index as [s|].
  - injection Hs as <- <-. split; [apply clamp_lt; lia|done].
  - destruct (Nat.eqb_spec (shape0 cost) 0); [lia|].
    destruct fixed_end_index as [e|]; simpl in Hs.
    + destruct (py_min _ _) as [s|] eqn:E; [|done].
      injection Hs as <- <-. apply py_min_candidates_ne in E as [? ?].
      split; [done|]. split; [done|]. by intros e' [= <-].
    + injection Hs as <- <-. split; [|done].
      apply choose_central_start_lt; [done|lia].
Qed.

(** Past validation nothing is raised. *)
Lemma optimize_order_total durations_s fixed_start_index fixed_end_index cost :
  _to_cost_matrix durations_s = Ok cost ->
  validate_full_matrix cost = Ok tt ->
  exists r,
    optimize_order_from_durations set_iter durations_s
      fixed_start_index fixed_end_index = Ok r.
Proof.
  intros Hc Hv. unfold optimize_order_from_durations.
  rewrite Hc. simpl. rewrite Hv. simpl.
  destruct (Nat.leb_spec (shape0 cost) 1) as [Hle|Hgt]; [by eexists|].
  destruct fixed_start_index as [s|]; simpl; [by eexists|].
  destruct (Nat.eqb_spec (shape0 cost) 0); [lia|].
  destruct fixed_end_index as [e|]; simpl; [|by eexists].
  destruct (py_min_is_Some (fun i => nth i (row_sums cost) (Fin 0))
              (filter (fun i => i ≠ clamp (shape0 cost) e)
                      (range 0 (shape0 cost)))) as [s Hs].
  - assert (exists j, j < shape0 cost /\ j ≠ clamp (shape0 cost) e)
      as (j & Hj & Hne).
    { destruct (decide (clamp (shape0 cost) e = 0)) as [->|];
        [exists 1|exists 0]; lia. }
    intros Hnil.
    assert (j ∈ filter (fun i => i ≠ clamp (shape0 cost) e)
                       (range 0 (shape0 cost))) as Hin.
    { apply list_elem_of_filter. split; [done|]. apply range_elem. lia. }
    rewrite Hnil in Hin. by apply elem_of_nil in Hin.
  - rewrite Hs. simpl. by eexists.
Qed.

(** The order of a successful call is a permutation of the indices. *)
Lemma optimize_order_perm durations_s fixed_start_index fixed_end_index r :
  optimize_order_from_durations set_iter durations_s
    fixed_start_index fixed_end_index = Ok r ->
  order r ≡ₚ seq 0 (length durations_s).
Proof.
  intros H. apply optimize_order_inv in H
    as (cost & Hc & Hv & [[Hle ->]|(Hn & start & fixed & Hlt & _ & -> & _)]).
  - simpl. by rewrite range_0, (_to_cost_matrix_shape0 _ _ Hc).
  - rewrite two_opt_improve_perm.
    destruct (nearest_neighbor_path_spec set_iter set_iter_perm cost
                (Z.of_nat start)
                (option_map Z.of_nat
                   (effective_end (shape0 cost) start fixed_end_index)))
      as (tl & -> & Hperm & _); [lia|].
    by rewrite Hperm, (_to_cost_matrix_shape0 _ _ Hc).
Qed.

End OptimizerFacts.

(** ** Claims about the optimizer *)

(** C1. For every cost matrix that passes validation -- by
    [validation_passes_iff] below these are the square matrices with at least
    one row and no missing cell -- and for any start and end anchors, given
    or absent, the optimizer returns a route, and its order is a permutation
    of [0..N-1]: no index twice, none left out. *)
Theorem optimizer_result_is_permutation
    (set_iter : list nat -> list nat -> list nat)
    (set_iter_perm : forall u c, set_iter u c ≡ₚ c)
    durations_s fixed_start_index fixed_end_index cost :
  _to_cost_matrix durations_s = Ok cost ->
  validate_full_matrix cost = Ok tt ->
  exists r,
    optimize_order_from_durations set_iter durations_s
      fixed_start_index fixed_end_index = Ok r
    /\ order r ≡ₚ seq 0 (length durations_s)
    /\ NoDup (order r)
    /\ (forall i, i < length durations_s -> i ∈ order r)
    /\ length (order r) = length durations_s.
Proof.
  intros Hc Hv.
  destruct (optimize_order_total set_iter durations_s fixed_start_index
              fixed_end_index cost Hc Hv) as [r Hr].
  exists r. split; [done|].
  pose proof (optimize_order_perm set_iter set_iter_perm _ _ _ _ Hr) as Hperm.
  split_and!; [done| | |].
  - rewrite Hperm. apply NoDup_seq.
  - intros i Hi. rewrite Hperm. apply elem_of_seq. lia.
  - by rewrite Hperm, length_seq.
Qed.

Lemma optimizer_result_is_permutation_witness :
  exists r,
    optimize_order_from_durations (fun _ c => c) matrix4 None (Some 2%Z) = Ok r
    /\ order r ≡ₚ seq 0 4
    /\ NoDup (order r)
    /\ (forall i, i < 4 -> i ∈ order r)
    /\ length (order r) = 4.
Proof.
  apply (optimizer_result_is_permutation (fun _ c => c)
           (fun _ c => Permutation_refl c) matrix4 None (Some 2%Z)
           (Arr2 4 4 (map (map cell_to_float) matrix4))).
  - reflexivity.
  - reflexivity.
Defined.


Section SelectorFacts.

Import TripsService.

Variable set_iter : list nat -> list nat -> list nat.
Hypothesis set_iter_perm : forall u c, set_iter u c ≡ₚ c.

(** A fixed start that is an index of the matrix heads the order. *)
Lemma optimize_order_head durations_s s fixed_end_index r :
  optimize_order_from_durations set_iter durations_s
    (Some (Z.of_nat s)) fixed_end_index = Ok r ->
  s < length durations_s ->
  head (order r) = Some s.
Proof.
  intros H Hs. apply optimize_order_inv in H
    as (cost & Hc & Hv & [[Hle ->]|(Hn & start & fixed & Hlt & Hfs & -> & _)]).
  - rewrite (_to_cost_matrix_shape0 _ _ Hc) in *. simpl.
    assert (length durations_s = 1) as -> by lia.
    assert (s = 0) as -> by lia. done.
  - destruct Hfs as [-> ->]. rewrite two_opt_improve_head.
    destruct (nearest_neighbor_path_spec set_iter set_iter_perm cost
                (Z.of_nat (clamp (shape0 cost) (Z.of_nat s)))
                (option_map Z.of_nat
                   (effective_end (shape0 cost)
                      (clamp (shape0 cost) (Z.of_nat s)) fixed_end_index)))
      as (tl & -> & _); [lia|].
    simpl. rewrite (_to_cost_matrix_shape0 _ _ Hc).
    by rewrite !(clamp_of_nat _ s Hs).
Qed.

(** A fixed end other than the start closes the order. *)
Lemma optimize_order_last durations_s fixed_start_index e r :
  optimize_order_from_durations set_iter durations_s
    fixed_start_index (Some e) = Ok r ->
  (forall s, fixed_start_index = Some s ->
     clamp (length durations_s) s ≠ clamp (length durations_s) e) ->
  last (order r) = Some (clamp (length durations_s) e).
Proof.
  intros H Hse. apply optimize_order_inv in H
    as (cost & Hc & Hv & [[Hle ->]|(Hn & start & fixed & Hlt & Hfs & -> & _)]);
    rewrite (_to_cost_matrix_shape0 _ _ Hc) in *.
  - assert (length durations_s = 1) as Hone.
    { destruct durations_s; [|simpl in *; lia].
      injection Hc as <-. done. }
    rewrite Hone. simpl. f_equal. unfold clamp. lia.
  - rewrite two_opt_improve_last.
    set (n := length durations_s) in *.
    assert (start ≠ clamp n e) as Hne.
    { destruct fixed_start_index as [s|].
      - destruct Hfs as [-> _]. by apply Hse.
      - destruct Hfs as [_ Hfs]. by apply Hfs. }
    assert (effective_end n start (Some e) = Some (clamp n e)) as ->.
    { unfold effective_end. simpl.
      destruct (Nat.eqb_spec (clamp n e) start); [congruence|done]. }
    destruct (nearest_neighbor_path_spec set_iter set_iter_perm cost
                (Z.of_nat start) (option_map Z.of_nat (Some (clamp n e))))
      as (tl & -> & _ & Hlast); [rewrite (_to_cost_matrix_shape0 _ _ Hc); lia|].
    rewrite (_to_cost_matrix_shape0 _ _ Hc) in Hlast. fold n in Hlast.
    specialize (Hlast _ eq_refl).
    rewrite !clamp_of_nat in Hlast by (try done; apply clamp_lt; lia).
    rewrite last_cons, Hlast; [done|congruence].
Qed.

(** ** The route selector *)

(** Every soft route is the outcome of an optimizer call under the anchors
    [or_else hard soft]. *)
Lemma soft_step_inv (P : OptimizeResult -> Prop) durations hs he acc se :
  (forall s e cand,
      optimize_order_from_durations set_iter durations
        (option_map Z.of_nat (or_else hs s))
        (option_map Z.of_nat (or_else he e)) = Ok cand -> P cand) ->
  (forall b, acc = Ok (Some b) -> P b) ->
  forall r, soft_step set_iter durations hs he acc se = Ok (Some r) -> P r.
Proof.
  intros Hcand Hacc r. unfold soft_step.
  intros H. apply bind_Ok in H as (best_soft & -> & H).
  repeat (case_match; [injection H as ->; by apply Hacc|]).
  apply bind_Ok in H as (cand & Hc & H).
  destruct best_soft as [soft|].
  - case_match; injection H as <-; [by eapply Hcand|by apply Hacc].
  - injection H as <-. by eapply Hcand.
Qed.

Lemma foldl_soft_step_inv (P : OptimizeResult -> Prop) durations hs he l :
  (forall s e cand,
      optimize_order_from_durations set_iter durations
        (option_map Z.of_nat (or_else hs s))
        (option_map Z.of_nat (or_else he e)) = Ok cand -> P cand) ->
  forall acc,
    (forall b, acc = Ok (Some b) -> P b) ->
    forall r, foldl (soft_step set_iter durations hs he) acc l = Ok (Some r) ->
              P r.
Proof.
  intros Hcand. induction l as [|se l IH]; intros acc Hacc r; simpl.
  - apply Hacc.
  - apply IH. intros b. by apply soft_step_inv.
Qed.

Lemma best_soft_route_inv (P : OptimizeResult -> Prop) durations hs he sc ec r :
  (forall s e cand,
      optimize_order_from_durations set_iter durations
        (option_map Z.of_nat (or_else hs s))
        (option_map Z.of_nat (or_else he e)) = Ok cand -> P cand) ->
  best_soft_route set_iter durations hs he sc ec = Ok (Some r) -> P r.
Proof.
  intros Hcand. unfold best_soft_route.
  apply foldl_soft_step_inv; [done|]. intros b [=].
Qed.

Lemma select_route_inv durations hs he sc ec r :
  select_route set_iter durations hs he sc ec = Ok r ->
  exists base best_soft,
    base_route set_iter durations hs he = Ok base
    /\ best_soft_route set_iter durations hs he sc ec = Ok best_soft
    /\ r = accept_soft base best_soft.
Proof.
  unfold select_route. intros H.
  apply bind_Ok in H as (base & Hb & H).
  apply bind_Ok in H as (best_soft & Hs & H).
  injection H as <-. by exists base, best_soft.
Qed.

(** Once the matrix has passed validation no round of the loops raises. *)
Lemma foldl_soft_step_total durations hs he cost l :
  _to_cost_matrix durations = Ok cost ->
  validate_full_matrix cost = Ok tt ->
  forall best_soft, exists best_soft',
    foldl (soft_step set_iter durations hs he) (Ok best_soft) l
      = Ok best_soft'.
Proof.
  intros Hc Hv. induction l as [|se l IH]; intros best_soft; cbn [foldl].
  - by eexists.
  - assert (exists b, soft_step set_iter durations hs he (Ok best_soft) se
                      = Ok b) as [b ->]; [|apply IH].
    unfold soft_step. simpl.
    repeat (case_match; [by eexists|]).
    destruct (optimize_order_total set_iter durations
                (option_map Z.of_nat (or_else hs se.1))
                (option_map Z.of_nat (or_else he se.2)) cost Hc Hv)
      as [cand ->].
    simpl. destruct best_soft; [case_match|]; by eexists.
Qed.

Lemma select_route_total durations hs he sc ec cost :
  _to_cost_matrix durations = Ok cost ->
  validate_full_matrix cost = Ok tt ->
  exists r, select_route set_iter durations hs he sc ec = Ok r.
Proof.
  intros Hc Hv. unfold select_route, base_route.
  destruct (optimize_order_total set_iter durations
              (option_map Z.of_nat hs) (option_map Z.of_nat he) cost Hc Hv)
    as [base ->].
  simpl. unfold best_soft_route.
  destruct (foldl_soft_step_total durations hs he cost
              (s ← None :: map Some sc; e ← None :: map Some ec; [(s, e)])
              Hc Hv None) as [best_soft ->].
  simpl. by eexists.
Qed.

Lemma accept_soft_cases base best_soft :
  (exists soft,
      best_soft = Some soft
      /\ accept_soft base best_soft = soft
      /\ flt (Fin 0) (total_cost base)
      /\ fle (total_cost soft) (soft_ceiling (total_cost base)))
  \/ (accept_soft base best_soft = base
      /\ forall soft,
           best_soft = Some soft ->
           ~ (flt (Fin 0) (total_cost base)
              /\ fle (total_cost soft) (soft_ceiling (total_cost base)))).
Proof.
  unfold accept_soft. destruct best_soft as [soft|]; [|right; split; [done|]].
  2: { by intros soft [=]. }
  destruct (fltb (Fin 0) (total_cost base)) eqn:Epos.
  - destruct (fleb _ _) eqn:Ele.
    + left. exists soft. split_and!; [done|done|by apply fltb_flt|].
      unfold fleb in Ele. apply negb_true_iff in Ele.
      by apply fltb_false_fle.
    + right. split; [done|]. intros soft' [= <-] [_ Hle].
      unfold fleb in Ele. apply negb_false_iff in Ele.
      apply fltb_flt in Ele. eapply flt_irrefl, flt_fle_trans; eauto.
  - right. split; [done|]. intros soft' [= <-] [Hpos _].
    apply fltb_flt in Hpos. congruence.
Qed.

(** With a hard start the selector's route begins there. *)
Lemma select_route_head durations s he sc ec r :
  s < length durations ->
  select_route set_iter durations (Some s) he sc ec = Ok r ->
  head (order r) = Some s.
Proof.
  intros Hs H.
  apply select_route_inv in H as (base & best_soft & Hb & Hbs & ->).
  destruct (accept_soft_cases base best_soft)
    as [(soft & -> & -> & _)|[-> _]].
  - apply (best_soft_route_inv (fun c => head (order c) = Some s)
             durations (Some s) he sc ec soft); [|done].
    intros s' e' cand H. by eapply optimize_order_head.
  - by eapply optimize_order_head.
Qed.

(** The selector's route is a permutation of the indices. *)
Lemma select_route_perm durations hs he sc ec r :
  select_route set_iter durations hs he sc ec = Ok r ->
  order r ≡ₚ seq 0 (length durations).
Proof.
  intros H.
  apply select_route_inv in H as (base & best_soft & Hb & Hbs & ->).
  destruct (accept_soft_cases base best_soft)
    as [(soft & -> & -> & _)|[-> _]].
  - apply (best_soft_route_inv
             (fun c => order c ≡ₚ seq 0 (length durations))
             durations hs he sc ec soft); [|done].
    intros s' e' cand. by apply optimize_order_perm.
  - by eapply optimize_order_perm.
Qed.

End SelectorFacts.

(** ** Rounding to doubles *)

Import TripsService.

Lemma py_round_upper q : (inject_Z (py_round q) <= q + (1 # 2))%Q.
Proof.
  unfold py_round. pose proof (Qfloor_le q) as Hf.
  destruct (Qcompare_spec (q - inject_Z (Qfloor q)) (1 # 2)) as [He|Hl|Hg].
  - destruct (Z.even (Qfloor q)); [lra|].
    rewrite inject_Z_plus. change (inject_Z 1) with 1%Q. lra.
  - lra.
  - rewrite inject_Z_plus. change (inject_Z 1) with 1%Q. lra.
Qed.

Lemma Qlog2_lower q : (0 < q)%Q -> (2 ^ Qlog2 q <= q)%Q.
Proof.
  intros Hq. destruct q as [n d]. unfold Qlog2. cbn [Qnum Qden].
  set (a := Z.log2 n). set (b := Z.log2 (Z.pos d)).
  destruct (Qle_bool (2 ^ (a - b)) (n # d)) eqn:E; [by apply Qle_bool_iff|].
  assert (0 < n)%Z as Hn.
  { unfold Qlt in Hq. simpl in *. lia. }
  pose proof (Z.log2_spec _ Hn) as [Ha _]. fold a in Ha.
  pose proof (Z.log2_spec (Z.pos d) (Pos2Z.is_pos _)) as [_ Hb].
  fold b in Hb.
  pose proof (Z.log2_nonneg n) as Ha0. fold a in Ha0.
  pose proof (Z.log2_nonneg (Z.pos d)) as Hb0. fold b in Hb0.
  replace (a - b - 1)%Z with (a - Z.succ b)%Z by lia.
  rewrite Qpower_minus by done.
  change 2%Q with (inject_Z 2).
  rewrite <- !Zpower_Qpower by lia.
  apply Qle_shift_div_r.
  { change 0%Q with (inject_Z 0). rewrite <- Zlt_Qlt. lia. }
  rewrite (Qmake_Qdiv n d).
  assert (H1 : (inject_Z (2 ^ a) <= inject_Z n)%Q)
    by (by rewrite <- Zle_Qle).
  assert (H2 : (inject_Z (Z.pos d) <= inject_Z (2 ^ Z.succ b))%Q)
    by (rewrite <- Zle_Qle; lia).
  assert (H3 : (0 < inject_Z (Z.pos d))%Q)
    by (change 0%Q with (inject_Z 0); by rewrite <- Zlt_Qlt).
  assert (H4 : (0 <= inject_Z (2 ^ a))%Q)
    by (change 0%Q with (inject_Z 0); rewrite <- Zle_Qle; lia).
  set (x := inject_Z (2 ^ a)) in *. set (m := inject_Z n) in *.
  set (dd := inject_Z (Z.pos d)) in *. set (y := inject_Z (2 ^ Z.succ b)) in *.
  assert (x <= m / dd * dd)%Q as H5.
  { unfold Qdiv. rewrite <- Qmult_assoc, (Qmult_comm (/ dd)).
    rewrite Qmult_inv_r, Qmult_1_r by lra. done. }
  assert (0 <= m / dd)%Q as H6.
  { apply Qle_shift_div_l; [done|]. lra. }
  set (z := (m / dd)%Q) in *. nra.
Qed.

Lemma quantum_pos q : (0 < quantum q)%Q.
Proof. by apply Qpower_0_lt. Qed.

Lemma quantum_upper q :
  (0 < q)%Q ->
  (quantum q <= q * (1 # 4503599627370496) + 2 ^ (-1074))%Q.
Proof.
  intros Hq. unfold quantum.
  pose proof (Qlog2_lower q Hq) as Hl.
  assert (0 < 2 ^ (-1074))%Q as Hs by by apply Qpower_0_lt.
  destruct (Z.max_spec (Qlog2 q - 52) (-1074)) as [[_ ->]|[_ ->]].
  - set (x := (2 ^ (-1074))%Q) in *. lra.
  - rewrite Qpower_minus by done.
    change (2 ^ 52)%Q with (4503599627370496 # 1)%Q.
    unfold Qdiv. change (/ (4503599627370496 # 1))%Q
      with (1 # 4503599627370496)%Q.
    set (x := (2 ^ (-1074))%Q) in *. set (y := (2 ^ Qlog2 q)%Q) in *. lra.
Qed.

(** Rounding a positive rational up gains at most half the spacing. *)
Lemma round_double_upper q :
  (0 < q)%Q ->
  (round_double q <= q * (1 + (1 # 9007199254740992)) + 2 ^ (-1074))%Q.
Proof.
  intros Hq. unfold round_double.
  apply Qgt_alt in Hq as Hc. rewrite Hc.
  pose proof (quantum_pos q) as Hp. pose proof (quantum_upper q Hq) as Hu.
  pose proof (py_round_upper (q / quantum q)) as Hr.
  assert (0 < 2 ^ (-1074))%Q as Hs by by apply Qpower_0_lt.
  assert (q / quantum q * quantum q == q)%Q as Hd.
  { unfold Qdiv. rewrite <- Qmult_assoc, (Qmult_comm (/ quantum q)).
    rewrite Qmult_inv_r, Qmult_1_r; [reflexivity|].
    intros E. rewrite E in Hp. by apply Qlt_irrefl in Hp. }
  assert (inject_Z (py_round (q / quantum q)) * quantum q
          <= q + quantum q * (1 # 2))%Q as H.
  { apply (Qmult_le_compat_r _ _ (quantum q)) in Hr; [|by apply Qlt_le_weak].
    rewrite Qmult_plus_distr_l, Hd in Hr.
    rewrite (Qmult_comm (quantum q)). exact Hr. }
  set (m := (inject_Z (py_round (q / quantum q)) * quantum q)%Q) in *.
  set (x := (2 ^ (-1074))%Q) in *. set (u := quantum q) in *. lra.
Qed.

Lemma soft_ceiling_bound b ceiling_ :
  (0 < b)%Q ->
  soft_ceiling (Fin b) = Fin ceiling_ ->
  (ceiling_ <= (112 # 100) * b * (1 + (1 # 2251799813685248))
               + 2 ^ (-1074))%Q.
Proof.
  intros Hb. unfold soft_ceiling, fmul_double.
  destruct (Qle_bool _ _); [done|]. intros [= <-].
  set (c := round_double (1 + SOFT_MAX_DEGRADATION)).
  assert (0 < c /\ c <= (112 # 100) * (1 + (1 # 9007199254740992)))%Q
    as [Hc0 Hc].
  { split; [apply Qlt_alt|apply Qle_bool_iff]; vm_compute; reflexivity. }
  assert (0 < b * c)%Q as Hbc by nra.
  pose proof (round_double_upper (b * c) Hbc) as Hr.
  set (r := round_double (b * c)) in *. set (x := (2 ^ (-1074))%Q) in *.
  assert (b * c <= (112 # 100) * b * (1 + (1 # 9007199254740992)))%Q as H1
    by nra.
  assert (b * c * (1 + (1 # 9007199254740992))
          <= (112 # 100) * b * (1 + (1 # 9007199254740992))
             * (1 + (1 # 9007199254740992)))%Q as H2 by nra.
  nra.
Qed.

(** The quotient is rounded before [round] sees it: 21 seconds are 0.3
    minutes, for [21.0 / 60.0] is a double below 0.35, and 2000.5 metres are
    2.001 kilometres, for [2000.5 / 1000.0] is a double above 2.0005. *)
Lemma rounded_quotients :
  (py_round_to (fdiv_double 21 60) 1 == 3 # 10)%Q
  /\ (py_round_to (fdiv_double (20005 # 10) 1000) 3 == 2001 # 1000)%Q.
Proof. split; vm_compute; reflexivity. Qed.

(** ** Claims about the selector *)




(** C4. With a hard start [s] that is an index of the stop list, [s] stands
    at position 0 of the baseline, of every route optimized for a soft
    candidate, of the best soft route and of the route the selector returns. *)
Theorem hard_start_is_first
    (set_iter : list nat -> list nat -> list nat)
    (set_iter_perm : forall u c, set_iter u c ≡ₚ c)
    durations s he sc ec :
  s < length durations ->
  (forall base,
      base_route set_iter durations (Some s) he = Ok base ->
      head (order base) = Some s)
  /\ (forall s' e' cand,
        optimize_order_from_durations set_iter durations
          (option_map Z.of_nat (or_else (Some s) s'))
          (option_map Z.of_nat (or_else he e')) = Ok cand ->
        head (order cand) = Some s)
  /\ (forall soft,
        best_soft_route set_iter durations (Some s) he sc ec = Ok (Some soft) ->
        head (order soft) = Some s)
  /\ (forall r,
        select_route set_iter durations (Some s) he sc ec = Ok r ->
        head (order r) = Some s).
Proof.
  intros Hs.
  assert (forall fe cand,
            optimize_order_from_durations set_iter durations
              (Some (Z.of_nat s)) fe = Ok cand ->
            head (order cand) = Some s) as Hhead.
  { intros fe cand H. by eapply optimize_order_head. }
  assert (forall soft,
            best_soft_route set_iter durations (Some s) he sc ec
              = Ok (Some soft) ->
            head (order soft) = Some s) as Hsoft.
  { intros soft H.
    apply (best_soft_route_inv set_iter (fun c => head (order c) = Some s)
             durations (Some s) he sc ec soft); [|done].
    intros s' e' cand. apply Hhead. }
  split_and!.
  - intros base. apply Hhead.
  - intros s' e' cand. apply Hhead.
  - done.
  - intros r. by apply select_route_head.
Qed.

Lemma hard_start_is_first_witness :
  (forall base,
      base_route (fun _ c => c) matrix4 (Some 3) None = Ok base ->
      head (order base) = Some 3)
  /\ (forall s' e' cand,
        optimize_order_from_durations (fun _ c => c) matrix4
          (option_map Z.of_nat (or_else (Some 3) s'))
          (option_map Z.of_nat (or_else None e')) = Ok cand ->
        head (order cand) = Some 3)
  /\ (forall soft,
        best_soft_route (fun _ c => c) matrix4 (Some 3) None [] [0; 1]
          = Ok (Some soft) ->
        head (order soft) = Some 3)
  /\ (forall r,
        select_route (fun _ c => c) matrix4 (Some 3) None [] [0; 1] = Ok r ->
        head (order r) = Some 3).
Proof.
  apply (hard_start_is_first (fun _ c => c) (fun _ c => Permutation_refl c)
           matrix4 3 None [] [0; 1]).
  simpl. lia.
Defined.

(** C5. While another node is unvisited nearest neighbour does not offer the
    designated end as a choice, so an end other than the start closes the
    path; no segment 2-Opt reverses reaches the last position, so the last
    node stays; and the optimizer's order ends at the designated end. *)
Theorem end_anchor_stays_last
    (set_iter : list nat -> list nat -> list nat)
    (set_iter_perm : forall u c, set_iter u c ≡ₚ c) :
  (forall e unvisited,
      e ∈ unvisited -> 1 < length unvisited ->
      e ∉ nn_choices (Some e) unvisited)
  /\ (forall cost start e,
        0 < shape0 cost ->
        clamp (shape0 cost) e ≠ clamp (shape0 cost) start ->
        last (nearest_neighbor_path set_iter cost start (Some e))
          = Some (clamp (shape0 cost) e))
  /\ (forall best i k,
        k < length best - 1 ->
        last (reverse_segment best i k) = last best)
  /\ (forall cost order fixed_start max_iter,
        last (two_opt_improve cost order fixed_start max_iter) = last order)
  /\ (forall durations_s fixed_start_index e r,
        optimize_order_from_durations set_iter durations_s
          fixed_start_index (Some e) = Ok r ->
        (forall s, fixed_start_index = Some s ->
           clamp (length durations_s) s ≠ clamp (length durations_s) e) ->
        last (order r) = Some (clamp (length durations_s) e)).
Proof.
  split_and!.
  - apply nn_choices_withhold.
  - intros cost start e Hn Hne.
    destruct (nearest_neighbor_path_spec set_iter set_iter_perm cost start
                (Some e) Hn) as (tl & -> & _ & Hlast).
    rewrite last_cons, (Hlast e eq_refl Hne). done.
  - intros best i k Hk. apply reverse_segment_last. lia.
  - apply two_opt_improve_last.
  - intros durations_s fixed_start_index e r.
    by apply optimize_order_last.
Qed.

Lemma end_anchor_stays_last_witness :
  last (nearest_neighbor_path (fun _ c => c)
          (Arr2 4 4 (map (map cell_to_float) matrix4)) 1 (Some 0%Z))
  = Some 0
  /\ forall r,
       optimize_order_from_durations (fun _ c => c) matrix4 None (Some 0%Z)
         = Ok r ->
       last (order r) = Some 0.
Proof.
  pose proof (end_anchor_stays_last (fun _ c => c)
                (fun _ c => Permutation_refl c)) as (_ & Hnn & _ & _ & Hopt).
  split.
  - apply (Hnn (Arr2 4 4 (map (map cell_to_float) matrix4)) 1%Z 0%Z).
    + simpl. lia.
    + vm_compute. lia.
  - intros r Hr. apply (Hopt matrix4 None 0%Z r Hr). intros s [=].
Defined.

(** ** Anchors of the optimize operation *)

Lemma foldl_insert_lookup_None (l : list (nat * row)) (m : gmap Z nat) z :
  m !! z = None ->
  Forall (fun ir : nat * row => location_id ir.2 ≠ z) l ->
  foldl (fun m ir => <[location_id ir.2 := ir.1]> m) m l !! z = None.
Proof.
  revert m. induction l as [|ir l IH]; intros m Hm Hl; simpl; [done|].
  apply Forall_cons in Hl as [Hir Hl]. apply IH; [|done].
  by rewrite lookup_insert_ne.
Qed.

Lemma id_to_index_unknown rows z :
  z ∉ map location_id rows -> id_to_index rows !! z = None.
Proof.
  intros Hz. unfold id_to_index. apply foldl_insert_lookup_None; [done|].
  apply Forall_forall. intros [i r] Hir.
  apply elem_of_lookup_imap in Hir as (j & r' & [= -> ->] & Hj). simpl.
  intros <-. apply Hz. apply list_elem_of_In, in_map, list_elem_of_In.
  by eapply list_elem_of_lookup_2.
Qed.

(** [strip] removes the separators U+001C to U+001F, which [int] refuses;
    both pass over the no-break space. So an id of such a separator and
    digits is not blank and names no stop. *)
Lemma blanks_of_strip_and_int :
  py_strip (String (Ascii.ascii_of_nat 28) "10") = "10"%string
  /\ py_int_of_string (String (Ascii.ascii_of_nat 28) "10") = None
  /\ py_int_of_string (String (Ascii.ascii_of_nat 160) " 10 ") = Some 10%Z
  /\ py_lower (py_strip (String (Ascii.ascii_of_nat 160) "Relaxed"))
     = "relaxed"%string
  /\ resolve_anchor (id_to_index rows4)
       (IdStr (String (Ascii.ascii_of_nat 28) "10")) = None
  /\ resolve_anchor (id_to_index rows4) (IdStr " 10 ") = Some 0.
Proof. split_and!; vm_compute; reflexivity. Qed.

Lemma resolve_bad_anchor rows x :
  bad_anchor rows x -> resolve_anchor (id_to_index rows) x = None.
Proof.
  destruct 1 as [s Hs|s z Hs Hz|z Hz]; simpl.
  - rewrite Hs. by case_match.
  - rewrite Hs. case_match; [done|]. by apply id_to_index_unknown.
  - by apply id_to_index_unknown.
Qed.

Lemma head_last_distinct (l : list nat) i :
  NoDup l -> 2 <= length l -> head l = Some i -> last l ≠ Some i.
Proof.
  destruct l as [|x l]; [done|]. intros Hnd Hlen [= ->] Hlast.
  apply NoDup_cons in Hnd as [Hi _]. apply Hi.
  destruct l as [|y l]; [simpl in Hlen; lia|].
  rewrite last_cons_cons in Hlast.
  apply last_Some in Hlast as [l' ->]. apply elem_of_app. right. left.
Qed.

(** C10. When the explicit start and end resolve to one and the same stop,
    the operation behaves exactly as if no end had been given: the optimizer
    itself drops an end that coincides with the start, nothing is raised for
    a matrix that passes validation, and the returned route begins at the
    stop and, with two stops or more, ends elsewhere. *)
Theorem same_start_and_end_drops_end
    (set_iter : list nat -> list nat -> list nat)
    (set_iter_perm : forall u c, set_iter u c ≡ₚ c)
    similar fetch_table_matrix trip_ rows sid eid i :
  resolve_anchor (id_to_index rows) sid = Some i ->
  resolve_anchor (id_to_index rows) eid = Some i ->
  optimize_trip_route set_iter similar fetch_table_matrix trip_ rows sid eid
  = optimize_trip_route set_iter similar fetch_table_matrix trip_ rows sid
      IdNone
  /\ (forall durations s e,
        clamp (length durations) s = clamp (length durations) e ->
        optimize_order_from_durations set_iter durations (Some s) (Some e)
        = optimize_order_from_durations set_iter durations (Some s) None)
  /\ (forall durations cost sc ec,
        _to_cost_matrix durations = Ok cost ->
        validate_full_matrix cost = Ok tt ->
        i < length durations ->
        exists r,
          select_route set_iter durations (Some i) None sc ec = Ok r
          /\ head (order r) = Some i
          /\ (2 <= length durations -> last (order r) ≠ Some i)).
Proof.
  intros Hs He. split_and!.
  - unfold optimize_trip_route. rewrite Hs, He. simpl.
    by rewrite Nat.eqb_refl.
  - intros durations s e Hse. unfold optimize_order_from_durations.
    destruct (_to_cost_matrix durations) as [cost|err] eqn:Hc; [|done].
    simpl. destruct (validate_full_matrix cost); [|done]. simpl.
    case_match; [done|]. simpl.
    rewrite (_to_cost_matrix_shape0 _ _ Hc), Hse.
    by rewrite Nat.eqb_refl.
  - intros durations cost sc ec Hc Hv Hi.
    destruct (select_route_total set_iter durations (Some i) None sc ec cost
                Hc Hv) as [r Hr].
    exists r. split; [done|].
    pose proof (select_route_head set_iter set_iter_perm durations i None
                  sc ec r Hi Hr) as Hhead.
    split; [done|]. intros Hn.
    pose proof (select_route_perm set_iter set_iter_perm durations (Some i)
                  None sc ec r Hr) as Hperm.
    apply head_last_distinct; [| |done].
    + rewrite Hperm. apply NoDup_seq.
    + by rewrite Hperm, length_seq.
Qed.

Lemma same_start_and_end_drops_end_witness :
  optimize_trip_route (fun _ c => c) (fun _ _ => false) fetch4 no_preference
    rows4 (IdStr "30") (IdInt 30)
  = optimize_trip_route (fun _ c => c) (fun _ _ => false) fetch4 no_preference
      rows4 (IdStr "30") IdNone
  /\ optimize_trip_route (fun _ c => c) (fun _ _ => false) fetch4 no_preference
       rows4 (IdStr "30") (IdInt 30)
     = Ok {| optimized_order := [30; 10; 20; 40]%Z;
             total_distance_km := 50 # 1000;
             total_duration_min := 8 # 10;
             total_locations := 4 |}.
Proof.
  split.
  - apply (same_start_and_end_drops_end (fun _ c => c)
             (fun _ c => Permutation_refl c) (fun _ _ => false) fetch4
             no_preference rows4 (IdStr "30") (IdInt 30) 2).
    + reflexivity.
    + reflexivity.
  - vm_compute. reflexivity.
Defined.

(** C9, as the code has it. An anchor id that does not parse as an integer
    or that names no selected stop is not reported: the operation goes on
    exactly as if that anchor had not been supplied. *)
Theorem bad_anchor_is_ignored
    set_iter similar fetch_table_matrix trip_ rows x other :
  bad_anchor rows x ->
  optimize_trip_route set_iter similar fetch_table_matrix trip_ rows x other
  = optimize_trip_route set_iter similar fetch_table_matrix trip_ rows
      IdNone other
  /\ optimize_trip_route set_iter similar fetch_table_matrix trip_ rows other x
     = optimize_trip_route set_iter similar fetch_table_matrix trip_ rows
         other IdNone.
Proof.
  intros Hx. apply resolve_bad_anchor in Hx.
  unfold optimize_trip_route. by rewrite Hx.
Qed.

Lemma bad_anchor_is_ignored_witness :
  optimize_trip_route (fun _ c => c) (fun _ _ => false) fetch4 no_preference
    rows4 (IdStr "abc") (IdInt 40)
  = optimize_trip_route (fun _ c => c) (fun _ _ => false) fetch4 no_preference
      rows4 IdNone (IdInt 40)
  /\ optimize_trip_route (fun _ c => c) (fun _ _ => false) fetch4 no_preference
       rows4 (IdInt 40) (IdStr "abc")
     = optimize_trip_route (fun _ c => c) (fun _ _ => false) fetch4
         no_preference rows4 (IdInt 40) IdNone.
Proof.
  apply (bad_anchor_is_ignored (fun _ c => c) (fun _ _ => false) fetch4
           no_preference rows4 (IdStr "abc") (IdInt 40)).
  apply bad_malformed. reflexivity.
Defined.

(** C9 as stated fails: with the malformed start id ["abc"] and the unknown
    end id 99 the operation raises nothing and returns a route. *)
Lemma bad_anchor_not_reported :
  bad_anchor rows4 (IdStr "abc")
  /\ bad_anchor rows4 (IdInt 99)
  /\ optimize_trip_route (fun _ c => c) (fun _ _ => false) fetch4 no_preference
       rows4 (IdStr "abc") (IdInt 99)
     = Ok {| optimized_order := [20; 10; 40; 30]%Z;
             total_distance_km := 60 # 1000;
             total_duration_min := 10 # 10;
             total_locations := 4 |}.
Proof.
  split_and!.
  - apply bad_malformed. reflexivity.
  - apply bad_unknown_int. simpl. rewrite !not_elem_of_cons.
    split_and!; [done..|]. apply not_elem_of_nil.
  - vm_compute. reflexivity.
Qed.

(** ** The cost matrix validator *)

Lemma square_rows_equal matrix r rs :
  matrix = r :: rs -> square matrix ->
  forallb (fun r' => length r' =? length r) matrix = true.
Proof.
  intros Hm Hsq. apply forallb_forall. intros r' Hr'.
  apply Nat.eqb_eq. unfold square in Hsq. rewrite Forall_forall in Hsq.
  rewrite (Hsq r') by by apply list_elem_of_In.
  rewrite (Hsq r); [done|]. rewrite Hm. left.
Qed.

Lemma any_inf_has_missing matrix rows cols :
  any_inf (Arr2 rows cols (map (map cell_to_float) matrix)) = true
  <-> has_missing matrix.
Proof.
  simpl. unfold has_missing. rewrite existsb_exists, Exists_exists. split.
  - intros (row & Hrow & Hinf). apply in_map_iff in Hrow as (r & <- & Hr).
    exists r. split; [by apply list_elem_of_In|].
    apply existsb_exists in Hinf as (c & Hc & Hinf).
    apply in_map_iff in Hc as ([q|] & <- & Hc); [done|].
    by apply list_elem_of_In.
  - intros (r & Hr & Hnone). exists (map cell_to_float r). split.
    + apply in_map. by apply list_elem_of_In.
    + apply existsb_exists. exists Inf. split; [|done].
      apply list_elem_of_In in Hnone. by apply (in_map cell_to_float) in Hnone.
Qed.

(** The conversion keeps every given cell and puts [+inf] for a missing one. *)
Lemma _to_cost_matrix_cons r rs :
  _to_cost_matrix (r :: rs)
  = if forallb (fun r' => length r' =? length r) (r :: rs)
    then Ok (Arr2 (length (r :: rs)) (length r)
                  (map (map cell_to_float) (r :: rs)))
    else Raise (ValueError "setting an array element with a sequence").
Proof. done. Qed.

Lemma missing_cells_become_inf matrix cost a b r c :
  _to_cost_matrix matrix = Ok cost ->
  matrix !! a = Some r -> r !! b = Some c ->
  at2 cost a b = cell_to_float c.
Proof.
  destruct matrix as [|r0 rs]; [done|]. rewrite _to_cost_matrix_cons.
  destruct (forallb _ _); [|done]. intros [= <-] Ha Hb.
  change (nth b (nth a (map (map cell_to_float) (r0 :: rs)) []) (Fin 0)
          = cell_to_float c).
  rewrite (nth_lookup_Some (map (map cell_to_float) (r0 :: rs)) a []
             (map cell_to_float r)).
  - apply nth_lookup_Some. change (map cell_to_float r) with (cell_to_float <$> r).
    by rewrite list_lookup_fmap, Hb.
  - change (map (map cell_to_float) (r0 :: rs))
      with (map cell_to_float <$> (r0 :: rs)).
    by rewrite list_lookup_fmap, Ha.
Qed.

(** A raw matrix that is not square is refused. *)
Lemma non_square_is_refused matrix :
  ~ square matrix -> exists msg, validated_cost matrix = Raise (ValueError msg).
Proof.
  intros Hsq. unfold validated_cost.
  destruct matrix as [|r rs]; [by eexists|]. rewrite _to_cost_matrix_cons.
  destruct (forallb _ _) eqn:E; [|by eexists]. rewrite bind_Ok_l.
  unfold validate_full_matrix. cbn [ndim shape0 shape1 Nat.eqb negb orb].
  destruct (Nat.eqb_spec (length (r :: rs)) (length r)) as [Heq|Hne];
    [|by eexists].
  exfalso. apply Hsq. apply Forall_forall. intros r' Hr'.
  pose proof (proj1 (forallb_forall _ _) E r') as H.
  rewrite Heq. apply Nat.eqb_eq, H. by apply list_elem_of_In.
Qed.

(** A square matrix with at least one row is refused for unreachable pairs
    exactly when a cell is missing, and passes otherwise. *)
Lemma square_matrix_validation matrix :
  square matrix -> 0 < length matrix ->
  (has_missing matrix ->
   validated_cost matrix
   = Raise (ValueError "Cost matrix contains unreachable pairs (inf)."))
  /\ (~ has_missing matrix ->
      validated_cost matrix
      = Ok (Arr2 (length matrix) (length matrix)
                 (map (map cell_to_float) matrix))).
Proof.
  intros Hsq Hn. unfold validated_cost.
  destruct matrix as [|r rs]; [simpl in Hn; lia|].
  rewrite _to_cost_matrix_cons.
  rewrite (square_rows_equal (r :: rs) r rs eq_refl Hsq), bind_Ok_l.
  assert (length r = length (r :: rs)) as ->.
  { unfold square in Hsq. rewrite Forall_forall in Hsq. apply Hsq. left. }
  unfold validate_full_matrix. cbn [ndim shape0 shape1].
  rewrite !Nat.eqb_refl. cbn [negb orb].
  destruct (Nat.eqb_spec (length (r :: rs)) 0) as [|_]; [lia|].
  pose proof (any_inf_has_missing (r :: rs) (length (r :: rs))
                (length (r :: rs))) as Hinf.
  destruct (any_inf _) eqn:E.
  - split; [done|]. intros Hno. exfalso. by apply Hno, Hinf.
  - split; [|done]. intros Hm. apply Hinf in Hm. congruence.
Qed.

(** Validation passes for the square matrices with at least one row and no
    missing cell, and for no other raw matrix. *)
Lemma validation_passes_iff matrix :
  (exists cost, _to_cost_matrix matrix = Ok cost
                /\ validate_full_matrix cost = Ok tt)
  <-> (0 < length matrix /\ square matrix /\ ~ has_missing matrix).
Proof.
  split.
  - intros (cost & Hc & Hv).
    assert (validated_cost matrix = Ok cost) as Hok.
    { unfold validated_cost. rewrite Hc. simpl. by rewrite Hv. }
    destruct (decide (0 < length matrix)) as [Hn|Hn].
    + assert (square matrix) as Hsq.
      { destruct (decide (Forall (fun r => length r = length matrix) matrix))
          as [|Hns]; [done|].
        apply non_square_is_refused in Hns as [msg Hmsg]. congruence. }
      split_and!; [done..|]. intros Hm.
      apply (square_matrix_validation matrix Hsq Hn) in Hm. congruence.
    + destruct matrix; [|simpl in Hn; lia].
      injection Hc as <-. done.
  - intros (Hn & Hsq & Hno).
    destruct (square_matrix_validation matrix Hsq Hn) as [_ Hok].
    specialize (Hok Hno). unfold validated_cost in Hok.
    apply bind_Ok in Hok as (cost & Hc & Hok).
    apply bind_Ok in Hok as ([] & Hv & _). by exists cost.
Qed.

(** C6, at the input where the code departs from it. The raw empty matrix
    is refused as not square, by the validator and so by the optimizer,
    although a two-dimensional array of shape (0, 0) would pass
    [validate_full_matrix] and a 1x1 matrix without missing cell does pass. *)
Theorem empty_matrix_is_refused :
  validated_cost [] = Raise (ValueError "Cost matrix must be NxN")
  /\ (forall set_iter fixed_start_index fixed_end_index,
        optimize_order_from_durations set_iter [] fixed_start_index
          fixed_end_index
        = Raise (ValueError "Cost matrix must be NxN"))
  /\ validate_full_matrix (Arr2 0 0 []) = Ok tt
  /\ (forall q, validated_cost [[Some q]] = Ok (Arr2 1 1 [[Fin q]])).
Proof. done. Qed.

(** ** Tie-breaking in nearest neighbour *)

Lemma fle_flt_trans a b c : fle a b -> flt b c -> flt a c.
Proof. destruct a, b, c; simpl; try done. apply Qle_lt_trans. Qed.

Lemma feq_not_flt a b : feq a b -> ~ flt b a.
Proof.
  destruct a as [x|], b as [y|]; simpl; try tauto.
  intros Heq H. rewrite Heq in H. by apply Qlt_irrefl in H.
Qed.

(** [min] returns the first of the minimal elements: whatever precedes it
    costs strictly more, whatever follows it costs no less. *)
Lemma min_from_first {A} (key : A -> float) l best :
  exists l1 l2,
    best :: l = l1 ++ min_from key best l :: l2
    /\ Forall (fun y => flt (key (min_from key best l)) (key y)) l1
    /\ Forall (fun y => fle (key (min_from key best l)) (key y)) l2.
Proof.
  revert best. induction l as [|x l IH]; intros best.
  - exists [], []. by split_and!.
  - simpl. pose proof (min_from_le key l
                         (if fltb (key x) (key best) then x else best)) as Hle.
    destruct (IH (if fltb (key x) (key best) then x else best))
      as (l1 & l2 & Heq & H1 & H2).
    set (r := min_from key (if fltb (key x) (key best) then x else best) l)
      in *.
    destruct (fltb (key x) (key best)) eqn:E.
    + exists (best :: l1), l2. split_and!; [by rewrite Heq| |done].
      constructor; [|done]. apply Forall_cons in Hle as [Hx _].
      eapply fle_flt_trans; [exact Hx|]. by apply fltb_flt.
    + apply fltb_false_fle in E. destruct l1 as [|b l1].
      * injection Heq as Hb Hl. exists [], (x :: l). rewrite <- Hb.
        split_and!; [done|done|]. constructor; [done|].
        rewrite Hb. apply Forall_cons in Hle as [_ Hle]. done.
      * injection Heq as <- Hl. exists (best :: x :: l1), l2.
        apply Forall_cons in H1 as [Hb H1].
        split_and!; [by rewrite Hl| |done].
        constructor; [done|]. constructor; [|done].
        eapply flt_fle_trans; eauto.
Qed.

Lemma py_min_first {A} (key : A -> float) l x :
  py_min key l = Some x ->
  exists l1 l2,
    l = l1 ++ x :: l2
    /\ Forall (fun y => flt (key x) (key y)) l1
    /\ Forall (fun y => fle (key x) (key y)) l2.
Proof.
  destruct l as [|y l]; [done|]. intros [= <-]. apply min_from_first.
Qed.

(** In ascending iteration the first minimal element has the lowest index. *)
Lemma py_min_lowest_index (key : nat -> float) l x j :
  StronglySorted lt l -> py_min key l = Some x ->
  j ∈ l -> feq (key j) (key x) -> x <= j.
Proof.
  intros Hsort Hmin Hj Heq.
  apply py_min_first in Hmin as (l1 & l2 & -> & H1 & _).
  apply elem_of_app in Hj as [Hj|Hj].
  - rewrite Forall_forall in H1. specialize (H1 j Hj).
    by apply feq_not_flt in Heq.
  - apply StronglySorted_app_1_r in Hsort.
    apply elem_of_cons in Hj as [->|Hj]; [done|].
    apply StronglySorted_inv in Hsort as [_ Hall].
    rewrite Forall_forall in Hall. specialize (Hall j Hj). lia.
Qed.

Lemma StronglySorted_filter_lt (P : nat -> Prop) `{!forall x, Decision (P x)}
    (l : list nat) :
  StronglySorted lt l -> StronglySorted lt (filter P l).
Proof.
  induction 1 as [|x l Hs IH Hall]; [constructor|].
  destruct (decide (P x)).
  - rewrite filter_cons_True by done. constructor; [done|].
    apply Forall_forall. intros y Hy. apply list_elem_of_filter in Hy as [_ Hy].
    rewrite Forall_forall in Hall. by apply Hall.
  - by rewrite filter_cons_False.
Qed.

Lemma StronglySorted_range a b : StronglySorted lt (range a b).
Proof.
  unfold range. generalize (b - a). intros n. revert a.
  induction n as [|n IH]; intros a; simpl; constructor; [apply IH|].
  apply Forall_forall. intros j Hj. apply elem_of_seq in Hj. lia.
Qed.

Lemma nn_choices_sorted end_ unvisited :
  StronglySorted lt unvisited -> StronglySorted lt (nn_choices end_ unvisited).
Proof.
  intros Hs. unfold nn_choices. destruct end_; [|done].
  case_match; [|done]. by apply StronglySorted_filter_lt.
Qed.

Lemma choices_at_sorted cost start end_ path p :
  StronglySorted lt (choices_at cost start end_ path p).
Proof.
  apply nn_choices_sorted, StronglySorted_filter_lt, StronglySorted_range.
Qed.

Lemma insert_by_slot_perm e l : insert_by_slot e l ≡ₚ e :: l.
Proof.
  induction l as [|y l IH]; cbn [insert_by_slot]; [done|].
  destruct (e.1 <? y.1); [done|]. rewrite IH. apply Permutation_swap.
Qed.

Lemma by_slot_perm table : by_slot table ≡ₚ table.
Proof.
  unfold by_slot. induction table as [|e l IH]; cbn [foldr]; [done|].
  by rewrite insert_by_slot_perm, IH.
Qed.

Lemma cpython_iter_perm u l : cpython_iter u l ≡ₚ l.
Proof.
  unfold cpython_iter. case_match; [done|].
  rewrite by_slot_perm.
  change (map snd (map ?f l)) with (snd <$> (f <$> l)).
  rewrite <- list_fmap_compose. by rewrite list_fmap_id.
Qed.

Section Trace.

Variable set_iter : list nat -> list nat -> list nat.
Hypothesis set_iter_perm : forall u c, set_iter u c ≡ₚ c.

Lemma nn_loop_trace fuel cost end_ unvisited order current :
  NoDup unvisited -> length unvisited <= fuel ->
  exists tl,
    nn_loop set_iter fuel cost end_ unvisited order current = order ++ tl
    /\ nn_steps set_iter cost end_ unvisited current tl.
Proof.
  revert unvisited order current.
  induction fuel as [|fuel IH]; intros unvisited order current Hnd Hlen.
  - destruct unvisited; [|simpl in Hlen; lia].
    exists []. simpl. by rewrite app_nil_r.
  - simpl. destruct unvisited as [|u us] eqn:Eu.
    { exists []. by rewrite app_nil_r. }
    rewrite <- Eu in *.
    assert (Hne : unvisited ≠ []) by (rewrite Eu; done).
    pose proof (nn_choices_nonempty end_ unvisited Hnd Hne) as Hch.
    apply (set_iter_nonempty set_iter set_iter_perm unvisited) in Hch.
    destruct (py_min_is_Some (fun j => at2 cost current j) _ Hch)
      as [next_node Hmin].
    rewrite Hmin.
    pose proof (py_min_elem _ _ _ Hmin) as Hin.
    apply (proj1 (set_iter_elem set_iter set_iter_perm _ _ _)) in Hin.
    pose proof (nn_choices_subset _ _ _ Hin) as Hin'.
    pose proof (filter_ne_length next_node unvisited Hnd Hin') as Hl.
    destruct (IH (filter (fun j => j ≠ next_node) unvisited)
                 (order ++ [next_node]) next_node)
      as (tl & Heq & Htl).
    { by apply NoDup_filter. }
    { lia. }
    exists (next_node :: tl). rewrite Heq, <- app_assoc. by split.
Qed.

(** The round that extends a path of [p + 1] nodes chose among the nodes not
    yet on the path. *)
Lemma nn_steps_at cost end_ tl : forall unvisited current p cur nxt,
  nn_steps set_iter cost end_ unvisited current tl ->
  (current :: tl) !! p = Some cur -> (current :: tl) !! S p = Some nxt ->
  py_min (fun j => at2 cost cur j)
         (set_iter (filter (fun j => j ∉ take p tl) unvisited)
                   (nn_choices end_
                      (filter (fun j => j ∉ take p tl) unvisited)))
  = Some nxt.
Proof.
  induction tl as [|x tl IH]; intros unvisited current p cur nxt Hsteps Hp Hn.
  - destruct p; done.
  - destruct Hsteps as [Hmin Hsteps]. destruct p as [|p].
    + injection Hp as <-. injection Hn as <-.
      rewrite <- Hmin.
      rewrite (filter_all (fun j => j ∉ take 0 (x :: tl)) unvisited); [done|].
      intros j. simpl. apply not_elem_of_nil.
    + specialize (IH _ _ p cur nxt Hsteps Hp Hn). rewrite <- IH.
      assert (filter (fun j => j ∉ take (S p) (x :: tl)) unvisited
              = filter (fun j => j ∉ take p tl)
                       (filter (fun j => j ≠ x) unvisited)) as ->; [|done].
      rewrite list_filter_filter. apply list_filter_iff.
      intros j. simpl. rewrite not_elem_of_cons. tauto.
Qed.

Lemma nearest_neighbor_path_trace cost start end_ :
  0 < shape0 cost ->
  exists tl,
    nearest_neighbor_path set_iter cost start end_
      = clamp (shape0 cost) start :: tl
    /\ nn_steps set_iter cost
         (effective_end (shape0 cost) (clamp (shape0 cost) start) end_)
         (filter (fun j => j ≠ clamp (shape0 cost) start)
                 (range 0 (shape0 cost)))
         (clamp (shape0 cost) start) tl.
Proof.
  intros Hn. unfold nearest_neighbor_path.
  destruct (Nat.eqb_spec (shape0 cost) 0) as [|_]; [lia|].
  set (n := shape0 cost) in *. set (s := clamp n start).
  match goal with |- context [nn_loop _ _ _ ?e ?u _ _] =>
    destruct (nn_loop_trace (length u) cost e u [s] s) as (tl & Heq & Hsteps);
    [by apply NoDup_filter, NoDup_seq|done|]
  end.
  exists tl. split; [done|].
  unfold effective_end. by destruct end_.
Qed.

Lemma nearest_neighbor_path_steps cost start end_ p cur nxt :
  0 < shape0 cost ->
  nearest_neighbor_path set_iter cost start end_ !! p = Some cur ->
  nearest_neighbor_path set_iter cost start end_ !! S p = Some nxt ->
  py_min (fun j => at2 cost cur j)
         (set_iter (unvisited_at cost
                      (nearest_neighbor_path set_iter cost start end_) p)
                   (choices_at cost start end_
                      (nearest_neighbor_path set_iter cost start end_) p))
  = Some nxt.
Proof.
  intros Hn. unfold choices_at, unvisited_at.
  destruct (nearest_neighbor_path_trace cost start end_ Hn)
    as (tl & -> & Hsteps).
  intros Hp Hnx.
  rewrite <- (nn_steps_at cost _ tl _ _ p cur nxt Hsteps Hp Hnx).
  assert (filter (fun j => j ∉ take (S p) (clamp (shape0 cost) start :: tl))
                 (range 0 (shape0 cost))
          = filter (fun j => j ∉ take p tl)
                   (filter (fun j => j ≠ clamp (shape0 cost) start)
                           (range 0 (shape0 cost)))) as ->; [|done].
  rewrite list_filter_filter. apply list_filter_iff.
  intros j. simpl. rewrite not_elem_of_cons. tauto.
Qed.

End Trace.

Lemma fle_antisym a b : fle a b -> fle b a -> feq a b.
Proof.
  destruct a as [x|], b as [y|]; simpl; try done. apply Qle_antisym.
Qed.

(** Where no two elements have the same key, [min] does not depend on the
    order of the elements. *)
Lemma py_min_order_free {A} (key : A -> float) l1 l2 :
  l1 ≡ₚ l2 ->
  (forall x y, x ∈ l1 -> y ∈ l1 -> feq (key x) (key y) -> x = y) ->
  py_min key l1 = py_min key l2.
Proof.
  intros Hperm Huniq.
  destruct (py_min key l1) as [x|] eqn:E1, (py_min key l2) as [y|] eqn:E2.
  - f_equal. pose proof (py_min_elem _ _ _ E1) as Hx.
    pose proof (py_min_elem _ _ _ E2) as Hy. rewrite <- Hperm in Hy.
    apply Huniq; [done..|]. apply fle_antisym.
    + apply py_min_le in E1. rewrite Forall_forall in E1. by apply E1.
    + apply py_min_le in E2. rewrite Forall_forall in E2. apply E2.
      by rewrite <- Hperm.
  - destruct l2; [|done]. apply Permutation_nil_r in Hperm.
    by rewrite Hperm in E1.
  - destruct l1; [|done]. symmetry in Hperm.
    apply Permutation_nil_r in Hperm. by rewrite Hperm in E2.
  - done.
Qed.

Section TwoOrders.

Variables set_iter set_iter' : list nat -> list nat -> list nat.
Hypothesis set_iter_perm : forall u c, set_iter u c ≡ₚ c.
Hypothesis set_iter_perm' : forall u c, set_iter' u c ≡ₚ c.

Lemma nn_loop_order_free cost end_ fuel : forall unvisited order current,
  no_ties cost ->
  current < shape0 cost ->
  (forall j, j ∈ unvisited -> j < shape0 cost) ->
  nn_loop set_iter' fuel cost end_ unvisited order current
  = nn_loop set_iter fuel cost end_ unvisited order current.
Proof.
  induction fuel as [|fuel IH]; intros unvisited order current Hno Hcur Hlt;
    [done|].
  cbn [nn_loop]. destruct unvisited as [|u us] eqn:Eu; [done|].
  rewrite <- Eu in *.
  rewrite (py_min_order_free (fun j => at2 cost current j)
             (set_iter' unvisited (nn_choices end_ unvisited))
             (set_iter unvisited (nn_choices end_ unvisited))).
  - destruct (py_min _ _) as [next_node|] eqn:E; [|done].
    apply py_min_elem in E. rewrite set_iter_perm in E.
    apply nn_choices_subset in E.
    apply IH; [done|by apply Hlt|]. intros j Hj.
    apply list_elem_of_filter in Hj as [_ Hj]. by apply Hlt.
  - by rewrite set_iter_perm, set_iter_perm'.
  - intros x y Hx Hy Heq. rewrite set_iter_perm' in Hx, Hy.
    apply nn_choices_subset in Hx, Hy.
    destruct (decide (x = y)) as [|Hne]; [done|].
    by destruct (Hno current x y Hcur (Hlt x Hx) (Hlt y Hy) Hne).
Qed.

Lemma nearest_neighbor_path_order_free cost start end_ :
  no_ties cost ->
  nearest_neighbor_path set_iter' cost start end_
  = nearest_neighbor_path set_iter cost start end_.
Proof.
  intros Hno. unfold nearest_neighbor_path.
  destruct (Nat.eqb_spec (shape0 cost) 0) as [|Hn]; [done|].
  apply nn_loop_order_free; [done|unfold clamp; lia|]. intros j Hj.
  apply list_elem_of_filter in Hj as [_ Hj]. apply range_elem in Hj. lia.
Qed.

Lemma optimize_order_free durations_s fixed_start_index fixed_end_index
    cost :
  _to_cost_matrix durations_s = Ok cost ->
  no_ties cost ->
  optimize_order_from_durations set_iter' durations_s fixed_start_index
    fixed_end_index
  = optimize_order_from_durations set_iter durations_s fixed_start_index
      fixed_end_index.
Proof.
  intros Hc Hno. unfold optimize_order_from_durations. rewrite Hc.
  rewrite !bind_Ok_l. destruct (validate_full_matrix cost); [|done].
  rewrite !bind_Ok_l. destruct (shape0 cost <=? 1); [done|].
  match goal with
  | |- mbind _ ?m = mbind _ ?m => destruct m as [start_fixed|err]; [|done]
  end.
  rewrite !bind_Ok_l. cbv zeta.
  by rewrite nearest_neighbor_path_order_free.
Qed.

End TwoOrders.

Lemma choose_central_start_minimal cost j :
  wf_ndarray cost -> j < shape0 cost ->
  fle (nth (choose_central_start cost) (row_sums cost) (Fin 0))
      (nth j (row_sums cost) (Fin 0)).
Proof.
  intros Hwf Hj. unfold choose_central_start.
  destruct (Nat.eqb_spec (shape0 cost) 0); [lia|].
  unfold argmin.
  assert (j ∈ range 0 (length (row_sums cost))) as Hin.
  { apply range_elem. split; [lia|].
    destruct cost as [len|rows cols cells]; simpl in *; [lia|].
    rewrite length_map. lia. }
  destruct (py_min _ _) as [s|] eqn:E; cbn [default from_option id].
  - apply py_min_le in E. rewrite Forall_forall in E. by apply E.
  - destruct (range 0 (length (row_sums cost))); [|done].
    by apply elem_of_nil in Hin.
Qed.

Lemma choose_central_start_lowest_index cost j :
  wf_ndarray cost -> j < shape0 cost ->
  feq (nth j (row_sums cost) (Fin 0))
      (nth (choose_central_start cost) (row_sums cost) (Fin 0)) ->
  choose_central_start cost <= j.
Proof.
  intros Hwf Hj. unfold choose_central_start.
  destruct (Nat.eqb_spec (shape0 cost) 0); [lia|].
  unfold argmin.
  destruct (py_min _ _) as [s|] eqn:E; simpl; [|lia].
  intros Heq. eapply (py_min_lowest_index _ _ s j); [|exact E| |exact Heq].
  - apply StronglySorted_range.
  - apply range_elem. split; [lia|].
    destruct cost as [len|rows cols cells]; simpl in *; [lia|].
    rewrite length_map. lia.
Qed.

Lemma matrix4_no_ties :
  no_ties (Arr2 4 4 (map (map cell_to_float) matrix4)).
Proof.
  intros cur j k Hcur Hj Hk Hne. cbn [shape0] in *.
  destruct cur as [|[|[|[|cur]]]]; [| | | |lia];
    (destruct j as [|[|[|[|j]]]]; [| | | |lia]);
    (destruct k as [|[|[|[|k]]]]; [| | | |lia]);
    try done; vm_compute; discriminate.
Qed.




(** ** Day packing *)

Lemma unstretched_active_snoc items it :
  unstretched_active (items ++ [it])
  = (unstretched_active items + (item_travel it + item_visit it))%Q.
Proof.
  unfold unstretched_active, sumQ. by rewrite map_app, fold_left_app.
Qed.

Lemma Qgtb_false x y : Qgtb x y = false -> (x <= y)%Q.
Proof.
  unfold Qgtb. rewrite negb_false_iff. apply Qle_bool_iff.
Qed.

Section Packing.

Variable pace_key : string.
Variable seg_map : gmap (Z * Z) Q.
Variable target : Z.

(** What the inner loop leaves behind: the stops it took come off the front
    of the queue in order; a day that starts empty takes a stop if there is
    one; the running total is the travel and visit time of the stops taken;
    and with two stops or more it is within target plus tolerance. *)
Lemma pack_day_spec queue : forall locs active travel visit prev,
  let st := pack_day pace_key seg_map target queue locs active travel visit
              prev in
  map item_loc (current_day_locs st) ++ temp_locs_queue st
    = map item_loc locs ++ queue
  /\ (locs ≠ [] \/ queue ≠ [] -> current_day_locs st ≠ [])
  /\ (active = unstretched_active locs ->
      current_day_active st = unstretched_active (current_day_locs st))
  /\ ((2 <= length locs ->
       (active <= inject_Z (target + tolerance_min))%Q) ->
      2 <= length (current_day_locs st) ->
      (current_day_active st <= inject_Z (target + tolerance_min))%Q)
  /\ (locs = [] -> queue ≠ [] ->
      length (temp_locs_queue st) < length queue)
  /\ length (temp_locs_queue st) <= length queue.
Proof.
  induction queue as [|l rest IH]; intros locs active travel visit prev.
  - simpl. rewrite app_nil_r. split_and!; try done.
    intros [H|H]; done.
  - cbn [pack_day].
    set (travel_min := match prev with
                       | Some p => default 0%Q (seg_map !! (p, loc_id l))
                       | None => 0%Q
                       end).
    set (visit_min := inject_Z (_estimate_visit_min pace_key (loc_category l))).
    destruct (negb (bool_decide (locs = []))
              && Qgtb (active + (travel_min + visit_min))
                      (inject_Z (target + tolerance_min))) eqn:E.
    + apply andb_true_iff in E as [Hne _].
      apply negb_true_iff, bool_decide_eq_false in Hne.
      cbn [temp_locs_queue current_day_locs current_day_active].
      by split_and!.
    + specialize (IH (locs ++ [{| item_loc := l; item_travel := travel_min;
                                  item_visit := visit_min |}])
                     (active + (travel_min + visit_min))%Q
                     (travel + travel_min)%Q (visit + visit_min)%Q
                     (Some (loc_id l))).
      cbv zeta in IH. destruct IH as (Hq & Hne & Hact & Hbound & _ & Hlen).
      split_and!.
      * rewrite Hq, map_app, <- app_assoc. done.
      * intros _. apply Hne. left. by destruct locs.
      * intros ->. apply Hact. by rewrite unstretched_active_snoc.
      * intros Hpre. apply Hbound. intros H2.
        rewrite length_app in H2. simpl in H2.
        apply andb_false_iff in E as [E|E].
        -- apply negb_false_iff, bool_decide_eq_true in E. subst locs.
           simpl in H2. lia.
        -- by apply Qgtb_false.
      * intros _ _. simpl. lia.
      * simpl. lia.
Qed.

(** The packed days split the queue, in order, into non-empty days whose
    running totals are their travel and visit time and which, unless they
    hold a single stop, stay within target plus tolerance. *)
Lemma packed_days_spec fuel : forall queue prev,
  length queue <= fuel ->
  concat (map (fun st => map item_loc (current_day_locs st))
              (packed_days fuel pace_key seg_map target queue prev))
    = queue
  /\ Forall (fun st =>
       current_day_locs st ≠ []
       /\ current_day_active st = unstretched_active (current_day_locs st)
       /\ (2 <= length (current_day_locs st) ->
           (current_day_active st <= inject_Z (target + tolerance_min))%Q))
       (packed_days fuel pace_key seg_map target queue prev).
Proof.
  induction fuel as [|fuel IH]; intros queue prev Hlen.
  - destruct queue; [|simpl in Hlen; lia]. by split.
  - cbn [packed_days]. destruct queue as [|l rest] eqn:Eq; [by split|].
    rewrite <- Eq in *.
    pose proof (pack_day_spec queue [] 0%Q 0%Q 0%Q prev) as Hspec.
    cbv zeta in Hspec.
    set (st := pack_day pace_key seg_map target queue [] 0 0 0 prev) in *.
    destruct Hspec as (Hq & Hne & Hact & Hbound & Hlt & _).
    assert (queue ≠ []) as Hqne by (rewrite Eq; done).
    specialize (Hne (or_intror Hqne)). specialize (Hlt eq_refl Hqne).
    rewrite bool_decide_eq_false_2 by done.
    destruct (IH (temp_locs_queue st) (prev_loc_id st)) as [Hcat Hall];
      [lia|].
    split.
    + cbn [app map concat]. by rewrite Hcat, Hq.
    + constructor; [|done]. split_and!; [done|by apply Hact|].
      apply Hbound. simpl. lia.
Qed.

Lemma finalize_day_locations number st :
  map planned (locations (finalize_day target number st))
  = map item_loc (current_day_locs st).
Proof.
  unfold finalize_day. cbn [locations].
  destruct (Qgtb _ 15 && Qgtb _ 0); cbn [fst snd];
    rewrite !map_map; by apply map_ext.
Qed.

(** The loop appends to [days_global] the packed days, stretched and
    numbered on. *)
Lemma days_loop_packed fuel : forall queue prev days_global,
  days_loop fuel pace_key seg_map target queue prev days_global
  = days_global
    ++ imap (fun i st =>
               finalize_day target (length days_global + i + 1) st)
            (packed_days fuel pace_key seg_map target queue prev).
Proof.
  induction fuel as [|fuel IH]; intros queue prev days_global.
  - simpl. by rewrite app_nil_r.
  - cbn [days_loop packed_days]. destruct queue as [|l rest] eqn:Eq.
    { simpl. by rewrite app_nil_r. }
    rewrite <- Eq.
    set (st := pack_day pace_key seg_map target queue [] 0 0 0 prev).
    rewrite IH. destruct (bool_decide (current_day_locs st = [])).
    + done.
    + cbn [app imap]. rewrite <- app_assoc. cbn [app].
      rewrite Nat.add_0_r. do 2 f_equal.
      apply imap_ext. intros i x _. simpl. rewrite length_app. simpl.
      f_equal. lia.
Qed.

End Packing.

Lemma equalize_spec target days :
  concat (map (fun d => map planned (locations d)) (equalize target days))
    = concat (map (fun d => map planned (locations d)) days)
  /\ (Forall (fun d => locations d ≠ []) days ->
      Forall (fun d => locations d ≠ []) (equalize target days))
  /\ take (length days - 2) (equalize target days)
     = take (length days - 2) days.
Proof.
  unfold equalize.
  destruct (reverse days) as [|last_ [|prev earlier]] eqn:E; [done..|].
  destruct ((length (locations last_) =? 1) && (2 <? length (locations prev))
            && Qltb (active_min last_) (inject_Z target * (1 # 2))) eqn:C;
    [|done].
  destruct (reverse (locations prev)) as [|shifted kept] eqn:Ek; [done|].
  assert (days = reverse earlier ++ [prev; last_]) as ->.
  { rewrite <- (reverse_involutive days), E, !reverse_cons, <- app_assoc.
    done. }
  assert (locations prev = reverse kept ++ [shifted]) as Hprev.
  { by rewrite <- (reverse_involutive (locations prev)), Ek, reverse_cons. }
  apply andb_true_iff in C as [C _]. apply andb_true_iff in C as [_ C].
  apply Nat.ltb_lt in C.
  split_and!.
  - rewrite !map_app, !concat_app. f_equal. cbn [map concat locations].
    rewrite Hprev, map_app, !app_nil_r, <- app_assoc. done.
  - rewrite !Forall_app. intros [He Hl]. split; [done|].
    repeat constructor; cbn [locations recalculate]; [|done].
    rewrite Hprev, length_app, length_reverse in C. simpl in C.
    intros Hnil. apply (f_equal length) in Hnil.
    rewrite length_reverse in Hnil. simpl in Hnil. lia.
  - rewrite length_app. simpl.
    replace (length (reverse earlier) + 2 - 2) with (length (reverse earlier))
      by lia.
    by rewrite !take_app_length.
Qed.

Lemma group_append_days groups name d :
  concat (map snd (group_append groups name d))
  ≡ₚ concat (map snd groups) ++ [d].
Proof.
  induction groups as [|[name' ds] groups IH]; [done|].
  cbn [group_append]. destruct (String.eqb name' name); cbn [map concat snd].
  - rewrite <- !app_assoc. f_equiv. apply Permutation_app_comm.
  - by rewrite IH, app_assoc.
Qed.

Lemma group_by_region_days days :
  concat (map snd (group_by_region days)) ≡ₚ days.
Proof.
  unfold group_by_region.
  assert (forall groups,
            concat (map snd
                      (foldl (fun groups d =>
                                group_append groups (region_name_of d) d)
                             groups days))
            ≡ₚ concat (map snd groups) ++ days) as H; [|apply (H [])].
  induction days as [|d days IH]; intros groups; cbn [foldl].
  - by rewrite app_nil_r.
  - by rewrite IH, group_append_days, <- app_assoc.
Qed.

Lemma build_trip_itinerary_days all_locs segments pace_ :
  all_days (build_trip_itinerary all_locs segments pace_)
  ≡ₚ equalize (day_budget_min (pace_key_of pace_))
              (built_days all_locs segments pace_).
Proof.
  unfold all_days, build_trip_itinerary, built_days, packing_of.
  destruct all_locs as [|l rest]; [done|].
  cbn [regions]. rewrite group_by_region_days, days_loop_packed.
  cbn [app length]. done.
Qed.

Lemma finalized_locations target sts : forall number : nat -> nat,
  concat (map (fun d => map planned (locations d))
              (imap (fun i st => finalize_day target (number i) st) sts))
    = concat (map (fun st => map item_loc (current_day_locs st)) sts)
  /\ (Forall (fun st => current_day_locs st ≠ []) sts ->
      Forall (fun d => locations d ≠ [])
             (imap (fun i st => finalize_day target (number i) st) sts)).
Proof.
  induction sts as [|st sts IH]; intros number; [by split|].
  cbn [imap map concat].
  destruct (IH (fun i => number (S i))) as [Heq Hne]. split.
  - rewrite finalize_day_locations. f_equal. exact Heq.
  - intros Hall. apply Forall_cons in Hall as [Hst Hall]. constructor.
    + intros Hnil. apply Hst.
      pose proof (finalize_day_locations target (number 0) st) as Hl.
      rewrite Hnil in Hl. simpl in Hl. symmetry in Hl.
      by apply map_eq_nil in Hl.
    + by apply Hne.
Qed.

Lemma stop_count_locations days :
  stop_count days
  = length (concat (map (fun d => map planned (locations d)) days)).
Proof.
  unfold stop_count. induction days as [|d days IH]; [done|].
  cbn [map sum_list concat]. by rewrite length_app, length_map, IH.
Qed.



(** * Further properties of the code *)

(** ** optimizer.py *)

Lemma clamp_idem n x : clamp n (Z.of_nat (clamp n x)) = clamp n x.
Proof. unfold clamp. lia. Qed.

(** X1. The optimizer does not reject an anchor index below 0 or beyond
    [N - 1]: it proceeds exactly as with the nearest valid index. *)
Theorem out_of_range_anchors_are_clamped
    set_iter durations_s fixed_start_index fixed_end_index :
  optimize_order_from_durations set_iter durations_s
    fixed_start_index fixed_end_index
  = optimize_order_from_durations set_iter durations_s
      (option_map (fun x => Z.of_nat (clamp (length durations_s) x))
                  fixed_start_index)
      (option_map (fun x => Z.of_nat (clamp (length durations_s) x))
                  fixed_end_index).
Proof.
  unfold optimize_order_from_durations.
  destruct (_to_cost_matrix durations_s) as [cost|err] eqn:Hc; [|done].
  rewrite !bind_Ok_l. destruct (validate_full_matrix cost); [|done].
  rewrite !bind_Ok_l. rewrite (_to_cost_matrix_shape0 _ _ Hc).
  destruct (length durations_s <=? 1); [done|].
  destruct fixed_start_index as [s|], fixed_end_index as [e|]; simpl;
    by rewrite ?clamp_idem.
Qed.

Lemma flt_gain_trans r c bc :
  flt (fadd r (Fin eps)) c -> flt (fadd c (Fin eps)) bc ->
  flt (fadd r (Fin eps)) bc.
Proof.
  destruct r as [r|], c as [c|], bc as [bc|]; simpl; try done.
  unfold eps. lra.
Qed.

Lemma two_opt_loop_gains cost start_i n fuel : forall best,
  two_opt_loop fuel cost best (path_cost cost best) start_i n = best
  \/ flt (fadd (path_cost cost
                  (two_opt_loop fuel cost best (path_cost cost best)
                     start_i n))
               (Fin eps))
         (path_cost cost best).
Proof.
  induction fuel as [|fuel IH]; intros best; [by left|].
  cbn [two_opt_loop].
  destruct (scan_i cost best (path_cost cost best) n
              (range start_i (n - 2))) as [[candidate cand_cost]|] eqn:E;
    [|by left].
  apply scan_i_spec in E as (i & k & _ & _ & _ & -> & Hlt).
  right. destruct (IH candidate) as [->|Hgain]; [done|].
  by eapply flt_gain_trans.
Qed.


Lemma at2_finite matrix cost a b :
  _to_cost_matrix matrix = Ok cost -> any_inf cost = false ->
  exists q, at2 cost a b = Fin q /\ (non_negative matrix -> (0 <= q)%Q).
Proof.
  destruct matrix as [|r0 rs]; [intros [= <-] _; by exists 0%Q|].
  rewrite _to_cost_matrix_cons. destruct (forallb _ _); [|done].
  intros [= <-] Hinf.
  change (existsb (existsb is_inf) (map (map cell_to_float) (r0 :: rs))
          = false) in Hinf.
  change (exists q,
            nth b (nth a (map (map cell_to_float) (r0 :: rs)) []) (Fin 0)
            = Fin q
            /\ (non_negative (r0 :: rs) -> (0 <= q)%Q)).
  destruct (decide (a < length (r0 :: rs))) as [Ha|Ha].
  - destruct (lookup_lt_is_Some_2 (r0 :: rs) a Ha) as [row Hrow].
    rewrite (nth_lookup_Some (map (map cell_to_float) (r0 :: rs)) a []
               (map cell_to_float row)).
    2: { change (map (map cell_to_float) (r0 :: rs))
           with (map cell_to_float <$> (r0 :: rs)).
         by rewrite list_lookup_fmap, Hrow. }
    destruct (decide (b < length row)) as [Hb|Hb].
    + destruct (lookup_lt_is_Some_2 row b Hb) as [c Hc].
      rewrite (nth_lookup_Some (map cell_to_float row) b (Fin 0)
                 (cell_to_float c)).
      2: { change (map cell_to_float row) with (cell_to_float <$> row).
           by rewrite list_lookup_fmap, Hc. }
      destruct c as [q|].
      * exists q. split; [done|]. intros Hnn.
        unfold non_negative in Hnn. rewrite Forall_forall in Hnn.
        specialize (Hnn row (list_elem_of_lookup_2 _ _ _ Hrow)).
        rewrite Forall_forall in Hnn.
        apply (Hnn (Some q) (list_elem_of_lookup_2 _ _ _ Hc)).
      * exfalso. apply not_true_iff_false in Hinf. apply Hinf.
        apply existsb_exists. exists (map cell_to_float row). split.
        -- apply in_map. apply list_elem_of_In.
           by eapply list_elem_of_lookup_2.
        -- apply existsb_exists. exists Inf. split; [|done].
           apply (in_map cell_to_float row None). apply list_elem_of_In.
           by eapply list_elem_of_lookup_2.
    + exists 0%Q. split; [|done]. apply nth_overflow.
      rewrite length_map. lia.
  - exists 0%Q. split; [|done]. rewrite (nth_overflow _ []).
    + by destruct b.
    + rewrite length_map. lia.
Qed.

Lemma path_cost_finite matrix cost order :
  _to_cost_matrix matrix = Ok cost -> any_inf cost = false ->
  exists q, path_cost cost order = Fin q
            /\ (non_negative matrix -> (0 <= q)%Q).
Proof.
  intros Hc Hinf. unfold path_cost.
  destruct (length order <=? 1); [by exists 0%Q|].
  assert (forall edges q0,
            exists q,
              fold_left (fun total ab => fadd total (at2 cost ab.1 ab.2))
                        edges (Fin q0) = Fin q
              /\ (non_negative matrix -> (0 <= q0)%Q -> (0 <= q)%Q)) as H.
  { induction edges as [|[a b] edges IH]; intros q0; [by exists q0|].
    cbn [fold_left fst snd].
    destruct (at2_finite matrix cost a b Hc Hinf) as (x & -> & Hx).
    cbn [fadd]. destruct (IH (q0 + x)%Q) as (q & -> & Hq).
    exists q. split; [done|]. intros Hnn H0. apply Hq; [done|].
    specialize (Hx Hnn). lra. }
  destruct (H (zip order (tail order)) 0%Q) as (q & -> & Hq).
  exists q. split; [done|]. intros Hnn. apply Hq; [done|lra].
Qed.

Lemma validated_no_inf cost :
  validate_full_matrix cost = Ok tt -> 0 < shape0 cost ->
  any_inf cost = false.
Proof.
  unfold validate_full_matrix. destruct (_ || _); [done|].
  destruct (Nat.eqb_spec (shape0 cost) 0) as [Hz|_]; [lia|].
  by destruct (any_inf cost).
Qed.



(** ** trips_service.py: the route selector and the optimize operation *)

Section SoftCandidates.

Variable set_iter : list nat -> list nat -> list nat.

Lemma soft_step_Raise durations hs he err l :
  foldl (soft_step set_iter durations hs he) (Raise err) l = Raise err.
Proof. induction l as [|se l IH]; [done|]. exact IH. Qed.

Lemma soft_step_cases durations hs he best_soft s e :
  (tried hs he s e = false
   /\ soft_step set_iter durations hs he (Ok best_soft) (s, e)
      = Ok best_soft)
  \/ (tried hs he s e = true
      /\ ((exists err,
             optimize_order_from_durations set_iter durations
               (option_map Z.of_nat (or_else hs s))
               (option_map Z.of_nat (or_else he e)) = Raise err
             /\ soft_step set_iter durations hs he (Ok best_soft) (s, e)
                = Raise err)
          \/ (exists cand kept,
                optimize_order_from_durations set_iter durations
                  (option_map Z.of_nat (or_else hs s))
                  (option_map Z.of_nat (or_else he e)) = Ok cand
                /\ soft_step set_iter durations hs he (Ok best_soft) (s, e)
                   = Ok (Some kept)
                /\ fle (total_cost kept) (total_cost cand)
                /\ (forall b, best_soft = Some b ->
                               fle (total_cost kept) (total_cost b))))).
Proof.
  unfold soft_step, tried. rewrite bind_Ok_l. cbn [fst snd].
  destruct (bool_decide (s = None) && bool_decide (e = None)); [by left|].
  destruct (same_index s e); [by left|].
  destruct (same_index (or_else hs s) (or_else he e)); [by left|].
  right. split; [done|].
  destruct (optimize_order_from_durations set_iter durations _ _)
    as [cand|err]; [right|left; by exists err].
  rewrite bind_Ok_l. destruct best_soft as [soft|].
  - destruct (fltb (total_cost cand) (total_cost soft)) eqn:E.
    + exists cand, cand. split_and!; [done|done|apply fle_refl|].
      intros b [= <-]. apply flt_fle. by apply fltb_flt.
    + exists cand, soft. split_and!; [done|done| |].
      * by apply fltb_false_fle.
      * intros b [= <-]. apply fle_refl.
  - exists cand, cand. split_and!; [done|done|apply fle_refl|done].
Qed.

Lemma foldl_soft_step_min durations hs he l : forall best_soft final,
  foldl (soft_step set_iter durations hs he) (Ok best_soft) l = Ok final ->
  (forall b, best_soft = Some b ->
     exists b', final = Some b' /\ fle (total_cost b') (total_cost b))
  /\ (forall s e, (s, e) ∈ l -> tried hs he s e = true ->
        exists cand soft,
          optimize_order_from_durations set_iter durations
            (option_map Z.of_nat (or_else hs s))
            (option_map Z.of_nat (or_else he e)) = Ok cand
          /\ final = Some soft
          /\ fle (total_cost soft) (total_cost cand)).
Proof.
  induction l as [|[s e] l IH]; intros best_soft final H.
  - injection H as <-. split.
    + intros b ->. exists b. split; [done|apply fle_refl].
    + intros s e Hin. by apply elem_of_nil in Hin.
  - cbn [foldl] in H.
    destruct (soft_step_cases durations hs he best_soft s e)
      as [[Hskip Hstep]|[Htried [(err & _ & Hstep)
                                |(cand & kept & Hopt & Hstep & Hkc & Hkb)]]];
      rewrite Hstep in H.
    + destruct (IH _ _ H) as [Hmono Hall]. split; [done|].
      intros s' e' Hin Ht. apply elem_of_cons in Hin as [[= -> ->]|Hin];
        [congruence|by apply Hall].
    + by rewrite soft_step_Raise in H.
    + destruct (IH _ _ H) as [Hmono Hall].
      destruct (Hmono kept eq_refl) as (b' & -> & Hb').
      split.
      * intros b Hb. exists b'. split; [done|].
        eapply fle_trans; [exact Hb'|]. by apply Hkb.
      * intros s' e' Hin Ht. apply elem_of_cons in Hin as [[= -> ->]|Hin];
          [|by apply Hall].
        exists cand, b'. split_and!; [done|done|].
        by eapply fle_trans.
Qed.

End SoftCandidates.



Lemma optimize_order_cost set_iter durations_s fs fe r :
  optimize_order_from_durations set_iter durations_s fs fe = Ok r ->
  exists cost,
    _to_cost_matrix durations_s = Ok cost
    /\ total_cost r = path_cost cost (order r).
Proof.
  intros H. apply optimize_order_inv in H
    as (cost & Hc & Hv & [[Hle ->]|(Hn & start & fixed & _ & _ & Ho & Ht)]).
  - exists cost. split; [done|]. cbn [order total_cost].
    unfold path_cost, range. rewrite length_seq, Nat.sub_0_r.
    by destruct (Nat.leb_spec (shape0 cost) 1); [|lia].
  - by exists cost.
Qed.

Lemma select_route_cost set_iter durations hs he sc ec r :
  select_route set_iter durations hs he sc ec = Ok r ->
  exists cost,
    _to_cost_matrix durations = Ok cost
    /\ total_cost r = path_cost cost (order r).
Proof.
  intros H.
  apply select_route_inv in H as (base & best_soft & Hb & Hbs & ->).
  destruct (accept_soft_cases base best_soft)
    as [(soft & -> & -> & _)|[-> _]].
  - apply (best_soft_route_inv set_iter
             (fun c => exists cost,
                         _to_cost_matrix durations = Ok cost
                         /\ total_cost c = path_cost cost (order c))
             durations hs he sc ec soft); [|done].
    intros s' e' cand. apply optimize_order_cost.
  - by eapply optimize_order_cost.
Qed.

Lemma coordinates_of_length rows coords :
  coordinates_of rows = Ok coords -> length coords = length rows.
Proof.
  revert coords. induction rows as [|r rows IH]; intros coords.
  - by intros [= <-].
  - cbn [coordinates_of].
    destruct (latitude r), (longitude r); try done.
    intros H. apply bind_Ok in H as (rest & Hrest & [= <-]).
    simpl. by rewrite (IH rest).
Qed.

Lemma ordered_location_ids_spec rows order_ ids :
  ordered_location_ids_of rows order_ = Ok ids ->
  ids = map (fun i => default 0%Z (location_id <$> rows !! i)) order_
  /\ Forall (fun i => i < length rows) order_.
Proof.
  revert ids. induction order_ as [|i order_ IH]; intros ids.
  - by intros [= <-].
  - cbn [ordered_location_ids_of].
    destruct (rows !! i) as [r|] eqn:Hr; [|done].
    intros H. apply bind_Ok in H as (rest & Hrest & [= <-]).
    destruct (IH rest Hrest) as [-> Hall]. split.
    + cbn [map]. by rewrite Hr.
    + constructor; [|done]. by eapply lookup_lt_Some.
Qed.

Lemma map_lookup_seq (rows : list row) :
  map (fun i => default 0%Z (location_id <$> rows !! i))
      (seq 0 (length rows))
  = map location_id rows.
Proof.
  apply list_eq. intros i.
  change (map ?f ?l) with (f <$> l).
  rewrite !list_lookup_fmap.
  destruct (decide (i < length rows)) as [Hi|Hi].
  - rewrite lookup_seq_lt by done. simpl.
    destruct (rows !! i) as [r|] eqn:Hr; [done|].
    apply lookup_ge_None in Hr. lia.
  - rewrite lookup_seq_ge by lia. rewrite lookup_ge_None_2 by lia. done.
Qed.

(** What a successful optimize operation over two rows or more has done. *)
Lemma optimize_trip_route_inv set_iter similar fetch trip_ rows sid eid resp :
  optimize_trip_route set_iter similar fetch trip_ rows sid eid = Ok resp ->
  2 <= length rows ->
  exists coords table hs he sc ec r d t,
    coordinates_of rows = Ok coords
    /\ fetch coords = Ok table
    /\ select_route set_iter (durations_s table) hs he sc ec = Ok r
    /\ ordered_location_ids_of rows (order r) = Ok (optimized_order resp)
    /\ path_totals table (zip (order r) (tail (order r))) 0 0 = Ok (d, t)
    /\ total_distance_km resp = py_round_to (fdiv_double d 1000) 3
    /\ total_duration_min resp = py_round_to (fdiv_double t 60) 1
    /\ total_locations resp = length rows.
Proof.
  unfold optimize_trip_route. intros H Hn.
  destruct (Nat.leb_spec (length rows) 1) as [|_]; [lia|].
  apply bind_Ok in H as (coords & Hcoords & H).
  apply bind_Ok in H as (table & Htable & H).
  apply bind_Ok in H as (r & Hr & H).
  apply bind_Ok in H as (ids & Hids & H).
  apply bind_Ok in H as ([d t] & Htot & [= <-]).
  exists coords, table. do 4 eexists. exists r, d, t.
  split_and!; [done|done|exact Hr|done..].
Qed.

(** X5. When the provider answers with one row of durations per selected
    stop, the order the optimize operation returns holds the id of every
    selected stop exactly as often as the selection does: no stop is lost and
    none is added. *)
Theorem optimized_order_keeps_every_stop
    (set_iter : list nat -> list nat -> list nat)
    (set_iter_perm : forall u c, set_iter u c ≡ₚ c)
    similar fetch trip_ rows sid eid resp :
  (forall coords table,
      coordinates_of rows = Ok coords ->
      fetch coords = Ok table ->
      length (durations_s table) = length rows) ->
  optimize_trip_route set_iter similar fetch trip_ rows sid eid = Ok resp ->
  optimized_order resp ≡ₚ map location_id rows
  /\ total_locations resp = length rows.
Proof.
  intros Hfetch H.
  destruct (decide (2 <= length rows)) as [Hn|Hn].
  - apply optimize_trip_route_inv in H
      as (coords & table & hs & he & sc & ec & r & d & t & Hcoords & Htable
          & Hr & Hids & _ & _ & _ & Hloc); [|done].
    split; [|done].
    apply ordered_location_ids_spec in Hids as [-> _].
    apply (select_route_perm _ set_iter_perm) in Hr.
    rewrite Hr, (Hfetch _ _ Hcoords Htable).
    by rewrite map_lookup_seq.
  - unfold optimize_trip_route in H.
    destruct (Nat.leb_spec (length rows) 1) as [_|]; [|lia].
    by injection H as <-.
Qed.

Lemma optimized_order_keeps_every_stop_witness :
  [30; 10; 20; 40]%Z ≡ₚ map location_id rows4 /\ 4 = length rows4.
Proof.
  apply (optimized_order_keeps_every_stop (fun _ c => c)
           (fun _ c => Permutation_refl c) (fun _ _ => false) fetch4
           no_preference rows4 (IdInt 30) IdNone
           {| optimized_order := [30; 10; 20; 40]%Z;
              total_distance_km := 50 # 1000;
              total_duration_min := 8 # 10;
              total_locations := 4 |}).
  - intros coords table _ [= <-]. reflexivity.
  - vm_compute. reflexivity.
Defined.

Lemma coordinates_of_missing before r after :
  Forall has_coordinates before ->
  ~ has_coordinates r ->
  coordinates_of (before ++ r :: after)
  = Raise (ValueError (String.append "Missing coordinates for location_id="
                                     (pretty (location_id r)))).
Proof.
  intros Hbefore Hr. induction Hbefore as [|r' before [Hlat Hlon] _ IH].
  - cbn [app coordinates_of].
    destruct (latitude r) as [lat|] eqn:Hlat; [|done].
    destruct (longitude r) as [lon|] eqn:Hlon; [|done].
    destruct Hr. unfold has_coordinates. by rewrite Hlat, Hlon.
  - change ((r' :: before) ++ r :: after)
      with (r' :: (before ++ r :: after)).
    cbn [coordinates_of].
    destruct Hlat as [lat ->], Hlon as [lon ->]. by rewrite IH.
Qed.

(** X6. A selection of two stops or more in which a stop lacks a latitude or
    a longitude is refused with a [ValueError] that names the id of the first
    such stop, whatever the anchors, the preferences and the provider: the
    provider is not asked. *)
Theorem missing_coordinates_are_refused set_iter similar fetch trip_
    before r after sid eid :
  Forall has_coordinates before ->
  ~ has_coordinates r ->
  1 <= length before + length after ->
  optimize_trip_route set_iter similar fetch trip_ (before ++ r :: after)
                      sid eid
  = Raise (ValueError (String.append "Missing coordinates for location_id="
                                     (pretty (location_id r)))).
Proof.
  intros Hbefore Hr Hn. unfold optimize_trip_route.
  destruct (Nat.leb_spec (length (before ++ r :: after)) 1) as [Hle|_].
  - rewrite length_app in Hle. simpl in Hle. lia.
  - by rewrite coordinates_of_missing.
Qed.

Lemma missing_coordinates_are_refused_witness :
  optimize_trip_route (fun _ c => c) (fun _ _ => false) fetch4 no_preference
    (take 2 rows4
     ++ {| location_id := 77; locality := None; region := None;
           latitude := Some 1%Q; longitude := None |}
     :: drop 2 rows4)
    (IdInt 30) IdNone
  = Raise (ValueError "Missing coordinates for location_id=77").
Proof.
  apply (missing_coordinates_are_refused (fun _ c => c) (fun _ _ => false)
           fetch4 no_preference (take 2 rows4)
           {| location_id := 77; locality := None; region := None;
              latitude := Some 1%Q; longitude := None |}
           (drop 2 rows4) (IdInt 30) IdNone).
  - repeat constructor; by eexists.
  - intros [_ [x Hx]]. discriminate Hx.
  - simpl. lia.
Defined.

Lemma cell_at2 m cost a b q :
  _to_cost_matrix m = Ok cost ->
  cell m a b = Ok (Some q) ->
  at2 cost a b = Fin q.
Proof.
  unfold cell. intros Hc H.
  destruct (m !! a) as [r|] eqn:Ha; [|done].
  destruct (r !! b) as [c|] eqn:Hb; [|done].
  injection H as ->.
  destruct m as [|r0 m']; [done|].
  unfold _to_cost_matrix in Hc.
  destruct (forallb _ _); [|done]. injection Hc as <-.
  unfold at2.
  assert (Hrow : nth a (map (map cell_to_float) (r0 :: m')) []
                 = map cell_to_float r).
  { apply nth_lookup_Some with (d := []).
    change (map ?f ?l) with (f <$> l) at 1.
    by rewrite list_lookup_fmap, Ha. }
  change (nth b (nth a (map (map cell_to_float) (r0 :: m')) []) (Fin 0)
          = Fin q).
  rewrite Hrow.
  apply nth_lookup_Some with (d := Fin 0).
  change (map ?f ?l) with (f <$> l).
  by rewrite list_lookup_fmap, Hb.
Qed.

Lemma path_totals_duration table cost edges d0 t0 d t :
  _to_cost_matrix (durations_s table) = Ok cost ->
  path_totals table edges d0 t0 = Ok (d, t) ->
  fold_left (fun total ab => fadd total (at2 cost ab.1 ab.2)) edges (Fin t0)
  = Fin t.
Proof.
  intros Hc. revert d0 t0.
  induction edges as [|[a b] edges IH]; intros d0 t0.
  - by intros [= _ <-].
  - cbn [path_totals]. intros H.
    apply bind_Ok in H as (d_m & Hd & H).
    apply bind_Ok in H as (t_s & Ht & H).
    destruct d_m as [dq|]; [|by destruct t_s].
    destruct t_s as [tq|]; [|done].
    cbn [fold_left fst snd].
    rewrite (cell_at2 _ _ _ _ _ Hc Ht). cbn [fadd].
    by apply (IH _ _ H).
Qed.



(** X8. When both anchors name selected stops, and not the same one, the
    region preferences of the trip play no part: no soft candidate is tried
    and the returned order is the optimizer's for these two anchors. *)
Theorem explicit_anchors_override_preferences set_iter similar fetch trip_
    rows sid eid i j resp :
  resolve_anchor (id_to_index rows) sid = Some i ->
  resolve_anchor (id_to_index rows) eid = Some j ->
  i ≠ j ->
  2 <= length rows ->
  optimize_trip_route set_iter similar fetch trip_ rows sid eid = Ok resp ->
  exists coords table r,
    coordinates_of rows = Ok coords
    /\ fetch coords = Ok table
    /\ optimize_order_from_durations set_iter (durations_s table)
         (Some (Z.of_nat i)) (Some (Z.of_nat j)) = Ok r
    /\ ordered_location_ids_of rows (order r) = Ok (optimized_order resp).
Proof.
  intros Hs He Hij Hn H. unfold optimize_trip_route in H.
  destruct (Nat.leb_spec (length rows) 1) as [|_]; [lia|].
  apply bind_Ok in H as (coords & Hcoords & H).
  apply bind_Ok in H as (table & Htable & H).
  rewrite Hs, He in H. cbn [same_index] in H.
  destruct (Nat.eqb_spec i j) as [|_]; [done|].
  rewrite !andb_false_r in H.
  apply bind_Ok in H as (r & Hr & H).
  apply bind_Ok in H as (ids & Hids & H).
  apply bind_Ok in H as (totals & _ & [= <-]).
  apply select_route_inv in Hr as (base & best_soft & Hb & Hbs & ->).
  injection Hbs as <-.
  by exists coords, table, base.
Qed.

Lemma explicit_anchors_override_preferences_witness :
  exists coords table r,
    coordinates_of rows4 = Ok coords
    /\ fetch4 coords = Ok table
    /\ optimize_order_from_durations (fun _ c => c) (durations_s table)
         (Some (Z.of_nat 2)) (Some (Z.of_nat 3)) = Ok r
    /\ ordered_location_ids_of rows4 (order r) = Ok [30; 10; 20; 40]%Z.
Proof.
  apply (explicit_anchors_override_preferences (fun _ c => c)
           (fun _ _ => false) fetch4
           {| start_region := Some "Goa"%string;
              end_region := Some "Pune"%string |}
           rows4 (IdInt 30) (IdStr " 40 ") 2 3
           {| optimized_order := [30; 10; 20; 40]%Z;
              total_distance_km := 50 # 1000;
              total_duration_min := 8 # 10;
              total_locations := 4 |}).
  - vm_compute. reflexivity.
  - vm_compute. reflexivity.
  - lia.
  - simpl. lia.
  - vm_compute. reflexivity.
Defined.

(** ** trips_service.py: the itinerary *)

Lemma days_global_of_built all_locs segments pace_ :
  days_global_of all_locs segments pace_
  = equalize (day_budget_min (pace_key_of pace_))
             (built_days all_locs segments pace_).
Proof.
  unfold days_global_of, built_days, packing_of.
  by rewrite days_loop_packed.
Qed.

Lemma build_trip_itinerary_regions all_locs segments pace_ :
  all_locs ≠ [] ->
  regions (build_trip_itinerary all_locs segments pace_)
  = group_by_region (days_global_of all_locs segments pace_)
  /\ total_days (build_trip_itinerary all_locs segments pace_)
     = Some (length (days_global_of all_locs segments pace_)).
Proof. by destruct all_locs. Qed.

Lemma built_days_numbers all_locs segments pace_ :
  map day_number (built_days all_locs segments pace_)
  = seq 1 (length (built_days all_locs segments pace_)).
Proof.
  unfold built_days. rewrite length_imap.
  change (map ?f ?l) with (f <$> l). rewrite fmap_imap.
  rewrite <- fmap_S_seq, <- imap_seq_0.
  apply imap_ext. intros i st _. simpl. lia.
Qed.

Lemma equalize_numbers target days :
  map day_number (equalize target days) = map day_number days.
Proof.
  unfold equalize.
  destruct (reverse days) as [|last_ [|prev earlier]] eqn:E; [done..|].
  destruct ((length (locations last_) =? 1) && (2 <? length (locations prev))
            && Qltb (active_min last_) (inject_Z target * (1 # 2))); [|done].
  destruct (reverse (locations prev)) as [|shifted kept]; [done|].
  assert (days = reverse earlier ++ [prev; last_]) as ->.
  { rewrite <- (reverse_involutive days), E, !reverse_cons, <- app_assoc.
    done. }
  by rewrite !map_app.
Qed.

Lemma concat_nonempty_length {A} (ls : list (list A)) :
  Forall (fun l => l ≠ []) ls -> length ls <= length (concat ls).
Proof.
  induction 1 as [|l ls Hl _ IH]; [done|].
  cbn [concat]. rewrite length_app. destruct l; [done|]. simpl. lia.
Qed.

Lemma built_days_count all_locs segments pace_ :
  all_locs ≠ [] ->
  1 <= length (built_days all_locs segments pace_) <= length all_locs.
Proof.
  intros Hne.
  pose proof (packed_days_spec (pace_key_of pace_) (build_seg_map segments)
                (day_budget_min (pace_key_of pace_)) (length all_locs)
                all_locs None (le_n _)) as [Hcat Hall].
  fold (packing_of all_locs segments pace_) in Hcat, Hall.
  unfold built_days. rewrite length_imap.
  rewrite <- (length_map (fun st => map item_loc (current_day_locs st))).
  split.
  - destruct (packing_of all_locs segments pace_); [|simpl; lia].
    by destruct Hne.
  - rewrite <- Hcat at 2. apply concat_nonempty_length.
    apply Forall_fmap. eapply Forall_impl; [exact Hall|].
    intros st (H & _) Hnil. by apply map_eq_nil in Hnil.
Qed.

Lemma group_append_sublist groups name d pre :
  Forall (fun g : string * list day => g.2 `sublist_of` pre) groups ->
  Forall (fun g : string * list day => g.2 `sublist_of` pre ++ [d])
         (group_append groups name d).
Proof.
  induction groups as [|[name' ds] groups IH]; intros Hall;
    cbn [group_append].
  - constructor; [|constructor]. simpl. by apply sublist_inserts_l.
  - apply Forall_cons in Hall as [Hds Hall]. simpl in Hds.
    destruct (String.eqb name' name); constructor; simpl.
    + by apply sublist_app.
    + eapply Forall_impl; [exact Hall|].
      intros g. by apply sublist_inserts_r.
    + by apply sublist_inserts_r.
    + by apply IH.
Qed.

Lemma group_by_region_sublist days :
  Forall (fun g : string * list day => g.2 `sublist_of` days)
         (group_by_region days).
Proof.
  unfold group_by_region.
  assert (forall pre groups,
            Forall (fun g : string * list day => g.2 `sublist_of` pre)
                   groups ->
            Forall (fun g : string * list day => g.2 `sublist_of` pre ++ days)
                   (foldl (fun groups d =>
                             group_append groups (region_name_of d) d)
                          groups days)) as H; [|by apply (H [] [])].
  induction days as [|d days IH]; intros pre groups Hg; cbn [foldl].
  - by rewrite app_nil_r.
  - replace (pre ++ d :: days) with ((pre ++ [d]) ++ days)
      by (by rewrite <- app_assoc).
    by apply IH, group_append_sublist.
Qed.

(** X9. The days of a non-empty trip are numbered 1, 2, ... up to the
    reported number of days, which is at least one and at most the number of
    stops; the regions hold these days between them, and each region lists
    its days in ascending order of their numbers. *)
Theorem days_are_numbered_in_order all_locs segments pace_ :
  all_locs ≠ [] ->
  exists k,
    total_days (build_trip_itinerary all_locs segments pace_) = Some k
    /\ 1 <= k <= length all_locs
    /\ map day_number (days_global_of all_locs segments pace_) = seq 1 k
    /\ all_days (build_trip_itinerary all_locs segments pace_)
       ≡ₚ days_global_of all_locs segments pace_
    /\ Forall (fun g : string * list day =>
                 map day_number g.2 `sublist_of` seq 1 k)
              (regions (build_trip_itinerary all_locs segments pace_)).
Proof.
  intros Hne.
  destruct (build_trip_itinerary_regions all_locs segments pace_ Hne)
    as [Hreg Htot].
  assert (map day_number (days_global_of all_locs segments pace_)
          = seq 1 (length (days_global_of all_locs segments pace_)))
    as Hnum.
  { rewrite <- (length_map day_number), days_global_of_built.
    rewrite equalize_numbers, length_map. apply built_days_numbers. }
  exists (length (days_global_of all_locs segments pace_)).
  split_and!.
  - done.
  - rewrite <- (length_map day_number), days_global_of_built,
      equalize_numbers, length_map.
    by apply built_days_count.
  - rewrite <- (length_map day_number), days_global_of_built,
      equalize_numbers, length_map.
    by apply built_days_count.
  - done.
  - unfold all_days. rewrite Hreg. apply group_by_region_days.
  - rewrite Hreg, <- Hnum.
    eapply Forall_impl; [apply group_by_region_sublist|].
    intros g Hg. by apply (fmap_sublist day_number).
Qed.

Lemma days_are_numbered_in_order_witness :
  exists k,
    total_days (build_trip_itinerary far_apart far_apart_segments
                  (Some "balanced"%string)) = Some k
    /\ 1 <= k <= length far_apart
    /\ map day_number (days_global_of far_apart far_apart_segments
                         (Some "balanced"%string)) = seq 1 k
    /\ all_days (build_trip_itinerary far_apart far_apart_segments
                   (Some "balanced"%string))
       ≡ₚ days_global_of far_apart far_apart_segments
            (Some "balanced"%string)
    /\ Forall (fun g : string * list day =>
                 map day_number g.2 `sublist_of` seq 1 k)
              (regions (build_trip_itinerary far_apart far_apart_segments
                          (Some "balanced"%string))).
Proof.
  apply (days_are_numbered_in_order far_apart far_apart_segments
           (Some "balanced"%string)).
  discriminate.
Defined.

Lemma group_append_inv groups d :
  NoDup (map fst groups) ->
  Forall (fun g : string * list day =>
            g.2 ≠ [] /\ Forall (fun d' => region_name_of d' = g.1) g.2)
         groups ->
  NoDup (map fst (group_append groups (region_name_of d) d))
  /\ Forall (fun g : string * list day =>
               g.2 ≠ [] /\ Forall (fun d' => region_name_of d' = g.1) g.2)
            (group_append groups (region_name_of d) d)
  /\ (forall name, name ∈ map fst (group_append groups (region_name_of d) d)
                   <-> name = region_name_of d \/ name ∈ map fst groups).
Proof.
  induction groups as [|[name' ds] groups IH]; intros Hnd Hall;
    cbn [group_append].
  - split_and!.
    + apply NoDup_singleton.
    + repeat constructor; simpl; done.
    + intros name. simpl. rewrite list_elem_of_singleton, elem_of_nil. tauto.
  - apply NoDup_cons in Hnd as [Hnotin Hnd].
    apply Forall_cons in Hall as [[Hds Hreg] Hall].
    destruct (String.eqb_spec name' (region_name_of d)) as [->|Hneq].
    + split_and!.
      * by apply NoDup_cons.
      * constructor; [|done]. simpl in *. split.
        -- by destruct ds.
        -- apply Forall_app. split; [done|]. by repeat constructor.
      * intros name. simpl. rewrite elem_of_cons. tauto.
    + destruct (IH Hnd Hall) as (Hnd' & Hall' & Hnames).
      split_and!.
      * cbn [map fst]. apply NoDup_cons. split; [|done].
        intros Hin. apply Hnames in Hin as [->|Hin]; done.
      * by constructor.
      * intros name. cbn [map fst]. rewrite !elem_of_cons, Hnames. tauto.
Qed.

Lemma group_by_region_inv days :
  NoDup (map fst (group_by_region days))
  /\ Forall (fun g : string * list day =>
               g.2 ≠ [] /\ Forall (fun d => region_name_of d = g.1) g.2)
            (group_by_region days).
Proof.
  unfold group_by_region.
  assert (forall groups,
            NoDup (map fst groups) ->
            Forall (fun g : string * list day =>
                      g.2 ≠ []
                      /\ Forall (fun d => region_name_of d = g.1) g.2)
                   groups ->
            let groups' :=
              foldl (fun groups d =>
                       group_append groups (region_name_of d) d)
                    groups days in
            NoDup (map fst groups')
            /\ Forall (fun g : string * list day =>
                         g.2 ≠ []
                         /\ Forall (fun d => region_name_of d = g.1) g.2)
                      groups') as H.
  { induction days as [|d days IH]; intros groups Hnd Hall; cbn [foldl].
    - done.
    - destruct (group_append_inv groups d Hnd Hall) as (Hnd' & Hall' & _).
      by apply IH. }
  apply (H []); [apply NoDup_nil_2|constructor].
Qed.

(** X10. In the itinerary every region name heads one group only, no group
    is empty, and every day stands under the region of its first stop,
    ['Other'] when that stop has none. *)
Theorem days_are_grouped_by_first_stop all_locs segments pace_ :
  NoDup (map fst (regions (build_trip_itinerary all_locs segments pace_)))
  /\ Forall (fun g : string * list day =>
               g.2 ≠ [] /\ Forall (fun d => region_name_of d = g.1) g.2)
            (regions (build_trip_itinerary all_locs segments pace_)).
Proof.
  destruct all_locs as [|l rest].
  - split; [apply NoDup_nil_2|constructor].
  - apply group_by_region_inv.
Qed.

Section Legs.

Variable pace_key : string.
Variable seg_map : gmap (Z * Z) Q.
Variable target : Z.

Lemma pack_day_legs queue : forall locs active travel visit prev,
  let st := pack_day pace_key seg_map target queue locs active travel visit
              prev in
  map item_travel (current_day_locs st)
    ++ legs_of seg_map (prev_loc_id st) (map loc_id (temp_locs_queue st))
  = map item_travel locs ++ legs_of seg_map prev (map loc_id queue).
Proof.
  induction queue as [|l rest IH]; intros locs active travel visit prev.
  - done.
  - cbn [pack_day].
    destruct (negb (bool_decide (locs = [])) && Qgtb _ _); [done|].
    cbv zeta in IH. rewrite IH.
    rewrite map_app, <- app_assoc. done.
Qed.

Lemma packed_days_legs fuel : forall queue prev,
  length queue <= fuel ->
  concat (map (fun st => map item_travel (current_day_locs st))
              (packed_days fuel pace_key seg_map target queue prev))
  = legs_of seg_map prev (map loc_id queue).
Proof.
  induction fuel as [|fuel IH]; intros queue prev Hlen.
  - by destruct queue; [|simpl in Hlen; lia].
  - cbn [packed_days]. destruct queue as [|l rest] eqn:Eq; [done|].
    rewrite <- Eq in *.
    pose proof (pack_day_spec pace_key seg_map target queue [] 0%Q 0%Q 0%Q
                  prev) as Hspec.
    pose proof (pack_day_legs queue [] 0%Q 0%Q 0%Q prev) as Hlegs.
    cbv zeta in Hspec, Hlegs.
    set (st := pack_day pace_key seg_map target queue [] 0 0 0 prev) in *.
    destruct Hspec as (_ & Hne & _ & _ & Hlt & _).
    assert (queue ≠ []) as Hqne by (rewrite Eq; done).
    specialize (Hne (or_intror Hqne)). specialize (Hlt eq_refl Hqne).
    rewrite bool_decide_eq_false_2 by done.
    cbn [app map concat]. rewrite IH by lia. exact Hlegs.
Qed.

End Legs.

Lemma finalize_day_travel target number st :
  map estimated_travel_from_prev_min
      (locations (finalize_day target number st))
  = map (fun it => py_round_to (item_travel it) 1) (current_day_locs st).
Proof.
  unfold finalize_day. cbn [locations].
  destruct (Qgtb _ 15 && Qgtb _ 0); cbn [fst snd];
    rewrite !map_map; by apply map_ext.
Qed.

Lemma equalize_locations target days :
  concat (map locations (equalize target days)) = concat (map locations days).
Proof.
  unfold equalize.
  destruct (reverse days) as [|last_ [|prev earlier]] eqn:E; [done..|].
  destruct ((length (locations last_) =? 1) && (2 <? length (locations prev))
            && Qltb (active_min last_) (inject_Z target * (1 # 2))); [|done].
  destruct (reverse (locations prev)) as [|shifted kept] eqn:Ek; [done|].
  assert (days = reverse earlier ++ [prev; last_]) as ->.
  { rewrite <- (reverse_involutive days), E, !reverse_cons, <- app_assoc.
    done. }
  assert (locations prev = reverse kept ++ [shifted]) as Hprev.
  { by rewrite <- (reverse_involutive (locations prev)), Ek, reverse_cons. }
  rewrite !map_app, !concat_app. f_equal. cbn [map concat locations].
  rewrite Hprev, !app_nil_r, <- app_assoc. done.
Qed.

Lemma built_days_concat {A} (f : planned_loc -> A) (g : item -> A) target
    sts :
  (forall number st,
      map f (locations (finalize_day target number st))
      = map g (current_day_locs st)) ->
  forall number : nat -> nat,
    map f (concat (map locations
                     (imap (fun i st => finalize_day target (number i) st)
                           sts)))
    = concat (map (fun st => map g (current_day_locs st)) sts).
Proof.
  intros Hfg. induction sts as [|st sts IH]; intros number; [done|].
  cbn [imap map concat]. rewrite map_app, Hfg. f_equal.
  apply (IH (fun i => number (S i))).
Qed.

(** X11. Read day after day, the itinerary holds the stops in the order they
    were given, and the travel time shown for a stop is the stored leg from
    the stop before it, rounded to one decimal, also when that stop closed
    the day before; it is zero for the first stop of the trip and where no
    leg is stored. *)
Theorem travel_legs_follow_the_route all_locs segments pace_ :
  let stops := concat (map locations
                         (days_global_of all_locs segments pace_)) in
  map planned stops = all_locs
  /\ map estimated_travel_from_prev_min stops
     = map (fun q => py_round_to q 1)
           (legs_of (build_seg_map segments) None (map loc_id all_locs)).
Proof.
  cbv zeta. rewrite days_global_of_built, equalize_locations.
  unfold built_days, packing_of.
  pose proof (packed_days_spec (pace_key_of pace_) (build_seg_map segments)
                (day_budget_min (pace_key_of pace_)) (length all_locs)
                all_locs None (le_n _)) as [Hcat _].
  pose proof (packed_days_legs (pace_key_of pace_) (build_seg_map segments)
                (day_budget_min (pace_key_of pace_)) (length all_locs)
                all_locs None (le_n _)) as Hlegs.
  split.
  - rewrite (built_days_concat planned item_loc); [done|].
    intros number st. apply finalize_day_locations.
  - rewrite (built_days_concat estimated_travel_from_prev_min
               (fun it => py_round_to (item_travel it) 1));
      [|intros number st; apply finalize_day_travel].
    rewrite <- Hlegs.
    generalize (packed_days (length all_locs) (pace_key_of pace_)
                  (build_seg_map segments)
                  (day_budget_min (pace_key_of pace_)) all_locs None).
    intros sts. induction sts as [|st sts IH]; [done|].
    cbn [map concat]. rewrite map_app, IH, map_map. done.
Qed.

(** Rounding keeps to the side of an integer it starts on. *)
Lemma py_round_ge z q : (inject_Z z <= q)%Q -> (z <= py_round q)%Z.
Proof.
  intros H. apply Qfloor_resp_le in H. rewrite Qfloor_Z in H.
  unfold py_round.
  destruct (q - inject_Z (Qfloor q) ?= 1 # 2)%Q; [|lia..].
  destruct (Z.even (Qfloor q)); lia.
Qed.

Lemma py_round_le z q : (q <= inject_Z z)%Q -> (py_round q <= z)%Z.
Proof.
  intros H. pose proof (Qfloor_resp_le _ _ H) as Hf.
  rewrite Qfloor_Z in Hf. unfold py_round.
  destruct (decide (Qfloor q = z)) as [Heq|Hne].
  - assert (q - inject_Z (Qfloor q) < 1 # 2)%Q as Hlt.
    { pose proof (Qfloor_le q) as Hq. rewrite Heq in *. lra. }
    pose proof (proj1 (Qlt_alt _ _) Hlt) as Hc. rewrite Hc. lia.
  - destruct (q - inject_Z (Qfloor q) ?= 1 # 2)%Q; [|lia..].
    destruct (Z.even (Qfloor q)); lia.
Qed.

Lemma py_round_to_ge z q :
  (inject_Z z <= q)%Q -> (inject_Z z <= py_round_to q 1)%Q.
Proof.
  intros H. unfold py_round_to.
  change (inject_Z (10 ^ Z.of_nat 1)) with (inject_Z 10).
  apply Qle_shift_div_l; [done|].
  rewrite <- inject_Z_mult, <- Zle_Qle. apply py_round_ge.
  rewrite inject_Z_mult. change (inject_Z 10) with 10%Q. lra.
Qed.

Lemma py_round_to_le_half z q :
  (2 * q <= inject_Z z)%Q -> (2 * py_round_to q 1 <= inject_Z z)%Q.
Proof.
  intros H. unfold py_round_to.
  change (inject_Z (10 ^ Z.of_nat 1)) with (inject_Z 10).
  assert (py_round (q * inject_Z 10) <= z * 5)%Z as Hr.
  { apply py_round_le. rewrite inject_Z_mult.
    change (inject_Z 10) with 10%Q. change (inject_Z 5) with 5%Q.
    set (x := inject_Z z) in *. lra. }
  rewrite Zle_Qle, inject_Z_mult in Hr.
  unfold Qdiv. change (/ inject_Z 10)%Q with (1 # 10)%Q.
  change (inject_Z 5) with 5%Q in Hr.
  set (x := inject_Z z) in *.
  set (r := inject_Z (py_round (q * inject_Z 10))) in *. lra.
Qed.

Lemma py_trunc_bounds lo hi q :
  (0 <= lo)%Z ->
  (inject_Z lo <= q)%Q -> (2 * q <= inject_Z hi)%Q ->
  (lo <= py_trunc q)%Z /\ (2 * py_trunc q <= hi)%Z.
Proof.
  intros Hlo Hq Hhi. unfold py_trunc.
  assert (0 <= q)%Q as H0.
  { rewrite Zle_Qle in Hlo. change (inject_Z 0) with 0%Q in Hlo. lra. }
  apply Qle_bool_iff in H0. rewrite H0. split.
  - apply Qfloor_resp_le in Hq. by rewrite Qfloor_Z in Hq.
  - pose proof (Qfloor_le q) as Hf.
    rewrite Zle_Qle, inject_Z_mult. change (inject_Z 2) with 2%Q.
    set (x := inject_Z (Qfloor q)) in *. set (y := inject_Z hi) in *. lra.
Qed.

Lemma _estimate_visit_min_ge pace_key category :
  (30 <= _estimate_visit_min pace_key category)%Z.
Proof. unfold _estimate_visit_min. lia. Qed.

Lemma cap_stretch_bounds x : (1 <= x)%Q -> (1 <= cap_stretch x <= 3 # 2)%Q.
Proof.
  intros Hx. unfold cap_stretch, Qltb.
  destruct (Qle_bool (3 # 2) x) eqn:E; simpl.
  - lra.
  - split; [done|].
    destruct (Qlt_le_dec x (3 # 2)) as [Hlt|Hle]; [lra|].
    apply Qle_bool_iff in Hle. congruence.
Qed.

(** A visit of [e] minutes, stretched or not, is shown as at least [e] and
    at most one and a half times [e]. *)
Lemma finalize_day_visits pace_key target number st :
  Forall (fun it =>
            item_visit it
            = inject_Z (_estimate_visit_min pace_key
                          (loc_category (item_loc it))))
         (current_day_locs st) ->
  Forall (fun p =>
            (_estimate_visit_min pace_key (loc_category (planned p))
             <= estimated_visit_min p)%Z
            /\ (2 * estimated_visit_min p
                <= 3 * _estimate_visit_min pace_key
                         (loc_category (planned p)))%Z)
         (locations (finalize_day target number st)).
Proof.
  intros Hall. unfold finalize_day. cbn [locations].
  destruct (Qgtb (inject_Z target - current_day_active st) 15
            && Qgtb (current_day_visit st) 0) eqn:E; cbn [fst snd].
  - apply andb_true_iff in E as [Hslack Hvisit].
    unfold Qgtb in Hslack, Hvisit. apply negb_true_iff in Hslack, Hvisit.
    assert (15 < inject_Z target - current_day_active st)%Q as Hs.
    { apply Qnot_le_lt. intros H. apply Qle_bool_iff in H. congruence. }
    assert (0 < current_day_visit st)%Q as Hv.
    { apply Qnot_le_lt. intros H. apply Qle_bool_iff in H. congruence. }
    set (f := cap_stretch _).
    assert (1 <= f <= 3 # 2)%Q as Hf.
    { apply cap_stretch_bounds. apply Qle_shift_div_l; [done|]. lra. }
    rewrite map_map. apply Forall_fmap.
    eapply Forall_impl; [exact Hall|].
    intros it Hit. unfold compose.
    cbn [planned estimated_visit_min item_visit item_loc].
    rewrite Hit.
    set (e := _estimate_visit_min pace_key (loc_category (item_loc it))).
    pose proof (_estimate_visit_min_ge pace_key
                  (loc_category (item_loc it))) as He. fold e in He.
    assert (0 <= inject_Z e)%Q as He0.
    { change 0%Q with (inject_Z 0). rewrite <- Zle_Qle. lia. }
    apply py_trunc_bounds.
    + lia.
    + apply py_round_to_ge. nra.
    + apply py_round_to_le_half. rewrite inject_Z_mult.
      change (inject_Z 3) with 3%Q. nra.
  - apply Forall_fmap. eapply Forall_impl; [exact Hall|].
    intros it Hit. unfold compose. cbn [planned estimated_visit_min].
    rewrite Hit.
    set (e := _estimate_visit_min pace_key (loc_category (item_loc it))).
    pose proof (_estimate_visit_min_ge pace_key
                  (loc_category (item_loc it))) as He. fold e in He.
    apply py_trunc_bounds.
    + lia.
    + lra.
    + rewrite inject_Z_mult. change (inject_Z 3) with 3%Q.
      assert (0 <= inject_Z e)%Q as He0.
      { change 0%Q with (inject_Z 0). rewrite <- Zle_Qle. lia. }
      lra.
Qed.

Section Visits.

Variable pace_key : string.
Variable seg_map : gmap (Z * Z) Q.
Variable target : Z.

Lemma pack_day_visits queue : forall locs active travel visit prev,
  Forall (fun it =>
            item_visit it
            = inject_Z (_estimate_visit_min pace_key
                          (loc_category (item_loc it)))) locs ->
  Forall (fun it =>
            item_visit it
            = inject_Z (_estimate_visit_min pace_key
                          (loc_category (item_loc it))))
         (current_day_locs
            (pack_day pace_key seg_map target queue locs active travel visit
                      prev)).
Proof.
  induction queue as [|l rest IH]; intros locs active travel visit prev Hall.
  - done.
  - cbn [pack_day].
    destruct (negb (bool_decide (locs = [])) && Qgtb _ _); [done|].
    apply IH. apply Forall_app. split; [done|]. by repeat constructor.
Qed.

Lemma packed_days_visits fuel : forall queue prev,
  Forall (fun st =>
            Forall (fun it =>
                      item_visit it
                      = inject_Z (_estimate_visit_min pace_key
                                    (loc_category (item_loc it))))
                   (current_day_locs st))
         (packed_days fuel pace_key seg_map target queue prev).
Proof.
  induction fuel as [|fuel IH]; intros queue prev; [constructor|].
  cbn [packed_days]. destruct queue as [|l rest] eqn:Eq; [constructor|].
  rewrite <- Eq. apply Forall_app. split; [|apply IH].
  destruct (bool_decide _); [constructor|].
  repeat constructor. by apply pack_day_visits.
Qed.

End Visits.

(** X12. Every stop of the itinerary is shown with a visit of at least the
    estimate for its category at the chosen pace, which is 30 minutes or
    more, and of at most one and a half times that estimate: stretching a
    short day never shortens a visit and never more than adds half to it. *)
Theorem visit_estimates_are_bounded all_locs segments pace_ :
  Forall (fun p =>
            let e := _estimate_visit_min (pace_key_of pace_)
                       (loc_category (planned p)) in
            (30 <= e <= estimated_visit_min p)%Z
            /\ (2 * estimated_visit_min p <= 3 * e)%Z)
         (concat (map locations (days_global_of all_locs segments pace_))).
Proof.
  rewrite days_global_of_built, equalize_locations.
  unfold built_days, packing_of.
  pose proof (packed_days_visits (pace_key_of pace_) (build_seg_map segments)
                (day_budget_min (pace_key_of pace_)) (length all_locs)
                all_locs None) as Hall.
  revert Hall.
  generalize (packed_days (length all_locs) (pace_key_of pace_)
                (build_seg_map segments)
                (day_budget_min (pace_key_of pace_)) all_locs None).
  intros sts.
  change (fun (i : nat) (st : packing) =>
            finalize_day (day_budget_min (pace_key_of pace_)) (i + 1) st)
    with (fun (i : nat) (st : packing) =>
            finalize_day (day_budget_min (pace_key_of pace_))
                         ((fun i => i + 1) i) st).
  generalize (fun i : nat => i + 1).
  induction sts as [|st sts IH]; intros number Hall; [constructor|].
  apply Forall_cons in Hall as [Hst Hall].
  cbn [imap map concat]. apply Forall_app. split.
  - eapply Forall_impl;
      [apply (finalize_day_visits (pace_key_of pace_)); exact Hst|].
    intros p [H1 H2]. cbv zeta.
    pose proof (_estimate_visit_min_ge (pace_key_of pace_)
                  (loc_category (planned p))). lia.
  - apply (IH (fun i => number (S i)) Hall).
Qed.

Lemma _estimate_visit_min_default pace_key category :
  pace_key ≠ "relaxed"%string -> pace_key ≠ "packed"%string ->
  _estimate_visit_min pace_key category
  = _estimate_visit_min "balanced" category.
Proof.
  intros Hr Hp. unfold _estimate_visit_min.
  apply String.eqb_neq in Hr, Hp. by rewrite Hr, Hp.
Qed.

Lemma day_budget_min_default pace_key :
  pace_key ≠ "relaxed"%string -> pace_key ≠ "packed"%string ->
  day_budget_min pace_key = day_budget_min "balanced".
Proof.
  intros Hr Hp. unfold day_budget_min.
  apply String.eqb_neq in Hr, Hp. rewrite Hr, Hp.
  by destruct (String.eqb pace_key "balanced").
Qed.

Lemma pack_day_ext pace_key pace_key' seg_map target queue :
  (forall category,
      _estimate_visit_min pace_key category
      = _estimate_visit_min pace_key' category) ->
  forall locs active travel visit prev,
    pack_day pace_key seg_map target queue locs active travel visit prev
    = pack_day pace_key' seg_map target queue locs active travel visit prev.
Proof.
  intros Hest. induction queue as [|l rest IH];
    intros locs active travel visit prev; [done|].
  cbn [pack_day]. rewrite Hest.
  destruct (negb (bool_decide (locs = [])) && Qgtb _ _); [done|].
  apply IH.
Qed.

Lemma days_loop_ext pace_key pace_key' seg_map target fuel :
  (forall category,
      _estimate_visit_min pace_key category
      = _estimate_visit_min pace_key' category) ->
  forall queue prev days_global,
    days_loop fuel pace_key seg_map target queue prev days_global
    = days_loop fuel pace_key' seg_map target queue prev days_global.
Proof.
  intros Hest. induction fuel as [|fuel IH];
    intros queue prev days_global; [done|].
  cbn [days_loop]. destruct queue as [|l rest]; [done|].
  rewrite (pack_day_ext pace_key pace_key' _ _ _ Hest). apply IH.
Qed.

(** X13. A pace that is neither relaxed nor packed once stripped and
    lowered, known or not, is planned as the balanced pace: the same days
    under the same regions and the same target of 480 minutes. *)
Theorem unknown_pace_plans_as_balanced all_locs segments pace_ :
  pace_key_of pace_ ≠ "relaxed"%string ->
  pace_key_of pace_ ≠ "packed"%string ->
  regions (build_trip_itinerary all_locs segments pace_)
  = regions (build_trip_itinerary all_locs segments (Some "balanced"%string))
  /\ target_active_min (build_trip_itinerary all_locs segments pace_)
     = target_active_min
         (build_trip_itinerary all_locs segments (Some "balanced"%string))
  /\ total_days (build_trip_itinerary all_locs segments pace_)
     = total_days
         (build_trip_itinerary all_locs segments (Some "balanced"%string)).
Proof.
  intros Hr Hp. unfold build_trip_itinerary.
  destruct all_locs as [|l rest]; [done|].
  change (pace_key_of (Some "balanced"%string)) with "balanced"%string.
  cbn [regions target_active_min total_days].
  rewrite (day_budget_min_default _ Hr Hp).
  rewrite (days_loop_ext (pace_key_of pace_) "balanced");
    [done|].
  intros category. by apply _estimate_visit_min_default.
Qed.

Lemma unknown_pace_plans_as_balanced_witness :
  regions (build_trip_itinerary far_apart far_apart_segments
             (Some " Fast "%string))
  = regions (build_trip_itinerary far_apart far_apart_segments
               (Some "balanced"%string))
  /\ target_active_min (build_trip_itinerary far_apart far_apart_segments
                          (Some " Fast "%string))
     = target_active_min
         (build_trip_itinerary far_apart far_apart_segments
            (Some "balanced"%string))
  /\ total_days (build_trip_itinerary far_apart far_apart_segments
                   (Some " Fast "%string))
     = total_days
         (build_trip_itinerary far_apart far_apart_segments
            (Some "balanced"%string)).
Proof.
  apply (unknown_pace_plans_as_balanced far_apart far_apart_segments
           (Some " Fast "%string)).
  - vm_compute. discriminate.
  - vm_compute. discriminate.
Defined.

Section Greedy.

Variable pace_key : string.
Variable seg_map : gmap (Z * Z) Q.
Variable target : Z.

(** Where the inner loop stops short of the end of the queue, the next stop
    would have taken the day beyond target plus tolerance. *)
Lemma pack_day_break queue : forall locs active travel visit prev l rest,
  let st := pack_day pace_key seg_map target queue locs active travel visit
              prev in
  temp_locs_queue st = l :: rest ->
  (inject_Z (target + tolerance_min)
   < current_day_active st
     + (match prev_loc_id st with
        | Some p => default 0 (seg_map !! (p, loc_id l))
        | None => 0
        end
        + inject_Z (_estimate_visit_min pace_key (loc_category l))))%Q.
Proof.
  induction queue as [|l0 rest0 IH];
    intros locs active travel visit prev l rest; [done|].
  cbn [pack_day].
  destruct (negb (bool_decide (locs = [])) && Qgtb _ _) eqn:E.
  - cbn [temp_locs_queue current_day_active prev_loc_id].
    intros [= <- <-].
    apply andb_true_iff in E as [_ E]. unfold Qgtb in E.
    apply negb_true_iff in E. apply Qnot_le_lt. intros H.
    apply Qle_bool_iff in H. congruence.
  - apply IH.
Qed.

Lemma pack_day_keeps queue : forall locs active travel visit prev,
  exists more,
    current_day_locs
      (pack_day pace_key seg_map target queue locs active travel visit prev)
    = locs ++ more.
Proof.
  induction queue as [|l rest IH]; intros locs active travel visit prev.
  - exists []. by rewrite app_nil_r.
  - cbn [pack_day].
    destruct (negb (bool_decide (locs = [])) && Qgtb _ _).
    + exists []. by rewrite app_nil_r.
    + edestruct IH as [more ->]. rewrite <- app_assoc. by eexists.
Qed.

(** A day opens with the first stop of the queue, whatever it costs. *)
Lemma pack_day_first l rest prev :
  head (current_day_locs
          (pack_day pace_key seg_map target (l :: rest) [] 0 0 0 prev))
  = Some {| item_loc := l;
            item_travel := match prev with
                           | Some p => default 0%Q (seg_map !! (p, loc_id l))
                           | None => 0%Q
                           end;
            item_visit :=
              inject_Z (_estimate_visit_min pace_key (loc_category l)) |}.
Proof.
  cbn [pack_day bool_decide negb andb].
  rewrite bool_decide_eq_true_2 by done. cbn [negb andb app].
  edestruct pack_day_keeps as [more ->]. done.
Qed.

Lemma packed_days_full fuel : forall queue prev i st st' it,
  length queue <= fuel ->
  packed_days fuel pace_key seg_map target queue prev !! i = Some st ->
  packed_days fuel pace_key seg_map target queue prev !! S i = Some st' ->
  head (current_day_locs st') = Some it ->
  (inject_Z (target + tolerance_min)
   < current_day_active st + (item_travel it + item_visit it))%Q.
Proof.
  induction fuel as [|fuel IH]; intros queue prev i st st' it Hlen; [done|].
  cbn [packed_days]. destruct queue as [|l rest] eqn:Eq; [done|].
  rewrite <- Eq in *.
  pose proof (pack_day_spec pace_key seg_map target queue [] 0%Q 0%Q 0%Q
                prev) as Hspec.
  pose proof (pack_day_break queue [] 0%Q 0%Q 0%Q prev) as Hbreak.
  cbv zeta in Hspec, Hbreak.
  set (st0 := pack_day pace_key seg_map target queue [] 0 0 0 prev) in *.
  destruct Hspec as (_ & Hne & _ & _ & Hlt & _).
  assert (queue ≠ []) as Hqne by (rewrite Eq; done).
  specialize (Hne (or_intror Hqne)). specialize (Hlt eq_refl Hqne).
  rewrite bool_decide_eq_false_2 by done. cbn [app].
  destruct i as [|i]; cbn [lookup list_lookup].
  - intros [= <-] Hst' Hit.
    destruct fuel as [|fuel']; [done|]. cbn [packed_days] in Hst'.
    destruct (temp_locs_queue st0) as [|l' rest'] eqn:Eq'; [done|].
    specialize (Hbreak l' rest' eq_refl).
    pose proof (pack_day_first l' rest' (prev_loc_id st0)) as Hfirst.
    pose proof (pack_day_keeps (l' :: rest') [] 0%Q 0%Q 0%Q
                  (prev_loc_id st0)) as [more Hmore].
    destruct (bool_decide _) eqn:Hd in Hst'.
    { apply bool_decide_eq_true in Hd. rewrite Hd in Hfirst. done. }
    cbn [app lookup list_lookup] in Hst'. injection Hst' as <-.
    change (head (current_day_locs
                    (pack_day pace_key seg_map target (l' :: rest') [] 0 0 0
                              (prev_loc_id st0))) = Some it) in Hit.
    rewrite Hfirst in Hit. injection Hit as <-. exact Hbreak.
  - apply IH. lia.
Qed.

End Greedy.



(** ** The writes of the optimize operation *)

Import TripsServiceDb.

Lemma db_bind_lift_Ok {A B} (k : A -> db B) (r : result A) a :
  r = Ok a -> lift r ≫= k = k a.
Proof. intros ->. unfold mbind, db_mbind, db_bind. simpl. by destruct (k a). Qed.

Lemma db_bind_lift_Raise {A B} (k : A -> db B) (r : result A) e :
  r = Raise e -> lift r ≫= k = raise (Exn e).
Proof. by intros ->. Qed.

Lemma db_bind_Run {A B} (k : A -> db B) w a :
  Run w (Returned a) ≫= k = Run (w ++ executed (k a)) (outcome_of (k a)).
Proof. done. Qed.

Lemma db_bind_Raised {A B} (k : A -> db B) w e :
  Run w (Raised e) ≫= k = Run w (Raised e).
Proof. done. Qed.

Lemma update_visit_orders_run trip_id ids : forall idx,
  update_visit_orders trip_id idx ids
  = Run (imap (fun i id => UpdateVisitOrder (idx + i) trip_id id) ids)
        (Returned tt).
Proof.
  induction ids as [|id ids IH]; intros idx; [done|].
  cbn [update_visit_orders]. unfold execute_db. rewrite db_bind_Run, IH.
  cbn [executed outcome_of app imap]. rewrite Nat.add_0_r. do 2 f_equal.
  apply imap_ext. intros i x _. simpl. f_equal. lia.
Qed.

(** The cells that the totals of the operation have read are there. *)
Lemma path_totals_cells table edges : forall d0 t0 d t,
  path_totals table edges d0 t0 = Ok (d, t) ->
  Forall (fun ab : nat * nat =>
            exists dq tq,
              cell (distances_m table) ab.1 ab.2 = Ok (Some dq)
              /\ cell (durations_s table) ab.1 ab.2 = Ok (Some tq))
         edges.
Proof.
  induction edges as [|[a b] edges IH]; intros d0 t0 d t; [constructor|].
  cbn [path_totals]. intros H.
  apply bind_Ok in H as (d_m & Hd & H).
  apply bind_Ok in H as (t_s & Ht & H).
  destruct d_m as [dq|]; [|by destruct t_s].
  destruct t_s as [tq|]; [|done].
  constructor; [by exists dq, tq|]. by eapply IH.
Qed.

Lemma snapshot_totals_path_totals table edges : forall d0 t0 d t,
  path_totals table edges d0 t0 = Ok (d, t) ->
  snapshot_totals (distances_m table) (durations_s table) edges d0 t0
  = Ok (d, t).
Proof.
  induction edges as [|[a b] edges IH]; intros d0 t0 d t; [done|].
  cbn [path_totals snapshot_totals]. intros H.
  apply bind_Ok in H as (d_m & Hd & H).
  apply bind_Ok in H as (t_s & Ht & H).
  rewrite Hd, Ht. cbn [mbind result_bind bind].
  destruct d_m as [dq|]; [|by destruct t_s].
  destruct t_s as [tq|]; [|done].
  by apply IH.
Qed.

Lemma insert_segments_run trip_id table legs :
  Forall (fun leg : (Z * Z) * (nat * nat) =>
            exists dq tq,
              cell (distances_m table) leg.2.1 leg.2.2 = Ok (Some dq)
              /\ cell (durations_s table) leg.2.1 leg.2.2 = Ok (Some tq))
         legs ->
  exists segs,
    insert_segments trip_id "ALL" (distances_m table) (durations_s table) legs
    = Run segs (Returned tt)
    /\ Forall2 (fun leg s => segment_of trip_id table leg = Some s) legs segs.
Proof.
  induction 1 as [|[[from_loc to_loc] [a b]] legs (dq & tq & Hd & Ht) _
                   (segs & IH & Hsegs)].
  - exists []. by split; [|constructor].
  - exists (InsertRouteSegment trip_id "ALL" from_loc to_loc (fdiv_double dq 1000)
              (fdiv_double tq 60) :: segs).
    cbn [insert_segments]. simpl in Hd, Ht.
    rewrite (db_bind_lift_Ok _ _ _ Hd), (db_bind_lift_Ok _ _ _ Ht).
    unfold execute_db. rewrite db_bind_Run, IH. split; [done|].
    constructor; [|done]. unfold segment_of. simpl. by rewrite Hd, Ht.
Qed.

Lemma Forall_zip_snd {A B} (P : B -> Prop) (l : list A) (k : list B) :
  Forall P k -> Forall (fun x : A * B => P x.2) (zip l k).
Proof.
  intros H. revert l. induction H as [|y k Hy _ IH]; intros [|x l];
    try constructor; [done|apply IH].
Qed.

(** What the snapshot of a route executes once the totals of the operation
    have been computed: the plan, the removal of the old segments, and a
    segment for each leg. *)
Lemma _store_route_snapshot_run existing trip_id ids table order_ d t :
  path_totals table (zip order_ (tail order_)) 0 0 = Ok (d, t) ->
  exists segs,
    _store_route_snapshot existing trip_id "ALL" ids (distances_m table)
      (durations_s table) (Some order_)
    = Run (plan_statement existing trip_id ids
             (if 1 <? length order_ then Some (fdiv_double d 1000)%Q else None)
             (if 1 <? length order_ then Some (fdiv_double t 60)%Q else None)
           :: DeleteRouteSegments trip_id "ALL" :: segs)
          (Returned tt)
    /\ Forall2 (fun leg s => segment_of trip_id table leg = Some s)
               (route_legs ids order_) segs.
Proof.
  intros Htot. unfold _store_route_snapshot.
  destruct (Nat.ltb_spec 1 (length order_)) as [Hn|Hn].
  - destruct (Nat.leb_spec (length order_) 1) as [|_]; [lia|].
    rewrite (snapshot_totals_path_totals _ _ _ _ _ _ Htot).
    cbn [mbind result_bind bind fst snd].
    rewrite (db_bind_lift_Ok _ _ _ eq_refl).
    destruct (insert_segments_run trip_id table (route_legs ids order_))
      as (segs & Hrun & Hsegs).
    { unfold route_legs.
      apply (Forall_zip_snd
               (fun ab : nat * nat =>
                  exists dq tq,
                    cell (distances_m table) ab.1 ab.2 = Ok (Some dq)
                    /\ cell (durations_s table) ab.1 ab.2 = Ok (Some tq))).
      by eapply path_totals_cells. }
    exists segs. split; [|done].
    unfold execute_db. rewrite !db_bind_Run.
    fold (route_legs ids order_). rewrite Hrun.
    cbn [executed outcome_of app fst snd]. by destruct existing.
  - destruct (Nat.leb_spec (length order_) 1) as [_|]; [|lia].
    exists []. split.
    + rewrite (db_bind_lift_Ok _ _ _ eq_refl).
      unfold execute_db. rewrite !db_bind_Run.
      cbn [executed outcome_of app fst snd unit_]. by destruct existing.
    + unfold route_legs.
      destruct order_ as [|i [|j l]]; [| |simpl in Hn; lia];
        simpl; rewrite zip_with_nil_r; constructor.
Qed.

(** The run of the optimize operation by cases, against the operation
    without its writes. *)
Lemma optimize_trip_route_run set_iter similar fetch t rows existing trip_id
    sid eid :
  is_finalized t = false ->
  2 <= length rows ->
  let run := TripsServiceDb.optimize_trip_route set_iter similar fetch
               (Some t) rows existing trip_id sid eid in
  let pure := TripsService.optimize_trip_route set_iter similar fetch
                (preferences t) rows sid eid in
  (exists e, run = raise (Exn e) /\ pure = Raise e)
  \/ (exists coords table hs he sc ec r ids e,
         coordinates_of rows = Ok coords
         /\ fetch coords = Ok table
         /\ select_route set_iter (durations_s table) hs he sc ec = Ok r
         /\ ordered_location_ids_of rows (order r) = Ok ids
         /\ path_totals table (zip (order r) (tail (order r))) 0 0 = Raise e
         /\ run = Run (visit_order_updates trip_id ids) (Raised (Exn e))
         /\ pure = Raise e)
  \/ (exists coords table hs he sc ec r ids d t' segs,
         coordinates_of rows = Ok coords
         /\ fetch coords = Ok table
         /\ select_route set_iter (durations_s table) hs he sc ec = Ok r
         /\ ordered_location_ids_of rows (order r) = Ok ids
         /\ path_totals table (zip (order r) (tail (order r))) 0 0
            = Ok (d, t')
         /\ Forall2 (fun leg s => segment_of trip_id table leg = Some s)
                    (route_legs ids (order r)) segs
         /\ run = Run (visit_order_updates trip_id ids
                       ++ plan_statement existing trip_id ids
                            (if 1 <? length ids then Some (fdiv_double d 1000)%Q
                             else None)
                            (if 1 <? length ids then Some (fdiv_double t' 60)%Q
                             else None)
                          :: DeleteRouteSegments trip_id "ALL" :: segs)
                      (Returned {| optimized_order := ids;
                                   total_distance_km :=
                                     py_round_to (fdiv_double d 1000) 3;
                                   total_duration_min :=
                                     py_round_to (fdiv_double t' 60) 1;
                                   total_locations := length rows |})
         /\ pure = Ok {| optimized_order := ids;
                         total_distance_km := py_round_to (fdiv_double d 1000) 3;
                         total_duration_min := py_round_to (fdiv_double t' 60) 1;
                         total_locations := length rows |}).
Proof.
  intros Hfin Hn.
  unfold TripsServiceDb.optimize_trip_route, TripsService.optimize_trip_route.
  rewrite Hfin. destruct (Nat.leb_spec (length rows) 1) as [|_]; [lia|].
  cbv zeta.
  destruct (coordinates_of rows) as [coords|e] eqn:Hcoords.
  2:{ left. by exists e. }
  rewrite (db_bind_lift_Ok _ _ _ eq_refl), bind_Ok_l.
  destruct (fetch coords) as [table|e] eqn:Htable.
  2:{ left. by exists e. }
  rewrite (db_bind_lift_Ok _ _ _ eq_refl), bind_Ok_l.
  destruct (select_route _ _ _ _ _ _) as [r|e] eqn:Hsel.
  2:{ left. by exists e. }
  rewrite (db_bind_lift_Ok _ _ _ eq_refl), bind_Ok_l.
  destruct (ordered_location_ids_of rows (order r)) as [ids|e] eqn:Hids.
  2:{ left. by exists e. }
  rewrite (db_bind_lift_Ok _ _ _ eq_refl), bind_Ok_l.
  rewrite update_visit_orders_run, db_bind_Run.
  fold (visit_order_updates trip_id ids).
  destruct (path_totals table (zip (order r) (tail (order r))) 0 0)
    as [[d t']|e] eqn:Htot.
  2:{ right. left. exists coords, table. do 4 eexists. exists r, ids, e.
      split_and!; [done|done|exact Hsel|done|done| |done].
      rewrite (db_bind_lift_Raise _ _ _ eq_refl).
      cbn [executed outcome_of raise]. by rewrite app_nil_r. }
  right. right.
  destruct (_store_route_snapshot_run existing trip_id ids table (order r)
              d t' Htot) as (segs & Hrun & Hsegs).
  assert (length ids = length (order r)) as Hlen.
  { apply ordered_location_ids_spec in Hids as [-> _].
    by rewrite length_map. }
  exists coords, table. do 4 eexists. exists r, ids, d, t', segs.
  split_and!; [done|done|exact Hsel|done|done|done| |done].
  rewrite (db_bind_lift_Ok _ _ _ eq_refl), Hrun, db_bind_Run, Hlen.
  cbn [executed outcome_of unit_ fst snd]. by rewrite app_nil_r.
Qed.

Lemma optimize_trip_route_run_trivial set_iter similar fetch t rows existing
    trip_id sid eid :
  is_finalized t = false ->
  length rows <= 1 ->
  TripsServiceDb.optimize_trip_route set_iter similar fetch (Some t) rows
    existing trip_id sid eid
  = Run [plan_statement existing trip_id (map location_id rows) None None;
         DeleteRouteSegments trip_id "ALL"]
        (Returned {| optimized_order := map location_id rows;
                     total_distance_km := 0;
                     total_duration_min := 0;
                     total_locations := length rows |}).
Proof.
  intros Hfin Hn. unfold TripsServiceDb.optimize_trip_route.
  rewrite Hfin. destruct (Nat.leb_spec (length rows) 1) as [_|]; [|lia].
  by destruct existing.
Qed.

(** The run and the operation without its writes end alike. *)
Lemma optimize_trip_route_outcome set_iter similar fetch t rows existing
    trip_id sid eid :
  is_finalized t = false ->
  outcome_of (TripsServiceDb.optimize_trip_route set_iter similar fetch
                (Some t) rows existing trip_id sid eid)
  = match TripsService.optimize_trip_route set_iter similar fetch
            (preferences t) rows sid eid with
    | Ok r => Returned r
    | Raise e => Raised (Exn e)
    end.
Proof.
  intros Hfin. destruct (decide (2 <= length rows)) as [Hn|Hn].
  - destruct (optimize_trip_route_run set_iter similar fetch t rows existing
                trip_id sid eid Hfin Hn)
      as [(e & -> & ->)
         |[(? & ? & ? & ? & ? & ? & ? & ? & e & _ & _ & _ & _ & _ & -> & ->)
          |(? & ? & ? & ? & ? & ? & ? & ? & ? & ? & ? & _ & _ & _ & _ & _
            & _ & -> & ->)]]; done.
  - rewrite optimize_trip_route_run_trivial by (done || lia).
    unfold TripsService.optimize_trip_route.
    by destruct (Nat.leb_spec (length rows) 1) as [_|]; [|lia].
Qed.

(** X15. A run of the optimize operation that fails has stored no plan and
    no segment. Either it has written nothing, or the totals along the
    chosen route could not be computed, and then it has rewritten the visit
    order of every stop before it failed. *)
Theorem failed_run_stores_no_snapshot set_iter similar fetch trip_ rows
    existing trip_id sid eid e :
  outcome_of (TripsServiceDb.optimize_trip_route set_iter similar fetch
                trip_ rows existing trip_id sid eid) = Raised e ->
  executed (TripsServiceDb.optimize_trip_route set_iter similar fetch
              trip_ rows existing trip_id sid eid) = []
  \/ exists coords table order_ ids e',
       coordinates_of rows = Ok coords
       /\ fetch coords = Ok table
       /\ ordered_location_ids_of rows order_ = Ok ids
       /\ path_totals table (zip order_ (tail order_)) 0 0 = Raise e'
       /\ e = Exn e'
       /\ executed (TripsServiceDb.optimize_trip_route set_iter similar
                      fetch trip_ rows existing trip_id sid eid)
          = visit_order_updates trip_id ids.
Proof.
  destruct trip_ as [t|]; [|by left].
  destruct (is_finalized t) eqn:Hfin.
  { left. unfold TripsServiceDb.optimize_trip_route. by rewrite Hfin. }
  destruct (decide (2 <= length rows)) as [Hn|Hn].
  - destruct (optimize_trip_route_run set_iter similar fetch t rows existing
                trip_id sid eid Hfin Hn)
      as [(e0 & -> & _)
         |[(coords & table & _ & _ & _ & _ & r & ids & e0 & Hc & Hf & _ & Hids
            & Htot & -> & _)
          |(? & ? & ? & ? & ? & ? & ? & ? & ? & ? & ? & _ & _ & _ & _ & _
            & _ & -> & _)]].
    + by left.
    + intros [= <-]. right. by exists coords, table, (order r), ids, e0.
    + done.
  - rewrite optimize_trip_route_run_trivial by (done || lia). done.
Qed.

Lemma failed_run_stores_no_snapshot_witness :
  executed (TripsServiceDb.optimize_trip_route (fun _ c => c)
              (fun _ _ => false) fetch4_no_distance (Some draft4) rows4 None
              7 (IdInt 30) IdNone) = []
  \/ exists coords table order_ ids e',
       coordinates_of rows4 = Ok coords
       /\ fetch4_no_distance coords = Ok table
       /\ ordered_location_ids_of rows4 order_ = Ok ids
       /\ path_totals table (zip order_ (tail order_)) 0 0 = Raise e'
       /\ Exn (ValueError "OSRM matrix contains unreachable pairs") = Exn e'
       /\ executed (TripsServiceDb.optimize_trip_route (fun _ c => c)
                      (fun _ _ => false) fetch4_no_distance (Some draft4)
                      rows4 None 7 (IdInt 30) IdNone)
          = visit_order_updates 7 ids.
Proof.
  apply (failed_run_stores_no_snapshot (fun _ c => c) (fun _ _ => false)
           fetch4_no_distance (Some draft4) rows4 None 7 (IdInt 30) IdNone).
  vm_compute. reflexivity.
Defined.



(** ** api.py *)

(** X17. For a trip of the user that is not finalized the answer of the
    optimize handler follows from the optimize operation: 200 with its
    result; 400 with the message of a [ValueError]; 502 with that of a
    [RuntimeError]; and 404 ['Trip not found'] for an [IndexError], which the
    clause for [LookupError] catches. The messages that the operation has
    for a missing or finalized trip are never sent. *)
Theorem optimize_trip_answer set_iter similar fetch t rows existing trip_id
    sid eid :
  is_finalized t = false ->
  outcome_of (Api.optimize_trip set_iter similar fetch (Some t) rows existing
                trip_id sid eid)
  = Returned
      match TripsService.optimize_trip_route set_iter similar fetch
              (preferences t) rows sid eid with
      | Ok r => (Api.Result r, 200)
      | Raise (ValueError msg) => (Api.Message false msg, 400)
      | Raise (IndexError _) => (Api.Message false "Trip not found", 404)
      | Raise (RuntimeError msg) => (Api.Message false msg, 502)
      end.
Proof.
  intros Hfin. unfold Api.optimize_trip. rewrite Hfin. cbn [outcome_of].
  rewrite optimize_trip_route_outcome by done.
  by destruct (TripsService.optimize_trip_route _ _ _ _ _ _ _) as [r|[]].
Qed.

Lemma optimize_trip_answer_witness :
  outcome_of (Api.optimize_trip (fun _ c => c) (fun _ _ => false)
                fetch4_no_distance (Some draft4) rows4 None 7 (IdInt 30)
                IdNone)
  = Returned (Api.Message false "OSRM matrix contains unreachable pairs",
              400).
Proof.
  apply (optimize_trip_answer (fun _ c => c) (fun _ _ => false)
           fetch4_no_distance draft4 rows4 None 7 (IdInt 30) IdNone).
  reflexivity.
Defined.

(** X18. Finalizing a trip of the user never fails, whatever becomes of the
    optimization it tries first: the answer is 200 and the three statements
    that finalize the trip are the last ones executed. Nothing is written
    before them when a plan is stored already or the trip is finalized
    already. *)
Theorem finalize_trip_always_finalizes set_iter similar fetch trip_id user_id
    t rows existing :
  trip_id ≠ 0%Z ->
  outcome_of (Api.finalize_trip set_iter similar fetch (Some trip_id) user_id
                (Some t) rows existing)
  = Returned (Api.Message true "Trip finalized successfully", 200)
  /\ exists before,
       executed (Api.finalize_trip set_iter similar fetch (Some trip_id)
                   user_id (Some t) rows existing)
       = before ++ [FinalizeTrip trip_id user_id; ConfirmSelected trip_id;
                    DeleteSuggested trip_id]
       /\ (is_Some existing \/ is_finalized t = true -> before = []).
Proof.
  intros Hid. unfold Api.finalize_trip.
  apply Z.eqb_neq in Hid. rewrite Hid.
  destruct existing as [plan_id|].
  - split; [done|]. by exists [].
  - set (run := TripsServiceDb.optimize_trip_route _ _ _ _ _ _ _ _ _).
    split.
    + unfold swallow. by destruct (outcome_of run).
    + exists (executed run). split.
      * unfold swallow, mbind, db_mbind, db_bind.
        destruct (outcome_of run); cbn [outcome_of executed unit_ app];
          by rewrite ?app_nil_r.
      * intros [[? [=]]|Hfin]. unfold run, TripsServiceDb.optimize_trip_route.
        by rewrite Hfin.
Qed.

Lemma finalize_trip_always_finalizes_witness :
  outcome_of (Api.finalize_trip (fun _ c => c) (fun _ _ => false)
                fetch4_no_distance (Some 7%Z) 3 (Some draft4) rows4 None)
  = Returned (Api.Message true "Trip finalized successfully", 200)
  /\ exists before,
       executed (Api.finalize_trip (fun _ c => c) (fun _ _ => false)
                   fetch4_no_distance (Some 7%Z) 3 (Some draft4) rows4 None)
       = before ++ [FinalizeTrip 7 3; ConfirmSelected 7; DeleteSuggested 7]
       /\ (is_Some (@None Z) \/ is_finalized draft4 = true -> before = []).
Proof.
  apply (finalize_trip_always_finalizes (fun _ c => c) (fun _ _ => false)
           fetch4_no_distance 7 3 draft4 rows4 None).
  discriminate.
Defined.

(** ** osrm.py, and the failures of the optimize operation *)

Lemma provider_Ok OSRM_BASE_URL requests_get coordinates table :
  provider OSRM_BASE_URL requests_get coordinates = Ok table ->
  length coordinates <= 1
  \/ (2 <= length coordinates <= 100
      /\ good_answer (requests_get (table_url OSRM_BASE_URL coordinates)
                                   "distance,duration") = true).
Proof.
  unfold provider, Osrm.fetch_table_matrix.
  destruct coordinates as [|c1 [|c2 coordinates]];
    [left; simpl; lia..|].
  destruct (Nat.ltb_spec 100 (length (c1 :: c2 :: coordinates)));
    [done|].
  fold (table_url OSRM_BASE_URL (c1 :: c2 :: coordinates)).
  destruct (requests_get _ _) as [e|[] status [p|]]; try done.
  cbn [negb good_answer].
  destruct (bool_decide (Osrm.code p = Some "Ok"%string)); [|done].
  cbn [negb andb].
  destruct (Osrm.distances p), (Osrm.durations p); try done.
  intros _. right. split; [simpl in *; lia|].
  by rewrite !bool_decide_eq_true_2 by by eexists.
Qed.

Lemma provider_Raise OSRM_BASE_URL requests_get coordinates e :
  provider OSRM_BASE_URL requests_get coordinates = Raise e ->
  (100 < length coordinates
   /\ e = ValueError "Too many coordinates for OSRM table (max 100).")
  \/ (2 <= length coordinates <= 100
      /\ good_answer (requests_get (table_url OSRM_BASE_URL coordinates)
                                   "distance,duration") = false
      /\ exists msg, e = RuntimeError msg).
Proof.
  unfold provider, Osrm.fetch_table_matrix.
  destruct coordinates as [|c1 [|c2 coordinates]]; [done..|].
  destruct (Nat.ltb_spec 100 (length (c1 :: c2 :: coordinates))) as [Hn|Hn].
  { intros [= <-]. by left. }
  fold (table_url OSRM_BASE_URL (c1 :: c2 :: coordinates)).
  intros H. right. split; [simpl in *; lia|]. revert H.
  destruct (requests_get _ _) as [err|[] status [p|]];
    cbn [negb good_answer]; try (intros [= <-]; split; [done|by eexists]).
  destruct (bool_decide (Osrm.code p = Some "Ok"%string));
    cbn [negb andb]; [|intros [= <-]; split; [done|by eexists]].
  destruct (Osrm.distances p) as [ds|], (Osrm.durations p) as [ts|];
    try done; intros [= <-]; (split; [|by eexists]).
  - rewrite andb_false_r. done.
  - by rewrite bool_decide_eq_false_2 by by intros [? [=]].
  - by rewrite bool_decide_eq_false_2 by by intros [? [=]].
Qed.

Lemma optimize_order_Raise set_iter durations_s fs fe e :
  optimize_order_from_durations set_iter durations_s fs fe = Raise e ->
  exists msg, e = ValueError msg.
Proof.
  unfold optimize_order_from_durations.
  destruct (_to_cost_matrix durations_s) as [cost|e0] eqn:Hc.
  2:{ intros [= <-]. unfold _to_cost_matrix in Hc.
      destruct durations_s as [|r rows]; [done|].
      destruct (forallb _ _); [done|]. injection Hc as <-. by eexists. }
  rewrite bind_Ok_l.
  destruct (validate_full_matrix cost) as [[]|e0] eqn:Hv.
  2:{ intros [= <-]. unfold validate_full_matrix in Hv.
      repeat (destruct (_ : bool) in Hv;
              [try done; injection Hv as <-; by eexists|]);
        try done. }
  rewrite bind_Ok_l. cbv zeta.
  destruct (shape0 cost <=? 1); [done|].
  destruct fs as [s|]; [done|].
  destruct (shape0 cost =? 0); [done|].
  destruct (option_map (clamp (shape0 cost)) fe) as [e1|]; [|done].
  destruct (py_min _ _); [done|].
  intros [= <-]. by eexists.
Qed.

Lemma foldl_soft_step_Raise set_iter durations hs he l : forall acc e,
  (forall e', acc = Raise e' -> exists msg, e' = ValueError msg) ->
  foldl (soft_step set_iter durations hs he) acc l = Raise e ->
  exists msg, e = ValueError msg.
Proof.
  induction l as [|[s e0] l IH]; intros acc e Hacc; cbn [foldl].
  - apply Hacc.
  - apply IH. intros e'. destruct acc as [best_soft|err].
    + destruct (soft_step_cases set_iter durations hs he best_soft s e0)
        as [[_ ->]|[_ [(err & Hopt & ->)|(cand & kept & _ & -> & _)]]];
        try done.
      intros [= <-]. by eapply optimize_order_Raise.
    + intros [= <-]. by apply Hacc.
Qed.

Lemma select_route_Raise set_iter durations hs he sc ec e :
  select_route set_iter durations hs he sc ec = Raise e ->
  exists msg, e = ValueError msg.
Proof.
  unfold select_route, base_route.
  destruct (optimize_order_from_durations _ _ _ _) as [base|e0] eqn:Hb.
  2:{ intros [= <-]. by eapply optimize_order_Raise. }
  rewrite bind_Ok_l.
  destruct (best_soft_route _ _ _ _ _ _) as [best_soft|e0] eqn:Hs; [done|].
  intros [= <-]. unfold best_soft_route in Hs.
  by eapply foldl_soft_step_Raise in Hs.
Qed.

Lemma coordinates_of_Raise rows e :
  coordinates_of rows = Raise e -> exists msg, e = ValueError msg.
Proof.
  induction rows as [|r rows IH]; [done|]. cbn [coordinates_of].
  destruct (latitude r), (longitude r);
    try (intros [= <-]; by eexists).
  destruct (coordinates_of rows); [done|]. intros [= <-]. by apply IH.
Qed.

Lemma coordinates_of_total rows :
  Forall has_coordinates rows ->
  exists coords,
    coordinates_of rows = Ok coords /\ length coords = length rows.
Proof.
  induction 1 as [|r rows [[lat Hlat] [lon Hlon]] _ (coords & IH & Hlen)].
  - by exists [].
  - exists ((lon, lat) :: coords). cbn [coordinates_of].
    rewrite Hlat, Hlon, IH. split; [done|]. simpl. by rewrite Hlen.
Qed.

Lemma ordered_location_ids_Raise rows order_ e :
  ordered_location_ids_of rows order_ = Raise e ->
  exists msg, e = IndexError msg.
Proof.
  induction order_ as [|i order_ IH]; [done|].
  cbn [ordered_location_ids_of].
  destruct (rows !! i); [|intros [= <-]; by eexists].
  destruct (ordered_location_ids_of rows order_); [done|].
  intros [= <-]. by apply IH.
Qed.

Lemma path_totals_Raise table edges : forall d0 t0 e,
  path_totals table edges d0 t0 = Raise e ->
  e = ValueError "OSRM matrix contains unreachable pairs"
  \/ exists msg, e = IndexError msg.
Proof.
  induction edges as [|[a b] edges IH]; intros d0 t0 e; [done|].
  cbn [path_totals].
  assert (forall m c, cell m a b = Raise c -> exists msg, c = IndexError msg)
    as Hcell.
  { intros m c. unfold cell. destruct (m !! a) as [r|];
      [destruct (r !! b)|]; try done; intros [= <-]; by eexists. }
  destruct (cell (distances_m table) a b) as [d_m|c] eqn:Hd.
  2:{ intros [= <-]. right. by eapply Hcell. }
  rewrite bind_Ok_l.
  destruct (cell (durations_s table) a b) as [t_s|c] eqn:Ht.
  2:{ intros [= <-]. right. by eapply Hcell. }
  rewrite bind_Ok_l.
  destruct d_m as [dq|], t_s as [tq|]; try (intros [= <-]; by left).
  apply IH.
Qed.

(** The optimize operation raises a [RuntimeError] when the provider does,
    and only then. *)
Lemma optimize_trip_route_RuntimeError set_iter similar fetch trip_ rows sid
    eid msg :
  TripsService.optimize_trip_route set_iter similar fetch trip_ rows sid eid
  = Raise (RuntimeError msg)
  <-> 2 <= length rows
      /\ exists coords,
           coordinates_of rows = Ok coords
           /\ fetch coords = Raise (RuntimeError msg).
Proof.
  unfold TripsService.optimize_trip_route.
  destruct (Nat.leb_spec (length rows) 1) as [Hn|Hn].
  { split; [done|]. intros [? _]. lia. }
  destruct (coordinates_of rows) as [coords|e] eqn:Hcoords.
  2:{ apply coordinates_of_Raise in Hcoords as [m ->].
      split; [done|]. by intros (_ & coords & [=] & _). }
  rewrite bind_Ok_l.
  destruct (fetch coords) as [table|e] eqn:Htable.
  2:{ split.
      - intros [= ->]. split; [lia|]. by exists coords.
      - intros (_ & coords' & [= <-] & H). rewrite Htable in H.
        by injection H as ->. }
  rewrite bind_Ok_l. split.
  2:{ intros (_ & coords' & [= <-] & H). congruence. }
  cbv zeta.
  destruct (select_route _ _ _ _ _ _) as [r|e] eqn:Hsel.
  2:{ apply select_route_Raise in Hsel as [m ->]. done. }
  rewrite bind_Ok_l.
  destruct (ordered_location_ids_of rows (order r)) as [ids|e] eqn:Hids.
  2:{ apply ordered_location_ids_Raise in Hids as [m ->]. done. }
  rewrite bind_Ok_l.
  destruct (path_totals table _ 0 0) as [totals|e] eqn:Htot; [done|].
  apply path_totals_Raise in Htot as [->|[m ->]]; done.
Qed.

(** X19. With the table client as the matrix provider, the optimize handler
    answers 502 for a trip of the user that is not finalized exactly when
    two to a hundred stops are selected, all with coordinates, and the
    request to the table service comes to nothing: the request fails, the
    response is not ok or not JSON, its code is not ['Ok'], or a matrix is
    missing. No other failure is reported as 502. *)
Theorem bad_gateway_iff_provider_fails set_iter similar OSRM_BASE_URL
    requests_get t rows existing trip_id sid eid :
  is_finalized t = false ->
  (exists b,
      outcome_of (Api.optimize_trip set_iter similar
                    (provider OSRM_BASE_URL requests_get) (Some t) rows
                    existing trip_id sid eid)
      = Returned (b, 502))
  <-> exists coords,
        coordinates_of rows = Ok coords
        /\ 2 <= length rows <= 100
        /\ good_answer (requests_get (table_url OSRM_BASE_URL coords)
                                     "distance,duration") = false.
Proof.
  intros Hfin. unfold Api.optimize_trip. rewrite Hfin. cbn [outcome_of].
  rewrite optimize_trip_route_outcome by done.
  split.
  - intros [b H].
    destruct (TripsService.optimize_trip_route _ _ _ _ _ _ _)
      as [r|[m|m|m]] eqn:Hop; try done.
    apply optimize_trip_route_RuntimeError in Hop
      as (Hn & coords & Hcoords & Hfetch).
    apply provider_Raise in Hfetch as [[_ [=]]|(Hlen & Hbad & _)].
    rewrite (coordinates_of_length _ _ Hcoords) in Hlen.
    by exists coords.
  - intros (coords & Hcoords & Hlen & Hbad).
    destruct (provider OSRM_BASE_URL requests_get coords) as [table|e]
      eqn:Hfetch.
    { apply provider_Ok in Hfetch as [Hle|[_ Hgood]]; [|congruence].
      rewrite (coordinates_of_length _ _ Hcoords) in Hle. lia. }
    pose proof Hfetch as Hfetch'.
    apply provider_Raise in Hfetch' as [[Hgt _]|(_ & _ & m & ->)].
    { rewrite (coordinates_of_length _ _ Hcoords) in Hgt. lia. }
    assert (TripsService.optimize_trip_route set_iter similar
              (provider OSRM_BASE_URL requests_get) (preferences t) rows sid
              eid = Raise (RuntimeError m)) as ->.
    { apply optimize_trip_route_RuntimeError. split; [lia|].
      by exists coords. }
    by eexists.
Qed.

Lemma bad_gateway_iff_provider_fails_witness :
  (exists b,
      outcome_of (Api.optimize_trip (fun _ c => c) (fun _ _ => false)
                    (provider None network_down) (Some draft4) rows4 None 7
                    IdNone IdNone)
      = Returned (b, 502))
  <-> exists coords,
        coordinates_of rows4 = Ok coords
        /\ 2 <= length rows4 <= 100
        /\ good_answer (network_down (table_url None coords)
                                     "distance,duration") = false.
Proof.
  apply (bad_gateway_iff_provider_fails (fun _ c => c) (fun _ _ => false)
           None network_down draft4 rows4 None 7 IdNone IdNone).
  reflexivity.
Defined.

(** X20. With more than a hundred selected stops, all with coordinates, the
    optimize handler answers 400 with the message of the table client,
    which has sent no request; nothing is written to the database. *)
Theorem too_many_stops_are_refused set_iter similar OSRM_BASE_URL requests_get
    t rows existing trip_id sid eid :
  is_finalized t = false ->
  Forall has_coordinates rows ->
  100 < length rows ->
  Api.optimize_trip set_iter similar (provider OSRM_BASE_URL requests_get)
    (Some t) rows existing trip_id sid eid
  = Run [] (Returned
              (Api.Message false
                 "Too many coordinates for OSRM table (max 100).", 400)).
Proof.
  intros Hfin Hrows Hn.
  destruct (coordinates_of_total rows Hrows) as (coords & Hcoords & Hlen).
  assert (provider OSRM_BASE_URL requests_get coords
          = Raise (ValueError
                     "Too many coordinates for OSRM table (max 100)."))
    as Hfetch.
  { unfold provider, Osrm.fetch_table_matrix.
    destruct coords as [|c1 [|c2 coords]]; [simpl in Hlen; lia..|].
    by destruct (Nat.ltb_spec 100 (length (c1 :: c2 :: coords))); [|lia]. }
  unfold Api.optimize_trip. rewrite Hfin.
  destruct (optimize_trip_route_run set_iter similar
              (provider OSRM_BASE_URL requests_get) t rows existing trip_id
              sid eid Hfin ltac:(lia))
    as [(e & -> & Hpure)
       |[(coords' & table & _ & _ & _ & _ & _ & _ & _ & Hc & Hf & _)
        |(coords' & table & _ & _ & _ & _ & _ & _ & _ & _ & _ & Hc & Hf
          & _)]]; [|congruence..].
  unfold TripsService.optimize_trip_route in Hpure.
  destruct (Nat.leb_spec (length rows) 1) as [|_]; [lia|].
  rewrite Hcoords, bind_Ok_l, Hfetch in Hpure. by injection Hpure as <-.
Qed.

Lemma too_many_stops_are_refused_witness :
  Api.optimize_trip (fun _ c => c) (fun _ _ => false)
    (provider None network_down) (Some draft4) rows101 None 7 IdNone IdNone
  = Run [] (Returned
              (Api.Message false
                 "Too many coordinates for OSRM table (max 100).", 400)).
Proof.
  apply (too_many_stops_are_refused (fun _ c => c) (fun _ _ => false) None
           network_down draft4 rows101 None 7 IdNone IdNone).
  - reflexivity.
  - apply Forall_fmap, Forall_forall. intros i _. split; by eexists.
  - vm_compute. lia.
Defined.

(** ** trips_service.py: the region constraint *)

Import RegionConstraint.

Lemma existsb_Permutation {A} (f : A -> bool) (l l' : list A) :
  l ≡ₚ l' -> existsb f l = existsb f l'.
Proof.
  induction 1 as [|x l l' _ IH|x y l|l l' l'' _ IH1 _ IH2]; simpl.
  - done.
  - by rewrite IH.
  - by rewrite !orb_assoc, (orb_comm (f y)).
  - by rewrite IH1.
Qed.

(** X21. Whether a location may join a trip does not depend on the order in
    which the query returns the regions of the trip. *)
Theorem region_verdict_ignores_row_order similar trip_regions trip_regions'
    loc_info :
  trip_regions ≡ₚ trip_regions' ->
  (enforce_region_constraint similar trip_regions loc_info).1
  = (enforce_region_constraint similar trip_regions' loc_info).1.
Proof.
  intros Hperm. unfold enforce_region_constraint.
  destruct loc_info as [info|]; [|done].
  pose proof (fmap_Permutation py_lower _ _ Hperm) as Hl.
  change (py_lower <$> ?l) with (map py_lower l) in Hl.
  destruct (map py_lower trip_regions) as [|a l] eqn:E,
           (map py_lower trip_regions') as [|a' l'] eqn:E'.
  - done.
  - by apply Permutation_nil_l in Hl.
  - by apply Permutation_nil_r in Hl.
  - rewrite (existsb_Permutation _ _ _ Hl). by destruct (existsb _ _).
Qed.

Lemma region_verdict_ignores_row_order_witness :
  (enforce_region_constraint (fun _ _ => false) ["Goa"; "Pune"]%string
     (Some {| info_locality := None; info_region := Some "pune"%string |})).1
  = (enforce_region_constraint (fun _ _ => false) ["Pune"; "Goa"]%string
       (Some {| info_locality := None;
                info_region := Some "pune"%string |})).1.
Proof.
  apply (region_verdict_ignores_row_order (fun _ _ => false)
           ["Goa"; "Pune"]%string ["Pune"; "Goa"]%string).
  apply Permutation_swap.
Defined.

(** X22. A trip that is limited to regions takes no location that has
    neither a region nor a locality, however similar the names are found:
    such a location matches no region. *)
Theorem location_without_place_is_rejected similar trip_regions info :
  trip_regions ≠ [] ->
  default EmptyString (info_region info) = EmptyString ->
  default EmptyString (info_locality info) = EmptyString ->
  (enforce_region_constraint similar trip_regions (Some info)).1 = false
  /\ is_Some (enforce_region_constraint similar trip_regions (Some info)).2.
Proof.
  intros Hne Hr Hl. unfold enforce_region_constraint.
  rewrite Hr, Hl. destruct trip_regions as [|r rs]; [done|].
  cbn [map py_lower].
  assert (forall l, existsb (region_test similar EmptyString EmptyString) l
                    = false) as ->.
  { induction l as [|x l IH]; [done|]. simpl. exact IH. }
  by split; [|eexists].
Qed.

Lemma location_without_place_is_rejected_witness :
  (enforce_region_constraint (fun _ _ => true) ["Goa"]%string
     (Some {| info_locality := None;
              info_region := Some EmptyString |})).1 = false
  /\ is_Some (enforce_region_constraint (fun _ _ => true) ["Goa"]%string
                (Some {| info_locality := None;
                         info_region := Some EmptyString |})).2.
Proof.
  apply (location_without_place_is_rejected (fun _ _ => true)
           ["Goa"]%string
           {| info_locality := None; info_region := Some EmptyString |});
    [discriminate|reflexivity|reflexivity].
Defined.

Lemma prefix_refl s : String.prefix s s = true.
Proof.
  induction s as [|c s IH]; [done|]. simpl.
  destruct (Ascii.ascii_dec c c); [exact IH|congruence].
Qed.

Lemma contains_refl s : contains s s = true.
Proof. destruct s; [done|]. cbn [contains]. by rewrite prefix_refl. Qed.

Lemma py_lower_nonempty s : s ≠ EmptyString -> py_lower s ≠ EmptyString.
Proof. by destruct s. Qed.

(** X23. A location whose region or locality is, up to the case of the
    letters, the name of one of the regions of the trip may join the trip,
    without a message, whatever the similarity of the other names. *)
Theorem same_region_is_allowed similar trip_regions info name :
  name ≠ EmptyString ->
  info_region info = Some name \/ info_locality info = Some name ->
  py_lower name ∈ map py_lower trip_regions ->
  enforce_region_constraint similar trip_regions (Some info) = (true, None).
Proof.
  intros Hname Hinfo Hin. unfold enforce_region_constraint.
  destruct (map py_lower trip_regions) as [|a l] eqn:E; [done|].
  assert (existsb
            (region_test similar
               (py_lower (default EmptyString (info_region info)))
               (py_lower (default EmptyString (info_locality info))))
            (a :: l) = true) as ->; [|done].
  apply existsb_exists. exists (py_lower name).
  split; [by apply list_elem_of_In|].
  pose proof (py_lower_nonempty name Hname) as Hlow.
  apply String.eqb_neq in Hlow.
  unfold region_test. destruct Hinfo as [-> | ->]; cbn [from_option id].
  - by rewrite Hlow, contains_refl.
  - rewrite Hlow, contains_refl. cbn [negb orb andb].
    by rewrite !orb_true_r.
Qed.

Lemma same_region_is_allowed_witness :
  enforce_region_constraint (fun _ _ => false) ["Goa"; "Pune"]%string
    (Some {| info_locality := Some "PUNE"%string;
             info_region := Some "Maharashtra"%string |})
  = (true, None).
Proof.
  apply (same_region_is_allowed (fun _ _ => false) ["Goa"; "Pune"]%string
           {| info_locality := Some "PUNE"%string;
              info_region := Some "Maharashtra"%string |}
           "PUNE"%string).
  - discriminate.
  - by right.
  - vm_compute. apply list_elem_of_further, list_elem_of_here.
Defined.

(** ** trips_service.py: the stored legs of the itinerary *)

(** X24. The leg that the itinerary knows between two stops is the one of
    the last stored segment for this pair, in the order of the rows, with
    [0.0] for a missing duration; it knows none when no segment is stored
    for the pair. *)
Theorem seg_map_holds_last_row segments a b :
  build_seg_map segments !! (a, b)
  = (fun s => default 0%Q (duration_min s))
      <$> last (filter (fun s => (from_location_id s, to_location_id s)
                                 = (a, b)) segments).
Proof.
  induction segments as [|s segments IH] using rev_ind.
  - done.
  - unfold build_seg_map. rewrite foldl_snoc. fold (build_seg_map segments).
    rewrite filter_app.
    destruct (decide ((from_location_id s, to_location_id s) = (a, b)))
      as [Heq|Hne].
    + rewrite Heq, lookup_insert_eq.
      rewrite filter_cons, decide_True by done.
      by rewrite filter_nil, last_snoc.
    + rewrite lookup_insert_ne by done.
      rewrite filter_cons, decide_False by done.
      rewrite filter_nil, app_nil_r. exact IH.
Qed.
